(** * Kotlin/Native runtime: the object registry of the memory manager

    A shallow embedding of
      - [kotlin-native/runtime/src/mm/cpp/ObjectFactory.hpp]
        ([ObjectFactoryStorage] with its [Node], [Producer], [Consumer],
        [Iterator] and [Iterable], and the typed [ObjectFactory] on top), and
      - [kotlin-native/runtime/src/main/cpp/AvaliableProcessors.cpp].

    Integers of type [size_t], [uintptr_t] and [uint32_t] are values of [Z]
    with the wrap-around written out.  Pointers are addresses, [0] being
    [nullptr].  A [std::unique_ptr] is the address it owns; moving from it
    leaves [nullptr] behind. *)

From Stdlib Require Import ZArith Lia.
From stdpp Require Import base numbers list option gmap strings.
Local Open Scope Z_scope.
#[local] Set Warnings "-clear-no-such-hyp".

(** * The model *)

(** ** Target and template parameters *)

(** What the C++ compiler fixes for one instantiation of
    [ObjectFactoryStorage<DataAlignment, Allocator>]. *)
Class Target := {
  size_bits : Z;      (* width of size_t and of uintptr_t *)
  sizeof_Node : Z;    (* sizeof(Node): one unique_ptr with an empty deleter *)
  alignof_Node : Z;   (* alignof(Node) *)
  DataAlignment : Z;  (* the template parameter *)
}.

(** Modelled from the spec: [IsValidAlignment] of Alignment.hpp, which is not
    part of the sources at hand.  An alignment is valid when it is a power of
    two. *)
Definition IsValidAlignment (alignment : Z) : bool :=
  (0 <? alignment) && (Z.land alignment (alignment - 1) =? 0).

Section Layout.
Context {T : Target}.

Definition SIZE_MOD : Z := 2 ^ size_bits.

(** Conversion to [size_t]. *)
Definition to_size_t (x : Z) : Z := x mod SIZE_MOD.

Definition size_add (a b : Z) : Z := to_size_t (a + b).

Definition size_sub (a b : Z) : Z := to_size_t (a - b).

Definition size_not (a : Z) : Z := to_size_t (Z.lnot a).

Definition is_size_t (x : Z) : bool := (0 <=? x) && (x <? SIZE_MOD).

(** What the language and the [static_assert] of the class guarantee about
    the parameters. *)
Definition target_ok : bool :=
  (0 <? size_bits)
  && IsValidAlignment DataAlignment && is_size_t DataAlignment
  && IsValidAlignment alignof_Node && is_size_t alignof_Node
  && (0 <? sizeof_Node) && is_size_t sizeof_Node.

(** Modelled from the spec: [AlignUp] of Alignment.hpp, which is not part of
    the sources at hand: [size] rounded up to the next multiple of
    [alignment], computed on [size_t] with the usual mask. *)
Definition AlignUp (size alignment : Z) : Z :=
  Z.land (size_add size (size_sub alignment 1)) (size_not (size_sub alignment 1)).

(** Modelled from the spec: [IsAligned] of Alignment.hpp. *)
Definition IsAligned (p alignment : Z) : bool := p mod alignment =? 0.

(** [std::max] on [size_t]. *)
Definition size_max (a b : Z) : Z := if a <? b then b else a.

(** *** [Node]: the layout functions *)

Definition DataOffset : Z := AlignUp sizeof_Node DataAlignment.

Definition GetSizeAndAlignmentForDataSize (dataSize : Z) : Z * Z :=
  let dataSizeAligned := AlignUp dataSize DataAlignment in
  let totalAlignment := size_max alignof_Node DataAlignment in
  let totalSize := AlignUp (size_add sizeof_Node dataSizeAligned) totalAlignment in
  (totalSize, totalAlignment).

End Layout.

(** The 64-bit targets: a [Node] is one pointer. *)
Definition lp64 (dataAlignment : Z) : Target :=
  {| size_bits := 64; sizeof_Node := 8; alignof_Node := 8;
     DataAlignment := dataAlignment |}.

(** The 32-bit targets. *)
Definition ilp32 (dataAlignment : Z) : Target :=
  {| size_bits := 32; sizeof_Node := 4; alignof_Node := 4;
     DataAlignment := dataAlignment |}.

(** ** The program state *)

(** What the program does to the outside, in order. *)
Inductive Event :=
| EvAlloc (size alignment result : Z)   (* allocator.Alloc(size, alignment) gave result *)
| EvFree (p : Z)                        (* Allocator::Free(p) *)
| EvLock                                (* mutex_ acquired *)
| EvUnlock                              (* mutex_ released *)
| EvConsoleErrorf (format : string) (args : list Z).

Module Storage.

(** The data members of [ObjectFactoryStorage]; [mutex_] is [true] while the
    spin lock is held. *)
Record t := mk { root_ : Z; last_ : Z; size_ : Z; mutex_ : bool }.

End Storage.

Module Producer.

(** The data members of [Producer]; [owner_] is the one storage of the state
    and [allocator_] the one allocator. *)
Record t := mk { root_ : Z; last_ : Z; size_ : Z }.

End Producer.

Module Consumer.

Record t := mk { root_ : Z; last_ : Z; size_ : Z }.

End Consumer.

(** [ObjectFactoryStorage::Iterator]. *)
Record Iterator := mkIterator { previousNode_ : Z; node_ : Z }.

(** [ConcurrentMarkAndSweep::ObjectData::Color]. *)
Inductive Color := kWhite | kBlack.

(** The part of a type descriptor that the factory reads. *)
Record TypeInfo := mkTypeInfo { instanceSize_ : Z }.

(** Modelled from the spec: [TypeInfo::IsArray] of TypeInfo.h, which is not
    part of the sources at hand; the descriptor of an array carries the
    negative of the element size as its instance size. *)
Definition IsArray (typeInfo : TypeInfo) : bool := instanceSize_ typeInfo <? 0.

(** [HeapObjHeader] and [HeapArrayHeader], as constructed in the data region
    of a node. *)
Inductive HeapRecord :=
| HeapObjHeader (gcData : Color) (typeInfoOrMeta_ : option TypeInfo)
| HeapArrayHeader (gcData : Color) (typeInfoOrMeta_ : option TypeInfo) (count_ : Z).

Record State := mkState {
  nodes : gmap Z Z;                 (* live nodes: address |-> next_ *)
  storage : Storage.t;
  producers : list Producer.t;
  consumers : list Consumer.t;
  objects : gmap Z HeapRecord;      (* data address |-> record built there *)
  trace : list Event;
}.

Definition with_nodes (f : gmap Z Z -> gmap Z Z) (s : State) : State :=
  mkState (f (nodes s)) (storage s) (producers s) (consumers s) (objects s) (trace s).

Definition with_storage (f : Storage.t -> Storage.t) (s : State) : State :=
  mkState (nodes s) (f (storage s)) (producers s) (consumers s) (objects s) (trace s).

Definition with_producers (f : list Producer.t -> list Producer.t) (s : State) : State :=
  mkState (nodes s) (storage s) (f (producers s)) (consumers s) (objects s) (trace s).

Definition with_consumers (f : list Consumer.t -> list Consumer.t) (s : State) : State :=
  mkState (nodes s) (storage s) (producers s) (f (consumers s)) (objects s) (trace s).

Definition with_objects (f : gmap Z HeapRecord -> gmap Z HeapRecord) (s : State) : State :=
  mkState (nodes s) (storage s) (producers s) (consumers s) (f (objects s)) (trace s).

Definition with_trace (f : list Event -> list Event) (s : State) : State :=
  mkState (nodes s) (storage s) (producers s) (consumers s) (objects s) (f (trace s)).

(** A freshly constructed storage, with no producer or consumer yet. *)
Definition initial : State :=
  mkState ∅ (Storage.mk 0 0 0 false) [] [] ∅ [].

(** ** Computations *)

(** How a call ends. *)
Inductive Outcome (A : Type) :=
| Ok (a : A) (s : State)                       (* it returns *)
| Aborted (s : State)                          (* konan::abort() *)
| AssertionFailed (msg : string) (s : State)   (* a RuntimeAssert fired *)
| Blocked (s : State)                          (* spinning on a held lock *)
| Undefined.                                   (* no defined behaviour *)

Arguments Ok {A} a s.

Arguments Aborted {A} s.

Arguments AssertionFailed {A} msg s.

Arguments Blocked {A} s.

Arguments Undefined {A}.

Definition M (A : Type) : Type := State -> Outcome A.

Definition ret {A} (a : A) : M A := fun s => Ok a s.

Definition bind {A B} (m : M A) (f : A -> M B) : M B :=
  fun s =>
    match m s with
    | Ok a s' => f a s'
    | Aborted s' => Aborted s'
    | AssertionFailed msg s' => AssertionFailed msg s'
    | Blocked s' => Blocked s'
    | Undefined => Undefined
    end.

Global Instance M_ret : MRet M := @ret.

Global Instance M_bind : MBind M := fun A B f m => bind m f.

Definition get : M State := fun s => Ok s s.

Definition modify (f : State -> State) : M unit := fun s => Ok tt (f s).

Definition undefined {A} : M A := fun _ => Undefined.

Definition abort {A} : M A := fun s => Aborted s.

Definition when (b : bool) (m : M unit) : M unit := if b then m else ret tt.

Definition emit (e : Event) : M unit := modify (with_trace (fun t => t ++ [e])).

Definition RuntimeAssert (condition : bool) (msg : string) : M unit :=
  fun s => if condition then Ok tt s else AssertionFailed msg s.

Definition consoleErrorf (format : string) (args : list Z) : M unit :=
  emit (EvConsoleErrorf format args).

(** Reading and writing [p->next_]; [p] has to be a live node. *)
Definition get_next (p : Z) : M Z :=
  fun s => match nodes s !! p with Some nx => Ok nx s | None => Undefined end.

Definition set_next (p v : Z) : M unit :=
  fun s => match nodes s !! p with
           | Some _ => Ok tt (with_nodes (insert p v) s)
           | None => Undefined
           end.

Definition get_storage : M Storage.t := fun s => Ok (storage s) s.

Definition set_storage (st : Storage.t) : M unit := modify (with_storage (fun _ => st)).

Definition get_producer (i : nat) : M Producer.t :=
  fun s => match producers s !! i with Some p => Ok p s | None => Undefined end.

Definition set_producer (i : nat) (p : Producer.t) : M unit :=
  modify (with_producers (fun ps => <[i := p]> ps)).

Definition get_consumer (j : nat) : M Consumer.t :=
  fun s => match consumers s !! j with Some c => Ok c s | None => Undefined end.

Definition set_consumer (j : nat) (c : Consumer.t) : M unit :=
  modify (with_consumers (fun cs => <[j := c]> cs)).

(** [mutex_.lock()] and [mutex_.unlock()] of the storage. *)
Definition lock : M unit :=
  fun s =>
    if Storage.mutex_ (storage s) then Blocked s
    else Ok tt (with_trace (fun t => t ++ [EvLock])
                 (with_storage (fun st => Storage.mk (Storage.root_ st) (Storage.last_ st)
                                            (Storage.size_ st) true) s)).

Definition unlock : M unit :=
  modify (fun s => with_trace (fun t => t ++ [EvUnlock])
            (with_storage (fun st => Storage.mk (Storage.root_ st) (Storage.last_ st)
                                       (Storage.size_ st) false) s)).

(** ** [ObjectFactoryStorage] *)

Section StorageOps.
Context {T : Target}.

(** The external allocator is an oracle: [answer] is what
    [allocator.Alloc(size, alignment)] returns at this call.  Its contract is
    to return null or the address of a block that is not live. *)
Definition Alloc (answer size alignment : Z) : M Z :=
  s ← get;
  if (answer =? 0) || (is_size_t answer && bool_decide (nodes s !! answer = None))
  then emit (EvAlloc size alignment answer);; mret answer
  else undefined.

(** [Allocator::Free]: the block of the node goes, and with it the record in
    its data region. *)
Definition Free (p : Z) : M unit :=
  get_next p;;
  modify (with_nodes (delete p));;
  modify (with_objects (delete (size_add p DataOffset)));;
  emit (EvFree p).

(** [Deleter::operator()], and before it the destructor of the owning
    [unique_ptr]: nothing happens on null; [~Node] destroys [next_] first.
    [fuel] bounds the depth of the nested destructor calls. *)
Fixpoint destroy (fuel : nat) (p : Z) : M unit :=
  if p =? 0 then mret tt
  else match fuel with
       | O => undefined
       | S fuel' => nx ← get_next p; destroy fuel' nx;; Free p
       end.

Definition destroy_unique_ptr (p : Z) : M unit :=
  s ← get; destroy (S (size (nodes s))) p.

(** *** [Node] *)

Definition Data (this : Z) : M Z :=
  let kDataOffset := DataOffset in
  let ptr := size_add this kDataOffset in
  RuntimeAssert (IsAligned ptr DataAlignment) "Data=%p is not aligned to %zu";;
  mret ptr.

Definition FromData (data : Z) : M Z :=
  let kDataOffset := DataOffset in
  let node := size_sub data kDataOffset in
  d ← Data node;
  RuntimeAssert (d =? data) "Node layout has broken";;
  mret node.

Definition Create (answer dataSize : Z) : M Z :=
  let '(totalSize, totalAlignment) := GetSizeAndAlignmentForDataSize dataSize in
  RuntimeAssert (size_add DataOffset dataSize <=? totalSize)
    "totalSize %zu is not enough to fit data %zu at offset %zu";;
  ptr ← Alloc answer totalSize totalAlignment;
  when (ptr =? 0)
    (consoleErrorf "Out of memory trying to allocate %zu bytes. Aborting.\n" [totalSize];;
     abort);;
  RuntimeAssert (IsAligned ptr totalAlignment) "Allocator returned unaligned to %zu pointer %p";;
  (* new (ptr) Node(): next_ is null *)
  modify (with_nodes (insert ptr 0));;
  mret ptr.

(** The body shared by [Producer::AssertCorrect], [Consumer::AssertCorrect]
    and [AssertCorrectUnsafe]. *)
Definition assert_correct (root last : Z) : M unit :=
  if root =? 0 then RuntimeAssert (last =? 0) "last_ must be null"
  else
    RuntimeAssert (negb (last =? 0)) "last_ must not be null";;
    nx ← get_next last;
    RuntimeAssert (nx =? 0) "last_ must not have next".

(** *** [Producer] *)

Definition Producer_AssertCorrect (i : nat) : M unit :=
  p ← get_producer i; assert_correct (Producer.root_ p) (Producer.last_ p).

Definition Producer_new : M nat :=
  s ← get;
  modify (with_producers (fun ps => ps ++ [Producer.mk 0 0 0]));;
  mret (length (producers s)).

Definition Producer_size (i : nat) : M Z :=
  p ← get_producer i; mret (Producer.size_ p).

Definition Producer_Insert (i : nat) (answer dataSize : Z) : M Z :=
  Producer_AssertCorrect i;;
  node ← Create answer dataSize;
  let nodePtr := node in
  p ← get_producer i;
  (if Producer.root_ p =? 0
   then set_producer i (Producer.mk node (Producer.last_ p) (Producer.size_ p))
   else set_next (Producer.last_ p) node);;
  p ← get_producer i;
  set_producer i (Producer.mk (Producer.root_ p) nodePtr (Producer.size_ p));;
  p ← get_producer i;
  set_producer i (Producer.mk (Producer.root_ p) (Producer.last_ p)
                    (size_add (Producer.size_ p) 1));;
  p ← get_producer i;
  RuntimeAssert (negb (Producer.root_ p =? 0)) "Must not be empty";;
  Producer_AssertCorrect i;;
  mret nodePtr.

Definition AssertCorrectUnsafe : M unit :=
  st ← get_storage; assert_correct (Storage.root_ st) (Storage.last_ st).

Definition Publish (i : nat) : M unit :=
  Producer_AssertCorrect i;;
  p ← get_producer i;
  if Producer.root_ p =? 0 then mret tt
  else
    lock;;
    AssertCorrectUnsafe;;
    st ← get_storage;
    (if Storage.root_ st =? 0
     then set_storage (Storage.mk (Producer.root_ p) (Storage.last_ st)
                         (Storage.size_ st) (Storage.mutex_ st))
     else set_next (Storage.last_ st) (Producer.root_ p));;
    set_producer i (Producer.mk 0 (Producer.last_ p) (Producer.size_ p));;
    st ← get_storage; p ← get_producer i;
    set_storage (Storage.mk (Storage.root_ st) (Producer.last_ p)
                   (Storage.size_ st) (Storage.mutex_ st));;
    set_producer i (Producer.mk (Producer.root_ p) 0 (Producer.size_ p));;
    st ← get_storage; p ← get_producer i;
    set_storage (Storage.mk (Storage.root_ st) (Storage.last_ st)
                   (size_add (Storage.size_ st) (Producer.size_ p)) (Storage.mutex_ st));;
    set_producer i (Producer.mk (Producer.root_ p) (Producer.last_ p) 0);;
    p ← get_producer i;
    RuntimeAssert (Producer.root_ p =? 0) "Must be empty";;
    Producer_AssertCorrect i;;
    st ← get_storage;
    RuntimeAssert (negb (Storage.root_ st =? 0)) "Must not be empty";;
    AssertCorrectUnsafe;;
    unlock.

(** *** [Consumer] *)

Definition Consumer_AssertCorrect (j : nat) : M unit :=
  c ← get_consumer j; assert_correct (Consumer.root_ c) (Consumer.last_ c).

Definition Consumer_new : M nat :=
  s ← get;
  modify (with_consumers (fun cs => cs ++ [Consumer.mk 0 0 0]));;
  mret (length (consumers s)).

Definition Consumer_Insert (j : nat) (node : Z) : M unit :=
  Consumer_AssertCorrect j;;
  let nodePtr := node in
  c ← get_consumer j;
  (if Consumer.root_ c =? 0
   then set_consumer j (Consumer.mk node (Consumer.last_ c) (Consumer.size_ c))
   else set_next (Consumer.last_ c) node);;
  c ← get_consumer j;
  set_consumer j (Consumer.mk (Consumer.root_ c) nodePtr (Consumer.size_ c));;
  c ← get_consumer j;
  set_consumer j (Consumer.mk (Consumer.root_ c) (Consumer.last_ c)
                    (size_add (Consumer.size_ c) 1));;
  Consumer_AssertCorrect j.

(** *** [Iterator] and [Iterable] *)

Definition Iterator_incr (it : Iterator) : M Iterator :=
  nx ← get_next (node_ it);
  mret (mkIterator (node_ it) nx).

(** [LockForIter]: the constructor of [Iterable] takes the lock. *)
Definition LockForIter : M unit := lock.

(** The destructor of [Iterable] releases it. *)
Definition Iterable_destroy : M unit := unlock.

Definition Iterable_size : M Z := st ← get_storage; mret (Storage.size_ st).

Definition Iterable_begin : M Iterator :=
  st ← get_storage; mret (mkIterator 0 (Storage.root_ st)).

Definition Iterable_end : M Iterator :=
  st ← get_storage; mret (mkIterator (Storage.last_ st) 0).

(** Expects [mutex_] to be held by the caller.  Every [unique_ptr] that is
    assigned to below is null at that point, so that an assignment destroys
    no node. *)
Definition ExtractUnsafe (previousNode : Z) : M (Z * Z) :=
  st ← get_storage;
  RuntimeAssert (negb (Storage.root_ st =? 0)) "Must not be empty";;
  AssertCorrectUnsafe;;
  if previousNode =? 0 then
    (* Extracting the root. *)
    let node := Storage.root_ st in
    set_storage (Storage.mk 0 (Storage.last_ st) (Storage.size_ st) (Storage.mutex_ st));;
    nx ← get_next node;
    set_next node 0;;
    st ← get_storage;
    set_storage (Storage.mk nx (Storage.last_ st) (Storage.size_ st) (Storage.mutex_ st));;
    st ← get_storage;
    when (Storage.root_ st =? 0)
      (set_storage (Storage.mk (Storage.root_ st) 0 (Storage.size_ st) (Storage.mutex_ st)));;
    st ← get_storage;
    set_storage (Storage.mk (Storage.root_ st) (Storage.last_ st)
                   (size_sub (Storage.size_ st) 1) (Storage.mutex_ st));;
    AssertCorrectUnsafe;;
    st ← get_storage;
    mret (node, Storage.root_ st)
  else
    node ← get_next previousNode;
    set_next previousNode 0;;
    nx ← get_next node;
    set_next node 0;;
    set_next previousNode nx;;
    pnx ← get_next previousNode;
    st ← get_storage;
    when (pnx =? 0)
      (set_storage (Storage.mk (Storage.root_ st) previousNode (Storage.size_ st)
                      (Storage.mutex_ st)));;
    st ← get_storage;
    set_storage (Storage.mk (Storage.root_ st) (Storage.last_ st)
                   (size_sub (Storage.size_ st) 1) (Storage.mutex_ st));;
    AssertCorrectUnsafe;;
    pnx ← get_next previousNode;
    mret (node, pnx).

(** [result.first] goes out of scope at the end of the call, which destroys
    the extracted node. *)
Definition EraseAndAdvance (iterator : Iterator) : M Iterator :=
  result ← ExtractUnsafe (previousNode_ iterator);
  let iterator := mkIterator (previousNode_ iterator) (snd result) in
  destroy_unique_ptr (fst result);;
  mret iterator.

Definition MoveAndAdvance (j : nat) (iterator : Iterator) : M Iterator :=
  result ← ExtractUnsafe (previousNode_ iterator);
  let iterator := mkIterator (previousNode_ iterator) (snd result) in
  Consumer_Insert j (fst result);;
  mret iterator.

Definition GetSizeUnsafe : M Z := st ← get_storage; mret (Storage.size_ st).

(** Forward iteration, [for (it = begin(); it != end(); ++it)], collecting
    the nodes it visits; [fuel] bounds the number of steps. *)
Fixpoint iterate (fuel : nat) (it : Iterator) : M (list Z) :=
  if node_ it =? 0 then mret []
  else match fuel with
       | O => undefined
       | S fuel' => it' ← Iterator_incr it; rest ← iterate fuel' it'; mret (node_ it :: rest)
       end.

End StorageOps.

(** ** Chains in the node heap *)

(** [lseg h p l q]: starting at [p] and following [next_] in [h] one visits
    the nodes [l], in this order, and arrives at [q]. *)
Fixpoint lseg (h : gmap Z Z) (p : Z) (l : list Z) (q : Z) : Prop :=
  match l with
  | [] => p = q
  | a :: l' => p = a /\ a <> 0 /\ exists nx, h !! a = Some nx /\ lseg h nx l' q
  end.

(** A queue with members [root], [last] and [size] holds the nodes [l]. *)
Definition is_queue (h : gmap Z Z) (root last size : Z) (l : list Z) : Prop :=
  lseg h root l 0 /\ last = default 0 (list.last l) /\ size = Z.of_nat (length l).

(** ** The state as lists of nodes *)

Section Refinement.
Context {T : Target}.

Definition storage_rep (h : gmap Z Z) (st : Storage.t) (l : list Z) : Prop :=
  is_queue h (Storage.root_ st) (Storage.last_ st) (Storage.size_ st) l.

Definition producer_rep (h : gmap Z Z) (p : Producer.t) (l : list Z) : Prop :=
  is_queue h (Producer.root_ p) (Producer.last_ p) (Producer.size_ p) l.

Definition consumer_rep (h : gmap Z Z) (c : Consumer.t) (l : list Z) : Prop :=
  is_queue h (Consumer.root_ c) (Consumer.last_ c) (Consumer.size_ c) l.

(** [Represents s ls lps lcs]: in state [s] the storage holds the nodes [ls],
    producer [i] holds [lps !! i] and consumer [j] holds [lcs !! j]; no node
    is in two places, and every live node has a proper address. *)
Record Represents (s : State) (ls : list Z) (lps lcs : list (list Z)) : Prop :=
  mkRepresents {
    rep_storage : storage_rep (nodes s) (storage s) ls;
    rep_producers : Forall2 (producer_rep (nodes s)) (producers s) lps;
    rep_consumers : Forall2 (consumer_rep (nodes s)) (consumers s) lcs;
    rep_nodup : NoDup (ls ++ concat lps ++ concat lcs);
    rep_range : map_Forall (fun a _ => 0 < a < SIZE_MOD) (nodes s);
  }.

End Refinement.

(** ** Clients of the storage *)

(** What the threads of a program do with one storage, one call at a time.
    At most one [Iterable] is alive, with one iterator into it. *)
Inductive Op :=
| OpNewProducer                              (* Producer(owner, allocator) *)
| OpNewConsumer                              (* Consumer() *)
| OpInsert (i : nat) (answer dataSize : Z)   (* producer i: Insert(dataSize) *)
| OpPublish (i : nat)                        (* producer i: Publish() *)
| OpLockForIter                              (* iter = LockForIter(); it = iter.begin() *)
| OpIncr                                     (* ++it *)
| OpEraseAndAdvance                          (* iter.EraseAndAdvance(it) *)
| OpMoveAndAdvance (j : nat)                 (* iter.MoveAndAdvance(consumer j, it) *)
| OpUnlock.                                  (* iter goes out of scope *)

Section Client.
Context {T : Target}.

(** One call; [cursor] is the iterator of the live [Iterable], if any.  A
    call on an iterator that does not exist is no program. *)
Definition step (op : Op) (cursor : option Iterator) : M (option Iterator) :=
  match op, cursor with
  | OpNewProducer, _ => Producer_new;; mret cursor
  | OpNewConsumer, _ => Consumer_new;; mret cursor
  | OpInsert i answer dataSize, _ => Producer_Insert i answer dataSize;; mret cursor
  | OpPublish i, _ => Publish i;; mret cursor
  | OpLockForIter, _ => LockForIter;; it ← Iterable_begin; mret (Some it)
  | OpIncr, Some it => it' ← Iterator_incr it; mret (Some it')
  | OpEraseAndAdvance, Some it => it' ← EraseAndAdvance it; mret (Some it')
  | OpMoveAndAdvance j, Some it => it' ← MoveAndAdvance j it; mret (Some it')
  | OpUnlock, Some _ => Iterable_destroy;; mret None
  | _, None => undefined
  end.

Fixpoint run (ops : list Op) (cursor : option Iterator) : M (option Iterator) :=
  match ops with
  | [] => mret cursor
  | op :: ops' => cursor' ← step op cursor; run ops' cursor'
  end.

(** The invariant the claims state for a queue: the three members agree on
    emptiness, the last node has no successor, and forward iteration from the
    head visits [size_] nodes, each once. *)
Definition queue_wf (h : State) (root last size : Z) : Prop :=
  (root = 0 <-> last = 0) /\ (last = 0 <-> size = 0) /\
  (root <> 0 -> nodes h !! last = Some 0) /\
  exists l, iterate (Z.to_nat size) (mkIterator 0 root) h = Ok l h /\
            Z.of_nat (length l) = size /\ NoDup l.

Definition WellFormed (s : State) : Prop :=
  queue_wf s (Storage.root_ (storage s)) (Storage.last_ (storage s))
    (Storage.size_ (storage s)).

(** Where the iterator of the client stands. *)
Definition cursor_ok (s : State) (ls : list Z) (cursor : option Iterator) : Prop :=
  match cursor with
  | None => Storage.mutex_ (storage s) = false
  | Some it =>
      Storage.mutex_ (storage s) = true /\
      exists l1 l2, ls = l1 ++ l2 /\ previousNode_ it = default 0 (last l1) /\
                    node_ it = default 0 (head l2)
  end.

Definition Inv (s : State) (cursor : option Iterator) : Prop :=
  exists ls lps lcs, Represents s ls lps lcs /\ cursor_ok s ls cursor.

End Client.

(** ** [ObjectFactory] *)

(** What the compiler fixes for the records that the factory builds in the
    data region of a node. *)
Class ObjectLayout := {
  sizeof_ObjHeader : Z;                 (* sizeof(ObjHeader) *)
  sizeof_HeapObjHeader : Z;             (* sizeof(HeapObjHeader) *)
  sizeof_HeapArrayHeader : Z;           (* sizeof(HeapArrayHeader) *)
  offsetof_HeapObjHeader_object : Z;    (* offsetof(HeapObjHeader, object) *)
  offsetof_HeapArrayHeader_array : Z;   (* offsetof(HeapArrayHeader, array) *)
}.

(** On the 64-bit targets: a colour, padding to 8, then the header. *)
Definition layout64 : ObjectLayout :=
  {| sizeof_ObjHeader := 8; sizeof_HeapObjHeader := 16; sizeof_HeapArrayHeader := 24;
     offsetof_HeapObjHeader_object := 8; offsetof_HeapArrayHeader_array := 8 |}.

(** Conversion to [uint32_t]. *)
Definition to_uint32 (x : Z) : Z := x mod 2 ^ 32.

Section ObjectFactory.
Context {T : Target} {L : ObjectLayout}.

(** [Storage] is [ObjectFactoryStorage<kObjectAlignment, Allocator>]. *)
Definition kObjectAlignment : Z := DataAlignment.

Definition layout_ok : bool :=
  (32 <=? size_bits)
  && is_size_t sizeof_ObjHeader && is_size_t sizeof_HeapObjHeader
  && is_size_t sizeof_HeapArrayHeader
  && is_size_t offsetof_HeapObjHeader_object
  && is_size_t offsetof_HeapArrayHeader_array.

(** *** [ThreadQueue]; its [producer_] is producer [i] of the state *)

Definition ObjectAllocatedDataSize (typeInfo : TypeInfo) : Z :=
  let membersSize := size_sub (to_size_t (instanceSize_ typeInfo)) sizeof_ObjHeader in
  AlignUp (size_add sizeof_HeapObjHeader membersSize) kObjectAlignment.

Definition ArrayAllocatedDataSize (typeInfo : TypeInfo) (count : Z) : Z :=
  let membersSize := to_uint32 (to_uint32 (- instanceSize_ typeInfo) * count) in
  (* Note: array body is aligned, but for size computation it is enough to
     align the sum. *)
  AlignUp (size_add sizeof_HeapArrayHeader membersSize) kObjectAlignment.



(** Placement [new] of a record at [data], and the stores into it. *)
Definition construct (data : Z) (r : HeapRecord) : M unit :=
  modify (with_objects (insert data r)).

Definition get_record (data : Z) : M HeapRecord :=
  fun s => match objects s !! data with Some r => Ok r s | None => Undefined end.

Definition CreateObject (i : nat) (answer : Z) (typeInfo : TypeInfo) : M Z :=
  RuntimeAssert (negb (IsArray typeInfo)) "Must not be an array";;
  let allocSize := ObjectAllocatedDataSize typeInfo in
  node ← Producer_Insert i answer allocSize;
  heapObject ← Data node;
  construct heapObject (HeapObjHeader kWhite None);;
  let object := size_add heapObject offsetof_HeapObjHeader_object in
  construct heapObject (HeapObjHeader kWhite (Some typeInfo));;
  mret object.

Definition CreateArray (i : nat) (answer : Z) (typeInfo : TypeInfo) (count : Z) : M Z :=
  RuntimeAssert (IsArray typeInfo) "Must be an array";;
  let allocSize := ArrayAllocatedDataSize typeInfo count in
  node ← Producer_Insert i answer allocSize;
  heapArray ← Data node;
  construct heapArray (HeapArrayHeader kWhite None 0);;
  let array := size_add heapArray offsetof_HeapArrayHeader_array in
  construct heapArray (HeapArrayHeader kWhite (Some typeInfo) 0);;
  construct heapArray (HeapArrayHeader kWhite (Some typeInfo) count);;
  mret array.

Definition ThreadQueue_Publish (i : nat) : M unit := Publish i.

(** *** [NodeRef]; the reference [node_] is the address of the node *)




Definition record_gcData (r : HeapRecord) : Color :=
  match r with HeapObjHeader c _ => c | HeapArrayHeader c _ _ => c end.

Definition record_typeInfo (r : HeapRecord) : option TypeInfo :=
  match r with HeapObjHeader _ t => t | HeapArrayHeader _ t _ => t end.

Definition record_setColor (c : Color) (r : HeapRecord) : HeapRecord :=
  match r with
  | HeapObjHeader _ t => HeapObjHeader c t
  | HeapArrayHeader _ t n => HeapArrayHeader c t n
  end.

(** [GCObjectData().color()] and [GCObjectData().setColor(color)]. *)
Definition NodeRef_color (node_ : Z) : M Color :=
  data ← Data node_; r ← get_record data; mret (record_gcData r).

Definition NodeRef_setColor (node_ : Z) (color : Color) : M unit :=
  data ← Data node_; r ← get_record data; construct data (record_setColor color r).

(** [object->type_info()]; a null descriptor cannot be read. *)
Definition type_info (r : HeapRecord) : M TypeInfo :=
  match record_typeInfo r with Some t => mret t | None => undefined end.

Definition NodeRef_IsArray (node_ : Z) : M bool :=
  data ← Data node_; r ← get_record data; t ← type_info r; mret (IsArray t).

Definition NodeRef_GetObjHeader (node_ : Z) : M Z :=
  data ← Data node_;
  let object := size_add data offsetof_HeapObjHeader_object in
  r ← get_record data; t ← type_info r;
  RuntimeAssert (negb (IsArray t)) "Must not be an array";;
  mret object.

Definition NodeRef_GetArrayHeader (node_ : Z) : M Z :=
  data ← Data node_;
  let array := size_add data offsetof_HeapArrayHeader_array in
  r ← get_record data; t ← type_info r;
  RuntimeAssert (IsArray t) "Must be an array";;
  mret array.

End ObjectFactory.

(** ** What a client observes *)

Section Observations.
Context {T : Target}.

(** The nodes of a queue, as forward iteration from its head finds them. *)
Definition chain (s : State) (root size : Z) : list Z :=
  match iterate (Z.to_nat size) (mkIterator 0 root) s with
  | Ok l _ => l
  | _ => []
  end.

Definition storage_chain (s : State) : list Z :=
  chain s (Storage.root_ (storage s)) (Storage.size_ (storage s)).

Definition producer_chain (s : State) (i : nat) : list Z :=
  match producers s !! i with
  | Some p => chain s (Producer.root_ p) (Producer.size_ p)
  | None => []
  end.

Definition consumer_chain (s : State) (j : nat) : list Z :=
  match consumers s !! j with
  | Some c => chain s (Consumer.root_ c) (Consumer.size_ c)
  | None => []
  end.

End Observations.

Definition registry_program : list Op :=
  [OpNewProducer; OpNewConsumer; OpInsert 0 16 24; OpInsert 0 64 10; OpInsert 0 128 1;
   OpPublish 0; OpInsert 0 256 1; OpLockForIter; OpIncr; OpEraseAndAdvance;
   OpMoveAndAdvance 0; OpUnlock; OpPublish 0].

(** The state in which a call ends. *)
Definition final {A} (o : Outcome A) : State :=
  match o with
  | Ok _ s | Aborted s | AssertionFailed _ s | Blocked s => s
  | Undefined => initial
  end.

Definition publish_program : list Op :=
  [OpNewProducer; OpInsert 0 16 24; OpPublish 0; OpInsert 0 64 10; OpInsert 0 128 1].

Definition sweep_program : list Op :=
  [OpNewProducer; OpNewConsumer; OpInsert 0 16 24; OpInsert 0 64 10; OpInsert 0 128 1;
   OpPublish 0; OpLockForIter; OpIncr].

Definition insert_program : list Op := [OpNewProducer; OpInsert 0 32 1].

(** ** [AvaliableProcessors.cpp] *)

(** The preprocessor branches of the file. *)
Inductive Platform : Type :=
  | KONAN_NO_THREADS
  | KONAN_WINDOWS
  | KONAN_LINUX (cpu_alloc : bool) (* with <sched.h>; [cpu_alloc]: CPU_ALLOC is defined *)
  | OtherPlatform.

(** What the platform answers: [std::thread::hardware_concurrency()], the
    result and the two masks of [GetProcessAffinityMask], the result of the
    n-th call of [sched_setaffinity] for a set size, and the sizes of the
    sets. *)
Record Queries : Type := mkQueries {
  hardware_concurrency : Z;
  GetProcessAffinityMask : Z * Z * Z;
  sched_setaffinity : nat -> Z -> Z;
  sizeof_cpu_set_t : Z;
  CPU_ALLOC_SIZE : Z -> Z
}.

(** [static_cast<int>] of an unsigned value. *)
Definition to_int (z : Z) : Z := (z + 2 ^ 31) mod 2 ^ 32 - 2 ^ 31.

Fixpoint popcount (bits : nat) (z : Z) : Z :=
  match bits with
  | O => 0
  | S bits => Z.b2z (Z.odd z) + popcount bits (Z.div2 z)
  end.

Definition builtin_popcountll (z : Z) : Z := popcount 64 (z mod 2 ^ 64).

Definition TRUE : Z := 1.

Definition MAX_CPUS : Z := Z.shiftl 1 16.

(** A [cpu_set_t] is a set of bits; [CPU_ZERO] clears it. *)
Definition CPU_SETSIZE : nat := 1024.

Definition CPU_ZERO : Z := 0.

Definition CPU_COUNT (set : Z) : Z := popcount CPU_SETSIZE set.

Definition CPU_COUNT_S (set : Z) (cpus : Z) : Z := popcount CPU_SETSIZE set.

Definition availableProcessorsFallback (q : Queries) : Z :=
  let result := to_int (hardware_concurrency q) in
  if result <=? 0 then 1 else result.

(** The loop of the CPU_ALLOC part: [call] counts the calls of
    [sched_setaffinity] made so far.  The set that is counted is the one on
    the stack, cleared by [CPU_ZERO(set)] in the same iteration; the call is
    given the allocated [set_ptr]. *)
Fixpoint affinity_loop (fuel : nat) (q : Queries) (call : nat) (result cpus : Z)
    : option Z :=
  if (result =? -1) && (cpus <=? MAX_CPUS) then
    match fuel with
    | O => None
    | S fuel =>
        let set := CPU_ZERO in
        let result :=
          if sched_setaffinity q call (CPU_ALLOC_SIZE q cpus) =? 0
          then CPU_COUNT_S set cpus else result in
        affinity_loop fuel q (S call) result (cpus * 2)
    end
  else Some result.

(** The Linux branch is read with [retrun] as [return]; the NO_THREADS
    branch is the function spelled [Konan_Platform_availbleProcessors].  In
    the Windows branch the last line applies [*] to [lpSystemAffinityMask],
    which is a [DWORD_PTR], an integer and no pointer: the operand is read
    as the mask itself. *)
Definition Konan_Platform_availableProcessors (p : Platform) (q : Queries)
    : option Z :=
  match p with
  | KONAN_NO_THREADS => Some 1
  | KONAN_WINDOWS =>
      let '(ok, lpProcessAffinityMask, lpSystemAffinityMask) :=
        GetProcessAffinityMask q in
      if negb (ok =? TRUE) then Some (availableProcessorsFallback q)
      else if lpProcessAffinityMask =? 0 then Some (availableProcessorsFallback q)
      else Some (builtin_popcountll lpSystemAffinityMask)
  | KONAN_LINUX cpu_alloc =>
      let set := CPU_ZERO in
      if sched_setaffinity q 0 (sizeof_cpu_set_t q) =? 0 then Some (CPU_COUNT set)
      else if cpu_alloc then
        let cpus := availableProcessorsFallback q in
        result ← affinity_loop 17 q 1 (-1) cpus;
        if negb (result =? -1) then Some result
        else Some (availableProcessorsFallback q)
      else Some (availableProcessorsFallback q)
  | OtherPlatform => Some (availableProcessorsFallback q)
  end.

(** A machine with eight processors where [sched_setaffinity] refuses the
    empty set of the first call and accepts the later ones. *)
Definition linux_queries : Queries :=
  mkQueries 8 (0, 0, 0) (fun call _ => match call with O => -1 | S _ => 0 end)
    128 (fun cpus => (cpus + 63) / 64 * 8).

(** [GetProcessAffinityMask] succeeds: the process may use two of the four
    processors of the system mask; the library counts eight. *)
Definition windows_queries : Queries :=
  mkQueries 8 (1, 5, 15) (fun _ _ => -1) 128 id.

(** ** Moving, merging, clearing and destroying queues *)

Section Lifetime.
Context {T : Target}.

(** The loop of [~Consumer] and of [~ObjectFactoryStorage],
    [for (auto node = std::move(root_); node != nullptr;
          node = std::move(node->next_)) {}]:
    the assignment takes [next_] out of the node and then destroys the node
    that [node] owned, whose [next_] is null by then.  [fuel] bounds the
    number of rounds. *)
Fixpoint destroy_loop (fuel : nat) (node : Z) : M unit :=
  if node =? 0 then mret tt
  else match fuel with
       | O => undefined
       | S fuel' =>
           nx ← get_next node;
           set_next node 0;;
           destroy_unique_ptr node;;
           destroy_loop fuel' nx
       end.

(** [~ObjectFactoryStorage]. *)
Definition Storage_destroy : M unit :=
  st ← get_storage;
  set_storage (Storage.mk 0 (Storage.last_ st) (Storage.size_ st) (Storage.mutex_ st));;
  s ← get; destroy_loop (size (nodes s)) (Storage.root_ st).

(** [~Consumer], of consumer [j] of the state. *)
Definition Consumer_destroy (j : nat) : M unit :=
  c ← get_consumer j;
  set_consumer j (Consumer.mk 0 (Consumer.last_ c) (Consumer.size_ c));;
  s ← get; destroy_loop (size (nodes s)) (Consumer.root_ c).

(** [~Producer]. *)
Definition Producer_destroy (i : nat) : M unit := Publish i.

(** [ObjectFactoryStorage::ClearForTests]; [root_.reset()] destroys the
    first node, and [~Node] the next one before the node is freed. *)
Definition Storage_ClearForTests : M unit :=
  st ← get_storage;
  set_storage (Storage.mk 0 (Storage.last_ st) (Storage.size_ st) (Storage.mutex_ st));;
  destroy_unique_ptr (Storage.root_ st);;
  st ← get_storage;
  set_storage (Storage.mk (Storage.root_ st) 0 (Storage.size_ st) (Storage.mutex_ st));;
  st ← get_storage;
  set_storage (Storage.mk (Storage.root_ st) (Storage.last_ st) 0 (Storage.mutex_ st)).

(** [Producer::ClearForTests]. *)
Definition Producer_ClearForTests (i : nat) : M unit :=
  p ← get_producer i;
  set_producer i (Producer.mk 0 (Producer.last_ p) (Producer.size_ p));;
  destroy_unique_ptr (Producer.root_ p);;
  p ← get_producer i;
  set_producer i (Producer.mk (Producer.root_ p) 0 (Producer.size_ p));;
  p ← get_producer i;
  set_producer i (Producer.mk (Producer.root_ p) (Producer.last_ p) 0).

(** [Consumer(Consumer&& other)] for consumer [k] as [other]; the new
    consumer is the next one of the state. *)
Definition Consumer_move (k : nat) : M nat :=
  j ← Consumer_new;
  other ← get_consumer k;
  this ← get_consumer j;
  set_consumer j (Consumer.mk (Consumer.root_ other) (Consumer.last_ this)
                    (Consumer.size_ this));;
  set_consumer k (Consumer.mk 0 (Consumer.last_ other) (Consumer.size_ other));;
  this ← get_consumer j; other ← get_consumer k;
  set_consumer j (Consumer.mk (Consumer.root_ this) (Consumer.last_ this)
                    (Consumer.size_ other));;
  this ← get_consumer j; other ← get_consumer k;
  set_consumer j (Consumer.mk (Consumer.root_ this) (Consumer.last_ other)
                    (Consumer.size_ this));;
  other ← get_consumer k;
  set_consumer k (Consumer.mk (Consumer.root_ other) (Consumer.last_ other) 0);;
  other ← get_consumer k;
  set_consumer k (Consumer.mk (Consumer.root_ other) 0 (Consumer.size_ other));;
  mret j.

(** [Consumer::operator=(Consumer&& other)] of consumer [j] for consumer [k]
    as [other].  [temp] is a local variable: the move constructor fills it
    from [other], the three [std::swap] exchange it with [*this], and its
    destructor runs when the call returns. *)
Definition Consumer_move_assign (j k : nat) : M unit :=
  other ← get_consumer k;
  let temp := other in
  set_consumer k (Consumer.mk 0 0 0);;
  this ← get_consumer j;
  set_consumer j (Consumer.mk (Consumer.root_ temp) (Consumer.last_ this)
                    (Consumer.size_ this));;
  let temp := Consumer.mk (Consumer.root_ this) (Consumer.last_ temp)
                (Consumer.size_ temp) in
  this ← get_consumer j;
  set_consumer j (Consumer.mk (Consumer.root_ this) (Consumer.last_ this)
                    (Consumer.size_ temp));;
  let temp := Consumer.mk (Consumer.root_ temp) (Consumer.last_ temp)
                (Consumer.size_ this) in
  this ← get_consumer j;
  set_consumer j (Consumer.mk (Consumer.root_ this) (Consumer.last_ temp)
                    (Consumer.size_ this));;
  let temp := Consumer.mk (Consumer.root_ temp) (Consumer.last_ this)
                (Consumer.size_ temp) in
  s ← get; destroy_loop (size (nodes s)) (Consumer.root_ temp).

(** [Consumer::MergeWith(Consumer&& other)] of consumer [j] with consumer
    [k] as [other]. *)
Definition Consumer_MergeWith (j k : nat) : M unit :=
  Consumer_AssertCorrect j;;
  other ← get_consumer k;
  when (negb (Consumer.root_ other =? 0))
    (this ← get_consumer j;
     (if Consumer.root_ this =? 0
      then set_consumer j (Consumer.mk (Consumer.root_ other) (Consumer.last_ this)
                             (Consumer.size_ this))
      else set_next (Consumer.last_ this) (Consumer.root_ other));;
     other ← get_consumer k;
     set_consumer k (Consumer.mk 0 (Consumer.last_ other) (Consumer.size_ other));;
     this ← get_consumer j; other ← get_consumer k;
     set_consumer j (Consumer.mk (Consumer.root_ this) (Consumer.last_ other)
                       (Consumer.size_ this));;
     this ← get_consumer j; other ← get_consumer k;
     set_consumer j (Consumer.mk (Consumer.root_ this) (Consumer.last_ this)
                       (size_add (Consumer.size_ this) (Consumer.size_ other)));;
     other ← get_consumer k;
     set_consumer k (Consumer.mk (Consumer.root_ other) 0 (Consumer.size_ other));;
     other ← get_consumer k;
     set_consumer k (Consumer.mk (Consumer.root_ other) (Consumer.last_ other) 0));;
  Consumer_AssertCorrect j.

Definition Consumer_size (j : nat) : M Z :=
  c ← get_consumer j; mret (Consumer.size_ c).

End Lifetime.

(** The state once the nodes [l] have been freed, in this order. *)
Definition freed {T : Target} (l : list Z) (s : State) : State :=
  mkState (foldl (fun h a => delete a h) (nodes s) l)
    (storage s) (producers s) (consumers s)
    (foldl (fun o a => delete (size_add a DataOffset) o) (objects s) l)
    (trace s ++ map EvFree l).

(** ** Programs over the factory *)

(** The calls of a program on one factory: those on its storage and, on top
    of them, the typed creation of [ThreadQueue], the colour of the collector,
    and the calls on consumers that [FinalizerQueue] hands through. *)
Inductive Call :=
| CallOp (op : Op)
| CallCreateObject (i : nat) (answer : Z) (typeInfo : TypeInfo)
                                         (* thread queue i: CreateObject(typeInfo) *)
| CallCreateArray (i : nat) (answer : Z) (typeInfo : TypeInfo) (count : Z)
| CallSetColor (node : Z) (color : Color) (* NodeRef(node).GCObjectData().setColor(color) *)
| CallMergeWith (j k : nat)               (* consumer j: MergeWith(std::move(consumer k)) *)
| CallMove (k : nat)                      (* Consumer(std::move(consumer k)) *)
| CallMoveAssign (j k : nat)              (* consumer j = std::move(consumer k) *)
| CallClearProducer (i : nat)             (* producer i: ClearForTests() *)
| CallClearStorage.                       (* ClearForTests() *)

Section Programs.
Context {T : Target} {L : ObjectLayout}.

Definition call (c : Call) (cursor : option Iterator) : M (option Iterator) :=
  match c with
  | CallOp op => step op cursor
  | CallCreateObject i answer typeInfo => CreateObject i answer typeInfo;; mret cursor
  | CallCreateArray i answer typeInfo count =>
      CreateArray i answer typeInfo count;; mret cursor
  | CallSetColor node color => NodeRef_setColor node color;; mret cursor
  | CallMergeWith j k => Consumer_MergeWith j k;; mret cursor
  | CallMove k => Consumer_move k;; mret cursor
  | CallMoveAssign j k => Consumer_move_assign j k;; mret cursor
  | CallClearProducer i => Producer_ClearForTests i;; mret cursor
  | CallClearStorage => Storage_ClearForTests;; mret cursor
  end.

Fixpoint exec (calls : list Call) (cursor : option Iterator) : M (option Iterator) :=
  match calls with
  | [] => mret cursor
  | c :: calls' => cursor' ← call c cursor; exec calls' cursor'
  end.

(** Programs that never merge a consumer with itself and never clear the
    storage under a live [Iterable]; [alive] tells whether one is alive
    before the first call. *)
Fixpoint well_used (alive : bool) (calls : list Call) : bool :=
  match calls with
  | [] => true
  | c :: calls' =>
      match c with
      | CallMergeWith j k => negb (j =? k)%nat && well_used alive calls'
      | CallClearStorage => negb alive && well_used alive calls'
      | CallOp OpLockForIter => well_used true calls'
      | CallOp OpUnlock => well_used false calls'
      | _ => well_used alive calls'
      end
  end.

(** Programs that create nodes through [CreateObject] and [CreateArray]
    only, as those on an [ObjectFactory] do. *)
Definition typed (calls : list Call) : bool :=
  forallb (fun c => match c with CallOp (OpInsert _ _ _) => false | _ => true end) calls.

(** All the queues of a state, one after the other. *)
Definition all_chains (s : State) : list Z :=
  storage_chain s
  ++ concat (map (producer_chain s) (seq 0 (length (producers s))))
  ++ concat (map (consumer_chain s) (seq 0 (length (consumers s)))).

(** The data region of [node] holds a record with a type descriptor. *)
Definition has_record (s : State) (node : Z) : Prop :=
  IsAligned (size_add node DataOffset) DataAlignment = true /\
  exists r t, objects s !! size_add node DataOffset = Some r /\
              record_typeInfo r = Some t.

(** [FinalizerQueue::Finalize] of the queue whose [consumer_] is consumer
    [j]: the result lists the objects on which [RunFinalizers] is called, in
    this order.  [ArrayHeader::obj] is the cast that the header describes:
    an [ArrayHeader] can always be cast to an [ObjHeader].  [fuel] bounds the
    number of nodes. *)
Fixpoint Finalize_loop (fuel : nat) (node : Z) : M (list Z) :=
  if node =? 0 then mret []
  else match fuel with
       | O => undefined
       | S fuel' =>
           isArray ← NodeRef_IsArray node;
           object ← (if isArray : bool then NodeRef_GetArrayHeader node
                     else NodeRef_GetObjHeader node);
           nx ← get_next node;
           rest ← Finalize_loop fuel' nx;
           mret (object :: rest)
       end.

Definition Finalize (j : nat) : M (list Z) :=
  c ← get_consumer j;
  s ← get;
  Finalize_loop (size (nodes s)) (Consumer.root_ c).

Definition FinalizerQueue_size (j : nat) : M Z := Consumer_size j.

Definition FinalizerQueue_MergeWith (j k : nat) : M unit := Consumer_MergeWith j k.

End Programs.

(** [keeps_heap m]: when [m] returns, the same nodes are live and the same
    records are in place as before. *)
Definition keeps_heap {A} (m : M A) : Prop :=
  forall s a s', m s = Ok a s' ->
    dom (nodes s') = dom (nodes s) /\ objects s' = objects s.

Section ProgramInvariant.
Context {T : Target}.

(** Every live node is in one of the queues [all]. *)
Definition tight (s : State) (all : list Z) : Prop :=
  forall a, is_Some (nodes s !! a) -> a ∈ all.

(** Every live node carries a record. *)
Definition records_ok (s : State) : Prop :=
  forall a, is_Some (nodes s !! a) -> has_record s a.

(** What every call of a program keeps: the queues are well formed and
    share no node, the iterator of the client stands in the storage, no live
    node is outside the queues and, in a typed program, every node carries a
    record. *)
Definition FInv (ty : bool) (s : State) (cursor : option Iterator) : Prop :=
  exists ls lps lcs,
    Represents s ls lps lcs /\ cursor_ok s ls cursor /\
    tight s (ls ++ concat lps ++ concat lcs) /\
    (ty = true -> records_ok s).

End ProgramInvariant.

Section ProgramObservations.
Context {T : Target} {L : ObjectLayout}.

(** The sum of the [size_] members of all the queues. *)
Definition total_size (s : State) : Z :=
  Storage.size_ (storage s)
  + foldr (fun p n => Producer.size_ p + n) 0 (producers s)
  + foldr (fun c n => Consumer.size_ c + n) 0 (consumers s).

(** The header embedded in the record of [node]: what [GetArrayHeader]
    gives for an array and [GetObjHeader] for another object. *)
Definition header_of (s : State) (node : Z) : Z :=
  let data := size_add node DataOffset in
  match objects s !! data with
  | Some r =>
      match record_typeInfo r with
      | Some t => if IsArray t then size_add data offsetof_HeapArrayHeader_array
                  else size_add data offsetof_HeapObjHeader_object
      | None => 0
      end
  | None => 0
  end.

End ProgramObservations.

(** Three objects of a thread queue, published and swept: the first two go
    to two finalizer queues, the third stays in the storage. *)
Definition factory_program : list Call :=
  [CallOp OpNewProducer; CallOp OpNewConsumer; CallOp OpNewConsumer;
   CallCreateObject 0 4096 (mkTypeInfo 24);
   CallCreateArray 0 8192 (mkTypeInfo (-4)) 10;
   CallCreateObject 0 12288 (mkTypeInfo 16);
   CallOp (OpPublish 0); CallOp OpLockForIter;
   CallOp (OpMoveAndAdvance 0); CallOp (OpMoveAndAdvance 1); CallOp OpUnlock].

(** Three objects of a thread queue, published; the sweep moves the first
    two to one finalizer queue, the third stays in the storage. *)
Definition finalizer_program : list Call :=
  [CallOp OpNewProducer; CallOp OpNewConsumer;
   CallCreateObject 0 4096 (mkTypeInfo 24);
   CallCreateArray 0 8192 (mkTypeInfo (-4)) 10;
   CallCreateObject 0 12288 (mkTypeInfo 16);
   CallOp (OpPublish 0); CallOp OpLockForIter;
   CallOp (OpMoveAndAdvance 0); CallOp (OpMoveAndAdvance 0); CallOp OpUnlock].

(** [n] times [++it]. *)
Fixpoint Iterator_advance {T : Target} (n : nat) (it : Iterator) : M Iterator :=
  match n with
  | O => mret it
  | S n' => it' ← Iterator_incr it; Iterator_advance n' it'
  end.

(** * The theorems *)

(** ** Arithmetic of alignments *)

Lemma land_pred_pos (p : positive) :
  Z.land (Z.pos p) (Z.pos p - 1) = 0 -> exists k, 0 <= k /\ Z.pos p = 2 ^ k.
Proof.
  induction p as [p IH | p IH |]; intros H.
  - exfalso. assert (Hq : Z.land (Z.pos p) (Z.pos p) = 0).
    { apply Z.bits_inj'. intros n Hn. rewrite Z.bits_0.
      assert (Hb : Z.testbit (Z.land (Z.pos p~1) (Z.pos p~1 - 1)) (Z.succ n) = false)
        by (rewrite H; apply Z.bits_0).
      rewrite Z.land_spec in Hb. rewrite Z.land_spec.
      replace (Z.pos p~1 - 1) with (2 * Z.pos p) in Hb by lia.
      replace (Z.pos p~1) with (2 * Z.pos p + 1) in Hb by lia.
      rewrite Z.testbit_even_succ, Z.testbit_odd_succ in Hb by lia. exact Hb. }
    rewrite Z.land_diag in Hq. lia.
  - assert (Hq : Z.land (Z.pos p) (Z.pos p - 1) = 0).
    { apply Z.bits_inj'. intros n Hn. rewrite Z.bits_0.
      assert (Hb : Z.testbit (Z.land (Z.pos p~0) (Z.pos p~0 - 1)) (Z.succ n) = false)
        by (rewrite H; apply Z.bits_0).
      rewrite Z.land_spec in Hb. rewrite Z.land_spec.
      replace (Z.pos p~0) with (2 * Z.pos p) in Hb by lia.
      replace (2 * Z.pos p - 1) with (2 * (Z.pos p - 1) + 1) in Hb by lia.
      rewrite Z.testbit_even_succ, Z.testbit_odd_succ in Hb by lia. exact Hb. }
    destruct (IH Hq) as (k & Hk & Hp). exists (k + 1). split; [lia |].
    rewrite Z.pow_add_r by lia. lia.
  - exists 0. split; [lia | reflexivity].
Qed.

Lemma IsValidAlignment_pow2 (a : Z) :
  IsValidAlignment a = true -> exists k, 0 <= k /\ a = 2 ^ k.
Proof.
  unfold IsValidAlignment. intros H.
  apply andb_true_iff in H as [Hpos Hl].
  apply Z.ltb_lt in Hpos. apply Z.eqb_eq in Hl.
  destruct a as [| p | p]; try lia. now apply land_pred_pos.
Qed.

Lemma pow2_lt_exp (k n : Z) : 0 <= k -> 0 <= n -> 2 ^ k < 2 ^ n -> k < n.
Proof.
  intros Hk Hn H. destruct (Z_lt_le_dec k n) as [|Hle]; [assumption |].
  pose proof (Z.pow_le_mono_r 2 n k ltac:(lia) Hle). lia.
Qed.

Lemma pow2_divide (k n : Z) : 0 <= k <= n -> (2 ^ k | 2 ^ n).
Proof.
  intros H. exists (2 ^ (n - k)). rewrite <- Z.pow_add_r by lia. f_equal. lia.
Qed.

Section LayoutFacts.
Context {T : Target}.

Lemma SIZE_MOD_pos : 0 < size_bits -> 0 < SIZE_MOD.
Proof. intros H. unfold SIZE_MOD. apply Z.pow_pos_nonneg; lia. Qed.

Lemma is_size_t_spec (x : Z) : is_size_t x = true <-> 0 <= x < SIZE_MOD.
Proof. unfold is_size_t. rewrite andb_true_iff, Z.leb_le, Z.ltb_lt. tauto. Qed.

Lemma to_size_t_small (x : Z) : 0 <= x < SIZE_MOD -> to_size_t x = x.
Proof. intros H. unfold to_size_t. now apply Z.mod_small. Qed.

Lemma to_size_t_range (x : Z) : 0 < size_bits -> 0 <= to_size_t x < SIZE_MOD.
Proof. intros H. unfold to_size_t. apply Z.mod_pos_bound. now apply SIZE_MOD_pos. Qed.

(** The mask of [AlignUp] clears the low bits: on a power of two the result
    is the wrapped sum rounded down to a multiple of the alignment. *)
Lemma AlignUp_div (size k : Z) :
  0 < size_bits -> 0 <= k < size_bits ->
  AlignUp size (2 ^ k) = to_size_t (size + (2 ^ k - 1)) / 2 ^ k * 2 ^ k.
Proof.
  intros Hb Hk. unfold AlignUp, size_add, size_sub, size_not.
  assert (Hpk : 0 < 2 ^ k) by (apply Z.pow_pos_nonneg; lia).
  assert (Hlt : 2 ^ k < SIZE_MOD)
    by (unfold SIZE_MOD; apply Z.pow_lt_mono_r; lia).
  rewrite (to_size_t_small (2 ^ k - 1)) by lia.
  set (x := to_size_t (size + (2 ^ k - 1))).
  assert (Hx : 0 <= x < SIZE_MOD) by (apply to_size_t_range; lia).
  replace (2 ^ k - 1) with (Z.ones k) by (rewrite Z.ones_equiv; lia).
  unfold to_size_t, SIZE_MOD.
  rewrite <- (Z.land_ones (Z.lnot (Z.ones k)) size_bits) by lia.
  rewrite (Z.land_comm (Z.lnot _)), Z.land_assoc.
  rewrite (Z.land_ones x) by lia.
  rewrite (Z.mod_small x) by (unfold SIZE_MOD in Hx; lia).
  rewrite <- Z.ldiff_land, Z.ldiff_ones_r by lia.
  rewrite Z.shiftl_mul_pow2, Z.shiftr_div_pow2 by lia. reflexivity.
Qed.

(** Without overflow [AlignUp] is the least multiple of the alignment that is
    not below [size]. *)
Lemma AlignUp_exact (size k : Z) :
  0 < size_bits -> 0 <= k < size_bits ->
  0 <= size -> size + 2 ^ k - 1 < SIZE_MOD ->
  AlignUp size (2 ^ k) = (size + (2 ^ k - 1)) / 2 ^ k * 2 ^ k.
Proof.
  intros Hb Hk H0 Hlt. rewrite AlignUp_div by assumption.
  assert (Hpk : 0 < 2 ^ k) by (apply Z.pow_pos_nonneg; lia).
  rewrite to_size_t_small by lia. reflexivity.
Qed.

Lemma AlignUp_bounds (size k : Z) :
  0 < size_bits -> 0 <= k < size_bits ->
  0 <= size -> size + 2 ^ k - 1 < SIZE_MOD ->
  size <= AlignUp size (2 ^ k) < size + 2 ^ k /\ (2 ^ k | AlignUp size (2 ^ k)).
Proof.
  intros Hb Hk H0 Hlt. rewrite AlignUp_exact by assumption.
  assert (Hpk : 0 < 2 ^ k) by (apply Z.pow_pos_nonneg; lia).
  pose proof (Z.div_mod (size + (2 ^ k - 1)) (2 ^ k) ltac:(lia)) as Hdm.
  pose proof (Z.mod_pos_bound (size + (2 ^ k - 1)) (2 ^ k) Hpk) as Hm.
  split; [lia |]. exists ((size + (2 ^ k - 1)) / 2 ^ k). reflexivity.
Qed.

(** An aligned value is a fixed point. *)
Lemma AlignUp_aligned (size k : Z) :
  0 < size_bits -> 0 <= k < size_bits ->
  0 <= size -> size + 2 ^ k - 1 < SIZE_MOD -> (2 ^ k | size) ->
  AlignUp size (2 ^ k) = size.
Proof.
  intros Hb Hk H0 Hlt [q Hq]. rewrite AlignUp_exact by assumption.
  assert (Hpk : 0 < 2 ^ k) by (apply Z.pow_pos_nonneg; lia).
  subst size. f_equal.
  replace (q * 2 ^ k + (2 ^ k - 1)) with ((2 ^ k - 1) + q * 2 ^ k) by lia.
  rewrite Z.div_add by lia. rewrite Z.div_small by lia. lia.
Qed.

(** Whatever the overflow, the result is a multiple of the alignment inside
    [size_t]. *)
Lemma AlignUp_multiple (size k : Z) :
  0 < size_bits -> 0 <= k < size_bits ->
  (2 ^ k | AlignUp size (2 ^ k)) /\ 0 <= AlignUp size (2 ^ k) < SIZE_MOD.
Proof.
  intros Hb Hk. rewrite AlignUp_div by assumption.
  assert (Hpk : 0 < 2 ^ k) by (apply Z.pow_pos_nonneg; lia).
  pose proof (to_size_t_range (size + (2 ^ k - 1)) Hb) as Hr.
  set (x := to_size_t (size + (2 ^ k - 1))) in *.
  pose proof (Z.div_mod x (2 ^ k) ltac:(lia)) as Hdm.
  pose proof (Z.mod_pos_bound x (2 ^ k) Hpk) as Hm.
  split; [exists (x / 2 ^ k); reflexivity |].
  assert (0 <= x / 2 ^ k) by (apply Z.div_pos; lia). nia.
Qed.

End LayoutFacts.

Section Chains.

Implicit Types (h : gmap Z Z) (l : list Z) (p q a : Z).

Lemma lseg_app h p l1 l2 q :
  lseg h p (l1 ++ l2) q <-> exists m, lseg h p l1 m /\ lseg h m l2 q.
Proof.
  revert p. induction l1 as [| a l1 IH]; intros p; simpl.
  - split; [intros H; exists p; auto | intros (m & -> & H); exact H].
  - split.
    + intros (-> & Ha & nx & Hnx & Hl). apply IH in Hl as (m & H1 & H2).
      exists m. split; [| exact H2]. repeat split; auto. exists nx; auto.
    + intros (m & (-> & Ha & nx & Hnx & H1) & H2).
      repeat split; auto. exists nx. split; [exact Hnx |]. apply IH. exists m; auto.
Qed.

Lemma lseg_snoc h p l a q :
  lseg h p (l ++ [a]) q <-> lseg h p l a /\ a <> 0 /\ h !! a = Some q.
Proof.
  rewrite lseg_app. simpl. split.
  - intros (m & H1 & -> & Ha & nx & Hnx & ->). auto.
  - intros (H1 & Ha & Hq). exists a. split; [exact H1 |].
    repeat split; auto. exists q; auto.
Qed.

Lemma lseg_insert_ne h p l q a v :
  a ∉ l -> lseg h p l q -> lseg (<[a := v]> h) p l q.
Proof.
  revert p. induction l as [| b l IH]; intros p Hn; simpl; [auto |].
  apply not_elem_of_cons in Hn as [Hab Hn].
  intros (-> & Hb & nx & Hnx & Hl). repeat split; auto.
  exists nx. rewrite lookup_insert_ne by congruence. auto.
Qed.

Lemma lseg_delete_ne h p l q a :
  a ∉ l -> lseg h p l q -> lseg (delete a h) p l q.
Proof.
  revert p. induction l as [| b l IH]; intros p Hn; simpl; [auto |].
  apply not_elem_of_cons in Hn as [Hab Hn].
  intros (-> & Hb & nx & Hnx & Hl). repeat split; auto.
  exists nx. rewrite lookup_delete_ne by congruence. auto.
Qed.

Lemma lseg_live h p l q a : lseg h p l q -> a ∈ l -> a <> 0 /\ is_Some (h !! a).
Proof.
  revert p. induction l as [| b l IH]; intros p H Ha; [by apply elem_of_nil in Ha |].
  destruct H as (-> & Hb & nx & Hnx & Hl).
  apply elem_of_cons in Ha as [-> | Ha]; [split; [auto | eauto] | eauto].
Qed.

Lemma lseg_head h p l q : lseg h p l q -> p = default q (head l).
Proof. destruct l; simpl; [auto | tauto]. Qed.

Lemma lseg_null_nil h l : lseg h 0 l 0 -> l = [].
Proof. destruct l; simpl; [auto | intros (<- & Ha & _); congruence]. Qed.

Lemma is_queue_nil h : is_queue h 0 0 0 [].
Proof. repeat split. Qed.

Lemma is_queue_insert_ne h root last size l a v :
  a ∉ l -> is_queue h root last size l -> is_queue (<[a := v]> h) root last size l.
Proof. intros Hn (H1 & H2 & H3). split; [by apply lseg_insert_ne | auto]. Qed.

Lemma is_queue_delete_ne h root last size l a :
  a ∉ l -> is_queue h root last size l -> is_queue (delete a h) root last size l.
Proof. intros Hn (H1 & H2 & H3). split; [by apply lseg_delete_ne | auto]. Qed.

(** The three fields of an empty queue. *)
Lemma is_queue_empty h root last size :
  is_queue h root last size [] -> root = 0 /\ last = 0 /\ size = 0.
Proof. intros (H1 & H2 & H3). simpl in *. auto. Qed.

(** The fields of a queue that is not empty: [last] is the final node and
    its [next_] is null. *)
Lemma is_queue_snoc h root last size l a :
  is_queue h root last size (l ++ [a]) ->
  root <> 0 /\ root = default a (head l) /\ last = a /\ a <> 0 /\
  h !! a = Some 0 /\ lseg h root l a /\ size = Z.of_nat (length l) + 1.
Proof.
  intros (H1 & H2 & H3). apply lseg_snoc in H1 as (H1 & Ha & Hnx).
  rewrite last_snoc in H2. simpl in H2. rewrite length_app in H3. simpl in H3.
  pose proof (lseg_head _ _ _ _ H1) as Hh.
  repeat split; auto; try lia.
  destruct l as [| b l]; simpl in *; [congruence |].
  destruct H1 as (-> & Hb & _). subst; auto.
Qed.

Lemma is_queue_root_null h root last size l :
  is_queue h root last size l -> (root = 0 <-> l = []).
Proof.
  intros H. destruct l as [| a l _] using rev_ind.
  - apply is_queue_empty in H. tauto.
  - apply is_queue_snoc in H. split; [tauto |]. intros Hl.
    by apply app_nil in Hl as [_ ?].
Qed.

(** The invariant the claims speak of, on the three fields alone. *)
Lemma is_queue_fields h root last size l :
  is_queue h root last size l ->
  (root = 0 <-> last = 0) /\ (last = 0 <-> size = 0) /\
  (root <> 0 -> h !! last = Some 0).
Proof.
  intros H. destruct l as [| a l _] using rev_ind.
  - apply is_queue_empty in H as (-> & -> & ->). tauto.
  - apply is_queue_snoc in H as (Hr & _ & -> & Ha & Hnx & _ & ->).
    repeat split; intros; try lia; try tauto.
Qed.

Lemma lseg_agree h h' p l q :
  (forall a, a ∈ l -> h' !! a = h !! a) -> lseg h p l q -> lseg h' p l q.
Proof.
  revert p. induction l as [| b l IH]; intros p Hag; simpl; [auto |].
  intros (-> & Hb & nx & Hnx & Hl). repeat split; auto.
  exists nx. split.
  - rewrite Hag; [exact Hnx | apply elem_of_cons; auto].
  - apply IH; [| exact Hl]. intros a Ha. apply Hag, elem_of_cons; auto.
Qed.

Lemma is_queue_agree h h' root last size l :
  (forall a, a ∈ l -> h' !! a = h !! a) ->
  is_queue h root last size l -> is_queue h' root last size l.
Proof. intros Hag (H1 & H2 & H3). split; [by eapply lseg_agree | auto]. Qed.

Lemma is_queue_live h root last size l a :
  is_queue h root last size l -> a ∈ l -> a <> 0 /\ is_Some (h !! a).
Proof. intros (H1 & _) Ha. by eapply lseg_live. Qed.

Lemma is_queue_fresh h root last size l a :
  is_queue h root last size l -> h !! a = None -> a ∉ l.
Proof.
  intros H Hn Ha. destruct (is_queue_live _ _ _ _ _ _ H Ha) as [_ [v Hv]]. congruence.
Qed.

(** Appending a node whose [next_] is null: [Producer::Insert] and
    [Consumer::Insert] on an empty queue ... *)
Lemma is_queue_push_empty h x :
  x <> 0 -> h !! x = Some 0 -> is_queue h x x 1 [x].
Proof.
  intros Hx Hnx. repeat split; auto. exists 0. split; [exact Hnx | reflexivity].
Qed.

(** ... and on one that has a last node. *)
Lemma is_queue_push h root last size l x :
  is_queue h root last size l -> l <> [] -> NoDup l -> x ∉ l -> x <> 0 ->
  h !! x = Some 0 ->
  is_queue (<[last := x]> h) root x (size + 1) (l ++ [x]).
Proof.
  intros H Hne Hnd Hx Hx0 Hnx.
  destruct l as [| b l _] using rev_ind; [done |]. clear Hne.
  apply is_queue_snoc in H as (Hr & _ & -> & Hb & Hbn & Hl & ->).
  apply NoDup_app in Hnd as (_ & Hd & _).
  apply not_elem_of_app in Hx as [Hxl Hxb].
  apply not_elem_of_cons in Hxb as [Hxb _].
  split; [| split].
  - apply lseg_snoc. split; [| split; [exact Hx0 |]].
    + apply lseg_snoc. split; [| split; [exact Hb | apply lookup_insert_eq]].
      apply lseg_insert_ne; [| exact Hl]. intros Hin. apply (Hd b Hin). set_solver.
    + rewrite lookup_insert_ne by congruence. exact Hnx.
  - by rewrite last_snoc.
  - rewrite !length_app. simpl. lia.
Qed.

(** [Publish]: the chain of the producer goes behind the last node of the
    storage. *)
Lemma is_queue_append h root1 last1 size1 l1 root2 last2 size2 l2 :
  is_queue h root1 last1 size1 l1 -> is_queue h root2 last2 size2 l2 ->
  l1 <> [] -> l2 <> [] -> NoDup (l1 ++ l2) ->
  is_queue (<[last1 := root2]> h) root1 last2 (size1 + size2) (l1 ++ l2).
Proof.
  intros H1 H2 Hne1 Hne2 Hnd.
  destruct l1 as [| b l1 _] using rev_ind; [done |]. clear Hne1.
  apply is_queue_snoc in H1 as (Hr & _ & -> & Hb & Hbn & Hl & ->).
  destruct H2 as (Hl2 & -> & ->).
  rewrite <- app_assoc in Hnd. apply NoDup_app in Hnd as (_ & Hd1 & Hnd2).
  simpl in Hnd2. apply NoDup_cons in Hnd2 as [Hb2 _].
  split; [| split].
  - apply lseg_app. exists root2. split.
    + apply lseg_snoc. split; [| split; [exact Hb | apply lookup_insert_eq]].
      apply lseg_insert_ne; [| exact Hl]. intros Hin. apply (Hd1 b Hin). simpl. apply elem_of_cons; auto.
    + apply lseg_insert_ne; assumption.
  - rewrite last_app. destruct (list.last l2) eqn:E; [reflexivity |].
    apply last_None in E. contradiction.
  - rewrite !length_app. simpl. lia.
Qed.

(** [ExtractUnsafe] on the root ... *)
Lemma is_queue_pop_root h root last size n l2 :
  is_queue h root last size (n :: l2) -> n ∉ l2 ->
  root = n /\ exists nx, h !! n = Some nx /\ nx = default 0 (head l2) /\
    is_queue (<[n := 0]> h) nx (if nx =? 0 then 0 else last) (size - 1) l2.
Proof.
  intros ((-> & Hn & nx & Hnx & Hl) & -> & ->) Hnl. split; [reflexivity |].
  exists nx. split; [exact Hnx |].
  pose proof (lseg_head _ _ _ _ Hl) as Hh. split; [exact Hh |].
  split; [by apply lseg_insert_ne | split].
  - destruct l2 as [| b l2]; simpl in *.
    + subst nx. reflexivity.
    + destruct Hl as (-> & Hb & _). apply Z.eqb_neq in Hb. rewrite Hb.
      reflexivity.
  - simpl length. lia.
Qed.

(** ... and behind [prev]. *)
Lemma is_queue_unlink h root last size l1 prev n l2 :
  is_queue h root last size (l1 ++ prev :: n :: l2) ->
  NoDup (l1 ++ prev :: n :: l2) ->
  h !! prev = Some n /\ exists nx, h !! n = Some nx /\ nx = default 0 (head l2) /\
    is_queue (<[prev := nx]> (<[n := 0]> (<[prev := 0]> h))) root
      (if nx =? 0 then prev else last) (size - 1) (l1 ++ prev :: l2).
Proof.
  intros (Hl & -> & ->) Hnd.
  apply lseg_app in Hl as (m & Hl1 & (-> & Hp & pn & Hpn & (-> & Hn & nx & Hnx & Hl2))).
  apply NoDup_app in Hnd as (_ & Hd1 & Hnd).
  apply NoDup_cons in Hnd as [Hp2 Hnd]. apply NoDup_cons in Hnd as [Hn2 _].
  apply not_elem_of_cons in Hp2 as [Hpn2 Hp2].
  split; [exact Hpn |]. exists nx. split; [exact Hnx |].
  pose proof (lseg_head _ _ _ _ Hl2) as Hh. split; [exact Hh |].
  split; [| split].
  - apply lseg_app. exists prev. split.
    + apply (lseg_agree h); [| exact Hl1]. intros a Ha.
      assert (a <> prev) by (intros ->; apply (Hd1 prev Ha), elem_of_cons; auto).
      assert (a <> n) by (intros ->; apply (Hd1 n Ha); rewrite !elem_of_cons; auto).
      by rewrite !lookup_insert_ne by congruence.
    + simpl. repeat split; auto. exists nx. split; [apply lookup_insert_eq |].
      apply (lseg_agree h); [| exact Hl2]. intros a Ha.
      assert (a <> prev) by (intros ->; contradiction).
      assert (a <> n) by (intros ->; contradiction).
      by rewrite !lookup_insert_ne by congruence.
  - rewrite !last_app. simpl. destruct l2 as [| b l2]; simpl in *.
    + subst nx. reflexivity.
    + destruct Hl2 as (-> & Hb & _). apply Z.eqb_neq in Hb. rewrite Hb.
      rewrite !last_cons. destruct (list.last l2); reflexivity.
  - rewrite !length_app. simpl. lia.
Qed.

End Chains.

(** ** Lists of chains *)

Lemma list_insert_middle {A} (l1 l2 : list A) (x y : A) :
  <[length l1 := y]> (l1 ++ x :: l2) = l1 ++ y :: l2.
Proof. induction l1 as [| a l1 IH]; simpl; [reflexivity | by rewrite IH]. Qed.

Lemma lookup_split {A} (l : list A) (i : nat) (x : A) :
  l !! i = Some x -> exists l1 l2, l = l1 ++ x :: l2 /\ length l1 = i.
Proof.
  intros H. exists (take i l), (drop (S i) l). split.
  - symmetry. by apply take_drop_middle.
  - apply length_take_le. apply lookup_lt_Some in H. lia.
Qed.

(** A list without duplicates inside an interval is no longer than the
    interval. *)
Lemma NoDup_range_length (l : list Z) (m : Z) :
  0 < m -> NoDup l -> (forall a, a ∈ l -> 0 < a < m) -> Z.of_nat (length l) < m.
Proof.
  intros Hm Hnd Hr.
  assert (Hsub : l ⊆+ seqZ 1 (m - 1)).
  { apply NoDup_submseteq; [exact Hnd |]. intros a Ha.
    apply elem_of_seqZ. specialize (Hr a Ha). lia. }
  apply submseteq_length in Hsub. rewrite length_seqZ in Hsub.
  lia.
Qed.

(** A family of queues stays what it is when the heap changes outside of
    it. *)
Lemma Forall2_frame {Q} (R : gmap Z Z -> Q -> list Z -> Prop) h h' qs lss :
  (forall q l, R h q l -> (forall a, a ∈ l -> a ∈ concat lss) -> R h' q l) ->
  Forall2 (R h) qs lss -> Forall2 (R h') qs lss.
Proof.
  intros HR H. induction H as [| q l qs lss Hq H IH]; constructor.
  - apply HR; [exact Hq |]. intros a Ha. simpl. apply elem_of_app; auto.
  - apply IH. intros q' l' Hq' Hin. apply HR; [exact Hq' |].
    intros a Ha. simpl. apply elem_of_app; auto.
Qed.

(** ** Running a computation in a proof *)

Arguments size_add : simpl never.

Arguments size_sub : simpl never.

Arguments AlignUp : simpl never.

Arguments DataOffset : simpl never.

Arguments GetSizeAndAlignmentForDataSize : simpl never.

Arguments IsAligned : simpl never.

Arguments is_size_t : simpl never.

Arguments Create : simpl never.

Arguments assert_correct : simpl never.

(** Unfolds the monad and the primitive accesses, so that a call on a state
    given by its fields computes as far as the lookups allow. *)
Ltac unfold_M :=
  unfold mbind, M_bind, bind, mret, M_ret, ret, get, modify, emit, when,
    RuntimeAssert, consoleErrorf, abort, undefined, get_storage, set_storage,
    get_producer, set_producer, get_consumer, set_consumer, get_next, set_next,
    with_nodes, with_storage, with_producers, with_consumers, with_objects,
    with_trace.

Ltac run := repeat (progress (unfold_M; cbn)).

Ltac nodup_norm :=
  rewrite ?concat_app, ?concat_cons, ?NoDup_app, ?NoDup_cons, ?NoDup_app,
    ?NoDup_cons, ?NoDup_app, ?NoDup_cons.

Ltac nodup_norm_in H :=
  rewrite ?concat_app, ?concat_cons, ?NoDup_app, ?NoDup_cons, ?NoDup_app,
    ?NoDup_cons, ?NoDup_app, ?NoDup_cons in H.

Lemma Forall2_concat_elem {Q} (R : Q -> list Z -> Prop) (P : Z -> Prop) qs lss :
  (forall q l a, R q l -> a ∈ l -> P a) ->
  Forall2 R qs lss -> forall a, a ∈ concat lss -> P a.
Proof.
  intros HR H. induction H as [| q l qs lss Hq H IH]; intros a Ha; simpl in Ha.
  - by apply elem_of_nil in Ha.
  - apply elem_of_app in Ha as [Ha | Ha]; eauto.
Qed.

(** The heap after some updates agrees with the heap before on every node
    that is told apart from the updated ones by the hypotheses. *)
Ltac solve_agree :=
  let a := fresh "a" in
  let Ha := fresh "Ha" in
  intros a Ha;
  repeat (first [rewrite lookup_insert_ne | rewrite lookup_delete_ne];
          [| intros ->; set_solver]);
  reflexivity.

(** Lists of nodes without duplicates, as the operations rearrange them. *)
Lemma NoDup_push_producer (ls lp : list Z) (A B lcs : list (list Z)) (x : Z) :
  NoDup (ls ++ concat (A ++ lp :: B) ++ concat lcs) ->
  x ∉ ls ++ concat (A ++ lp :: B) ++ concat lcs ->
  NoDup (ls ++ concat (A ++ (lp ++ [x]) :: B) ++ concat lcs).
Proof.
  intros H Hx.
  assert (Hp : ls ++ concat (A ++ (lp ++ [x]) :: B) ++ concat lcs
               ≡ₚ x :: (ls ++ concat (A ++ lp :: B) ++ concat lcs)).
  { rewrite !concat_app, !concat_cons. solve_Permutation. }
  rewrite Hp. by apply NoDup_cons.
Qed.

Lemma NoDup_push_consumer (ls lc : list Z) (lps A B : list (list Z)) (x : Z) :
  NoDup (ls ++ concat lps ++ concat (A ++ lc :: B)) ->
  x ∉ ls ++ concat lps ++ concat (A ++ lc :: B) ->
  NoDup (ls ++ concat lps ++ concat (A ++ (lc ++ [x]) :: B)).
Proof.
  intros H Hx.
  assert (Hp : ls ++ concat lps ++ concat (A ++ (lc ++ [x]) :: B)
               ≡ₚ x :: (ls ++ concat lps ++ concat (A ++ lc :: B))).
  { rewrite !concat_app, !concat_cons. solve_Permutation. }
  rewrite Hp. by apply NoDup_cons.
Qed.

Lemma NoDup_publish (ls lp : list Z) (A B lcs : list (list Z)) :
  NoDup (ls ++ concat (A ++ lp :: B) ++ concat lcs) ->
  NoDup ((ls ++ lp) ++ concat (A ++ [] :: B) ++ concat lcs).
Proof.
  intros H.
  assert (Hp : (ls ++ lp) ++ concat (A ++ [] :: B) ++ concat lcs
               ≡ₚ ls ++ concat (A ++ lp :: B) ++ concat lcs).
  { rewrite !concat_app, !concat_cons. solve_Permutation. }
  by rewrite Hp.
Qed.

Lemma NoDup_extract (l1 l2 rest : list Z) (n : Z) :
  NoDup ((l1 ++ n :: l2) ++ rest) ->
  NoDup ((l1 ++ l2) ++ rest) /\ n ∉ (l1 ++ l2) ++ rest.
Proof.
  intros H.
  assert (Hp : (l1 ++ n :: l2) ++ rest ≡ₚ n :: ((l1 ++ l2) ++ rest)).
  { solve_Permutation. }
  rewrite Hp in H. apply NoDup_cons in H. tauto.
Qed.

Lemma NoDup_app_ne (l k : list Z) (a b : Z) :
  NoDup (l ++ k) -> a ∈ l -> b ∈ k -> a <> b.
Proof. intros H Hl Hk ->. apply NoDup_app in H as (_ & H & _). exact (H b Hl Hk). Qed.

Ltac solve_elem := rewrite ?elem_of_app, ?elem_of_cons; auto 10.

(** As [solve_agree], for updated nodes that lie in the first part of a list
    without duplicates and unchanged ones in its second part. *)
Ltac solve_agree_with Hnd :=
  let a := fresh "a" in
  let Ha := fresh "Ha" in
  intros a Ha;
  repeat (first [rewrite lookup_insert_ne | rewrite lookup_delete_ne];
          [| eapply (NoDup_app_ne _ _ _ _ Hnd); solve_elem]);
  reflexivity.

(** ** The state as lists of nodes *)

Section RefinementLemmas.
Context {T : Target}.

Lemma Create_ok s h answer dataSize :
  nodes s = h ->
  (size_add DataOffset dataSize <=? (GetSizeAndAlignmentForDataSize dataSize).1) = true ->
  answer <> 0 -> is_size_t answer = true -> h !! answer = None ->
  IsAligned answer (GetSizeAndAlignmentForDataSize dataSize).2 = true ->
  Create answer dataSize s =
  Ok answer
    (with_nodes (insert answer 0)
       (with_trace (fun t => t ++ [EvAlloc (GetSizeAndAlignmentForDataSize dataSize).1
                                     (GetSizeAndAlignmentForDataSize dataSize).2 answer]) s)).
Proof.
  intros <- Hfit Hnz Hsz Hfresh Hal. unfold Create.
  destruct (GetSizeAndAlignmentForDataSize dataSize) as [totalSize totalAlignment].
  simpl in Hfit, Hal. unfold Alloc. run.
  rewrite Hfit. run. rewrite Hsz, (bool_decide_eq_true_2 _ Hfresh).
  apply Z.eqb_neq in Hnz. rewrite Hnz. run. rewrite Hnz, Hal. reflexivity.
Qed.

Lemma assert_correct_ok s h root last size l :
  nodes s = h -> is_queue h root last size l -> assert_correct root last s = Ok tt s.
Proof.
  intros <- H. unfold assert_correct. destruct l as [| a l _] using rev_ind.
  - apply is_queue_empty in H as (-> & -> & ->). reflexivity.
  - apply is_queue_snoc in H as (Hr & _ & -> & Ha & Hnx & _).
    apply Z.eqb_neq in Hr, Ha. rewrite Hr. run.
    rewrite Ha. run. rewrite Hnx. reflexivity.
Qed.

(** Every node of a queue is live and has a proper address. *)
Lemma Represents_elem s ls lps lcs a :
  Represents s ls lps lcs -> a ∈ ls ++ concat lps ++ concat lcs ->
  a <> 0 /\ is_Some (nodes s !! a) /\ 0 < a < SIZE_MOD.
Proof.
  intros [Hst Hps Hcs Hnd Hrg] Ha.
  assert (Hlive : a <> 0 /\ is_Some (nodes s !! a)).
  { rewrite !elem_of_app in Ha. destruct Ha as [Ha | [Ha | Ha]].
    - by eapply is_queue_live.
    - revert a Ha. eapply Forall2_concat_elem; [| exact Hps].
      intros q l a Hq Ha. by eapply is_queue_live.
    - revert a Ha. eapply Forall2_concat_elem; [| exact Hcs].
      intros q l a Hq Ha. by eapply is_queue_live. }
  destruct Hlive as [H0 [v Hv]]. repeat split; eauto; by apply (Hrg a v Hv).
Qed.

Lemma Represents_fresh s ls lps lcs a :
  Represents s ls lps lcs -> nodes s !! a = None ->
  a ∉ ls ++ concat lps ++ concat lcs.
Proof.
  intros HR Hn Ha. destruct (Represents_elem _ _ _ _ _ HR Ha) as (_ & [v Hv] & _).
  congruence.
Qed.

(** No counter can wrap: the nodes are pairwise distinct addresses. *)
Lemma Represents_length s ls lps lcs :
  0 < size_bits -> Represents s ls lps lcs ->
  Z.of_nat (length (ls ++ concat lps ++ concat lcs)) < SIZE_MOD.
Proof.
  intros Hb HR. apply NoDup_range_length.
  - by apply SIZE_MOD_pos.
  - apply HR.
  - intros a Ha. by eapply Represents_elem.
Qed.

Lemma size_add_small (a b : Z) : 0 <= a + b < SIZE_MOD -> size_add a b = a + b.
Proof. apply to_size_t_small. Qed.

Lemma size_sub_small (a b : Z) : 0 <= a - b < SIZE_MOD -> size_sub a b = a - b.
Proof. apply to_size_t_small. Qed.

Lemma target_ok_bits : target_ok = true -> 0 < size_bits.
Proof.
  unfold target_ok. rewrite !andb_true_iff, Z.ltb_lt. tauto.
Qed.

(** The heap may change anywhere outside the queues. *)
Lemma Represents_agree s s' ls lps lcs :
  Represents s ls lps lcs ->
  (forall a, a ∈ ls ++ concat lps ++ concat lcs -> nodes s' !! a = nodes s !! a) ->
  storage s' = storage s -> producers s' = producers s -> consumers s' = consumers s ->
  map_Forall (fun a _ => 0 < a < SIZE_MOD) (nodes s') ->
  Represents s' ls lps lcs.
Proof.
  intros [Hst Hps Hcs Hnd Hrg] Hag Hs Hp Hc Hrg'.
  split; [| | | exact Hnd | exact Hrg'].
  - unfold storage_rep. rewrite Hs. eapply is_queue_agree; [| exact Hst].
    intros a Ha. apply Hag. rewrite elem_of_app. auto.
  - rewrite Hp. eapply Forall2_frame; [| exact Hps]. intros q l Hq Hin.
    eapply is_queue_agree; [| exact Hq]. intros a Ha. apply Hag.
    rewrite !elem_of_app. auto.
  - rewrite Hc. eapply Forall2_frame; [| exact Hcs]. intros q l Hq Hin.
    eapply is_queue_agree; [| exact Hq]. intros a Ha. apply Hag.
    rewrite !elem_of_app. auto.
Qed.

Lemma producers_frame h h' (ps : list Producer.t) lss :
  (forall a, a ∈ concat lss -> h' !! a = h !! a) ->
  Forall2 (producer_rep h) ps lss -> Forall2 (producer_rep h') ps lss.
Proof.
  intros Hag. apply Forall2_frame. intros q l Hq Hin.
  eapply is_queue_agree; [| exact Hq]. auto.
Qed.

Lemma consumers_frame h h' (cs : list Consumer.t) lss :
  (forall a, a ∈ concat lss -> h' !! a = h !! a) ->
  Forall2 (consumer_rep h) cs lss -> Forall2 (consumer_rep h') cs lss.
Proof.
  intros Hag. apply Forall2_frame. intros q l Hq Hin.
  eapply is_queue_agree; [| exact Hq]. auto.
Qed.

Lemma Producer_Insert_spec s ls lps lcs i lp answer dataSize :
  target_ok = true ->
  Represents s ls lps lcs ->
  lps !! i = Some lp ->
  (size_add DataOffset dataSize <=? (GetSizeAndAlignmentForDataSize dataSize).1) = true ->
  answer <> 0 -> is_size_t answer = true -> nodes s !! answer = None ->
  IsAligned answer (GetSizeAndAlignmentForDataSize dataSize).2 = true ->
  exists s', Producer_Insert i answer dataSize s = Ok answer s' /\
    Represents s' ls (<[i := lp ++ [answer]]> lps) lcs /\
    nodes s' !! answer = Some 0 /\
    storage s' = storage s /\ consumers s' = consumers s /\ objects s' = objects s /\
    length (producers s') = length (producers s) /\
    trace s' = trace s ++ [EvAlloc (GetSizeAndAlignmentForDataSize dataSize).1
                             (GetSizeAndAlignmentForDataSize dataSize).2 answer].
Proof.
  intros HT HR Hi Hfit Hnz Hsz Hfresh Hal.
  pose proof (target_ok_bits HT) as Hbits.
  pose proof (Represents_fresh _ _ _ _ _ HR Hfresh) as Hnew.
  apply is_size_t_spec in Hsz.
  assert (Hlen : Z.of_nat (length (answer :: ls ++ concat lps ++ concat lcs)) < SIZE_MOD).
  { apply NoDup_range_length; [by apply SIZE_MOD_pos | |].
    - apply NoDup_cons. split; [exact Hnew | apply HR].
    - intros a [-> | Ha]%elem_of_cons; [lia | by eapply Represents_elem]. }
  destruct HR as [Hst Hps Hcs Hnd Hrg].
  apply lookup_split in Hi as (A & B & -> & HlenA).
  apply Forall2_app_inv_r in Hps as (PA & PB' & HPA & HPB & Hprod).
  apply Forall2_cons_inv_r in HPB as (p & PB & Hp & HPB & ->).
  assert (i = length PA) as -> by (apply Forall2_length in HPA; lia).
  replace (<[length PA := lp ++ [answer]]> (A ++ lp :: B))
    with (A ++ (lp ++ [answer]) :: B)
    by (rewrite <- HlenA; symmetry; apply list_insert_middle).
  destruct s as [h st ps cs objs tr]. cbn [nodes storage producers consumers objects trace] in *.
  subst ps. destruct p as [root last size]. unfold producer_rep in Hp. cbn in Hp.
  pose proof Hnd as Hnd0. pose proof Hnew as Hnew0.
  nodup_norm_in Hnd. revert Hlen. cbn [length].
  rewrite ?concat_app, ?concat_cons, !length_app. intros Hlen.
  rewrite ?concat_app, ?concat_cons, !elem_of_app in Hnew.
  unfold Producer_Insert, Producer_AssertCorrect.
  run. rewrite list_lookup_middle by reflexivity. run.
  erewrite assert_correct_ok by (reflexivity || exact Hp).
  erewrite Create_ok by (reflexivity || eassumption || by apply is_size_t_spec).
  run. rewrite !list_lookup_middle by reflexivity. run.
  assert (Hrg1 : map_Forall (fun a _ => 0 < a < SIZE_MOD) (<[answer := 0]> h))
    by (apply map_Forall_insert_2; [lia | exact Hrg]).
  assert (Hx : <[answer := 0]> h !! answer = Some 0) by apply lookup_insert_eq.
  apply Z.eqb_neq in Hnz as Hnz'.
  destruct lp as [| x l0 _] using rev_ind.
  - apply is_queue_empty in Hp as (-> & -> & ->). run.
    repeat (rewrite ?list_insert_middle, ?list_lookup_middle by reflexivity; run).
    rewrite Hnz'. run.
    repeat (rewrite ?list_insert_middle, ?list_lookup_middle by reflexivity; run).
    assert (Hq : is_queue (<[answer := 0]> h) answer answer (size_add 0 1) [answer]).
    { rewrite size_add_small by (clear -Hlen Hbits; lia). by apply is_queue_push_empty. }

    erewrite assert_correct_ok by (reflexivity || exact Hq).
    eexists. split; [reflexivity |]. cbn.
    split; [| repeat split; auto; rewrite !length_app; reflexivity ].
    split; cbn.
    + eapply is_queue_agree; [| exact Hst]. solve_agree.
    + apply Forall2_app; [| constructor];
        [eapply producers_frame; [| exact HPA] | exact Hq
        | eapply producers_frame; [| exact HPB]]; solve_agree.
    + eapply consumers_frame; [| exact Hcs]. solve_agree.
    + by apply (NoDup_push_producer ls []).
    + exact Hrg1.
  - apply is_queue_snoc in Hp as Hp'. destruct Hp' as (Hr & _ & -> & Hx0 & Hxn & _ & ->).
    apply Z.eqb_neq in Hr as Hr'. rewrite Hr'. run.
    assert (Hxa : x <> answer) by (intros ->; congruence).
    rewrite (lookup_insert_ne h answer x) by congruence. rewrite Hxn. run.
    repeat (rewrite ?list_insert_middle, ?list_lookup_middle by reflexivity; run).
    rewrite Hr'. run.
    repeat (rewrite ?list_insert_middle, ?list_lookup_middle by reflexivity; run).
    assert (Hq : is_queue (<[x := answer]> (<[answer := 0]> h)) root answer
                   (size_add (Z.of_nat (length l0) + 1) 1) ((l0 ++ [x]) ++ [answer])).
    { rewrite size_add_small by (clear -Hlen Hbits; rewrite length_app in Hlen; cbn [length] in Hlen; lia).
      apply is_queue_push; [| by destruct l0 | apply Hnd | | exact Hnz | exact Hx].
      - eapply is_queue_agree; [| exact Hp]. solve_agree.
      - intros Hin. apply Hnew. auto. }

    erewrite assert_correct_ok by (reflexivity || exact Hq).
    eexists. split; [reflexivity |]. cbn.
    split; [| repeat split; auto;
              [rewrite lookup_insert_ne by congruence; exact Hx | rewrite !length_app; reflexivity]].
    split; cbn.
    + eapply is_queue_agree; [| exact Hst]. solve_agree.
    + apply Forall2_app; [| constructor];
        [eapply producers_frame; [| exact HPA] | exact Hq
        | eapply producers_frame; [| exact HPB]]; solve_agree.
    + eapply consumers_frame; [| exact Hcs]. solve_agree.
    + by apply NoDup_push_producer.
    + apply map_Forall_insert_2; [| exact Hrg1].
      apply (Hrg x 0 Hxn).
Qed.

(** *** [Publish] *)

Lemma Publish_empty s ls lps lcs i :
  Represents s ls lps lcs -> lps !! i = Some [] -> Publish i s = Ok tt s.
Proof.
  intros [Hst Hps Hcs Hnd Hrg] Hi.
  destruct (Forall2_lookup_r _ _ _ _ _ Hps Hi) as (p & Hpi & Hp).
  destruct p as [root last size].
  apply is_queue_empty in Hp as Hp'. cbn in Hp'. destruct Hp' as (-> & -> & ->).
  unfold Publish, Producer_AssertCorrect. run. rewrite Hpi. run.
  erewrite assert_correct_ok by (reflexivity || exact Hp). run.
  rewrite Hpi. reflexivity.
Qed.

Lemma Publish_blocked s ls lps lcs i lp :
  Represents s ls lps lcs -> lps !! i = Some lp -> lp <> [] ->
  Storage.mutex_ (storage s) = true -> Publish i s = Blocked s.
Proof.
  intros [Hst Hps Hcs Hnd Hrg] Hi Hne Hm.
  destruct (Forall2_lookup_r _ _ _ _ _ Hps Hi) as (p & Hpi & Hp).
  destruct p as [root last size].
  assert (Hr : root <> 0).
  { intros ->. apply Hne, (is_queue_root_null _ _ _ _ _ Hp). reflexivity. }
  apply Z.eqb_neq in Hr.
  unfold Publish, Producer_AssertCorrect. run. rewrite Hpi. run.
  erewrite assert_correct_ok by (reflexivity || exact Hp). run.
  rewrite Hpi. run. rewrite Hr. unfold lock. rewrite Hm. reflexivity.
Qed.

Lemma Publish_spec s ls lps lcs i lp :
  target_ok = true ->
  Represents s ls lps lcs -> lps !! i = Some lp -> lp <> [] ->
  Storage.mutex_ (storage s) = false ->
  exists s', Publish i s = Ok tt s' /\
    Represents s' (ls ++ lp) (<[i := []]> lps) lcs /\
    producers s' !! i = Some (Producer.mk 0 0 0) /\
    Storage.mutex_ (storage s') = false /\
    consumers s' = consumers s /\ objects s' = objects s /\
    length (producers s') = length (producers s) /\
    trace s' = trace s ++ [EvLock; EvUnlock].
Proof.
  intros HT HR Hi Hne Hm.
  pose proof (target_ok_bits HT) as Hbits.
  pose proof (Represents_length _ _ _ _ Hbits HR) as Hlen.
  destruct HR as [Hst Hps Hcs Hnd Hrg].
  apply lookup_split in Hi as (A & B & -> & HlenA).
  apply Forall2_app_inv_r in Hps as (PA & PB' & HPA & HPB & Hprod).
  apply Forall2_cons_inv_r in HPB as (p & PB & Hp & HPB & ->).
  assert (i = length PA) as -> by (apply Forall2_length in HPA; lia).
  replace (<[length PA := []]> (A ++ lp :: B)) with (A ++ [] :: B)
    by (rewrite <- HlenA; symmetry; apply list_insert_middle).
  destruct s as [h st ps cs objs tr]. cbn [nodes storage producers consumers objects trace] in *.
  subst ps. destruct p as [root last size]. destruct st as [sroot slast ssize smutex].
  unfold producer_rep in Hp. unfold storage_rep in Hst. cbn in Hp, Hst, Hm. subst smutex.
  pose proof Hnd as Hnd0. nodup_norm_in Hnd.
  revert Hlen. rewrite ?concat_app, ?concat_cons, !length_app. intros Hlen.
  assert (Hr : root <> 0).
  { intros ->. apply Hne, (is_queue_root_null _ _ _ _ _ Hp). reflexivity. }
  apply Z.eqb_neq in Hr as Hr'.
  unfold Publish, Producer_AssertCorrect, AssertCorrectUnsafe, lock, unlock.
  run. rewrite list_lookup_middle by reflexivity. run.
  erewrite assert_correct_ok by (reflexivity || exact Hp). run.
  rewrite list_lookup_middle by reflexivity. run. rewrite Hr'. run.
  erewrite assert_correct_ok by (reflexivity || exact Hst). run.
  destruct ls as [| y ls0 _] using rev_ind.
  - apply is_queue_empty in Hst as (-> & -> & ->). run.
    repeat (rewrite ?list_insert_middle, ?list_lookup_middle by reflexivity; run).
    erewrite (assert_correct_ok _ _ 0 0) by (reflexivity || apply is_queue_nil).
    run. rewrite Hr'. run.
    assert (Hq : is_queue h root last (size_add 0 size) lp).
    { destruct Hp as (H1 & H2 & H3). rewrite size_add_small by lia. done. }
    erewrite assert_correct_ok by (reflexivity || exact Hq).
    eexists. split; [reflexivity |]. cbn.
    split; [| repeat split; auto;
              [by rewrite list_lookup_middle | rewrite !length_app; reflexivity
              | by rewrite <- app_assoc]].
    split; cbn.
    + exact Hq.
    + apply Forall2_app; [exact HPA | constructor; [apply is_queue_nil | exact HPB]].
    + exact Hcs.
    + by apply (NoDup_publish []).
    + exact Hrg.
  - apply is_queue_snoc in Hst as Hst'.
    destruct Hst' as (Hsr & _ & -> & Hy0 & Hyn & _ & ->).
    apply Z.eqb_neq in Hsr as Hsr'. rewrite Hsr'. run. rewrite Hyn. run.
    repeat (rewrite ?list_insert_middle, ?list_lookup_middle by reflexivity; run).
    erewrite (assert_correct_ok _ _ 0 0) by (reflexivity || apply is_queue_nil).
    run. rewrite Hsr'. run.
    assert (Hq : is_queue (<[y := root]> h) sroot last
                   (size_add (Z.of_nat (length ls0) + 1) size) ((ls0 ++ [y]) ++ lp)).
    { destruct Hp as (H1 & H2 & H3).
      rewrite size_add_small by (rewrite length_app in Hlen; cbn [length] in Hlen; lia).
      apply is_queue_append; [exact Hst | done | by destruct ls0 | exact Hne |].
      apply NoDup_publish in Hnd0. apply NoDup_app in Hnd0. tauto. }
    erewrite assert_correct_ok by (reflexivity || exact Hq).
    eexists. split; [reflexivity |]. cbn.
    split; [| repeat split; auto;
              [by rewrite list_lookup_middle | rewrite !length_app; reflexivity
              | by rewrite <- app_assoc]].
    split; cbn.
    + exact Hq.
    + apply Forall2_app; [| constructor];
        [eapply producers_frame; [| exact HPA] | apply is_queue_nil
        | eapply producers_frame; [| exact HPB]]; solve_agree.
    + eapply consumers_frame; [| exact Hcs]. solve_agree.
    + by apply NoDup_publish.
    + apply map_Forall_insert_2; [| exact Hrg]. apply (Hrg y 0 Hyn).
Qed.

(** *** [ExtractUnsafe] and the operations on it *)

Lemma ExtractUnsafe_spec s l1 n l2 lps lcs :
  target_ok = true ->
  Represents s (l1 ++ n :: l2) lps lcs ->
  exists s', ExtractUnsafe (default 0 (last l1)) s = Ok (n, default 0 (head l2)) s' /\
    Represents s' (l1 ++ l2) lps lcs /\
    nodes s' !! n = Some 0 /\
    (n ∉ (l1 ++ l2) ++ concat lps ++ concat lcs) /\
    n <> 0 /\
    Storage.mutex_ (storage s') = Storage.mutex_ (storage s) /\
    producers s' = producers s /\ consumers s' = consumers s /\
    objects s' = objects s /\ trace s' = trace s.
Proof.
  intros HT HR.
  pose proof (target_ok_bits HT) as Hbits.
  pose proof (Represents_length _ _ _ _ Hbits HR) as Hlen.
  assert (Hn0 : n <> 0).
  { eapply (Represents_elem _ _ _ _ n HR). rewrite !elem_of_app, elem_of_cons. auto. }
  destruct HR as [Hst Hps Hcs Hnd Hrg].
  destruct (NoDup_extract _ _ _ _ Hnd) as [Hnd' Hnew].
  destruct s as [h st ps cs objs tr]. cbn [nodes storage producers consumers objects trace] in *.
  destruct st as [sroot slast ssize smutex].
  unfold storage_rep in Hst. cbn in Hst.
  assert (Hsr : sroot <> 0).
  { intros ->. pose proof (proj1 (is_queue_root_null _ _ _ _ _ Hst) eq_refl) as Hx.
    by destruct l1. }
  assert (Hsize : ssize = Z.of_nat (length (l1 ++ n :: l2))) by apply Hst.
  assert (Hsub : size_sub ssize 1 = ssize - 1).
  { apply size_sub_small. rewrite !length_app in *. cbn [length] in *. lia. }
  apply Z.eqb_neq in Hsr as Hsr'.
  unfold ExtractUnsafe, AssertCorrectUnsafe. run. rewrite Hsr'. run.
  erewrite assert_correct_ok by (reflexivity || exact Hst). run.
  assert (HndS : NoDup (l1 ++ n :: l2)) by (apply NoDup_app in Hnd; tauto).
  destruct l1 as [| prev l1' _] using rev_ind.
  - cbn [app] in Hst, HndS. run.
    apply is_queue_pop_root in Hst as (-> & nx & Hnx & Hnxh & Hq);
      [| by apply NoDup_cons in HndS as [? _]].
    run. repeat (rewrite Hnx; run).
    assert (Hq' : is_queue (<[n := 0]> h) nx (if nx =? 0 then 0 else slast) (ssize - 1) l2)
      by exact Hq.
    destruct (nx =? 0) eqn:Enx; run; rewrite Hsub.
    + erewrite assert_correct_ok by (reflexivity || exact Hq'). run.
      eexists. split; [rewrite <- Hnxh; reflexivity |]. cbn.
      split; [| repeat split; [apply lookup_insert_eq | exact Hnew | exact Hn0]].
      split; cbn;
        [exact Hq' | eapply producers_frame; [| exact Hps]; solve_agree_with Hnd
        | eapply consumers_frame; [| exact Hcs]; solve_agree_with Hnd | exact Hnd'
        | apply map_Forall_insert_2; [apply (Hrg n nx Hnx) | exact Hrg]].
    + erewrite assert_correct_ok by (reflexivity || exact Hq'). run.
      eexists. split; [rewrite <- Hnxh; reflexivity |]. cbn.
      split; [| repeat split; [apply lookup_insert_eq | exact Hnew | exact Hn0]].
      split; cbn;
        [exact Hq' | eapply producers_frame; [| exact Hps]; solve_agree_with Hnd
        | eapply consumers_frame; [| exact Hcs]; solve_agree_with Hnd | exact Hnd'
        | apply map_Forall_insert_2; [apply (Hrg n nx Hnx) | exact Hrg]].
  - rewrite last_snoc. run.
    rewrite <- app_assoc in Hst, HndS. cbn [app] in Hst, HndS.
    destruct (is_queue_unlink _ _ _ _ _ _ _ _ Hst HndS) as (Hpn & nx & Hnx & Hnxh & Hq).
    assert (Hp0 : prev <> 0).
    { destruct Hst as (Hl & _). apply lseg_app in Hl as (m & _ & (_ & H0 & _)). exact H0. }
    assert (Hpn' : prev <> n).
    { intros ->. apply NoDup_app in HndS as (_ & _ & H2). apply NoDup_cons in H2 as [H2 _].
      apply H2, elem_of_cons. auto. }
    apply Z.eqb_neq in Hp0 as Hp0'. rewrite Hp0'. run.
    repeat (first [rewrite lookup_insert_eq | rewrite lookup_insert_ne by congruence
                  | rewrite Hpn | rewrite Hnx]; run).
    assert (Hq' : is_queue (<[prev := nx]> (<[n := 0]> (<[prev := 0]> h))) sroot
                    (if nx =? 0 then prev else slast) (ssize - 1) ((l1' ++ [prev]) ++ l2))
      by (rewrite <- app_assoc; exact Hq).
    assert (Hrg' : map_Forall (fun a _ => 0 < a < SIZE_MOD)
                     (<[prev := nx]> (<[n := 0]> (<[prev := 0]> h)))).
    { repeat apply map_Forall_insert_2; auto;
        [apply (Hrg prev n Hpn) | apply (Hrg n nx Hnx) | apply (Hrg prev n Hpn)]. }
    assert (Hfin : <[prev := nx]> (<[n := 0]> (<[prev := 0]> h)) !! n = Some 0)
      by (rewrite lookup_insert_ne, lookup_insert_eq by congruence; reflexivity).
    destruct (nx =? 0) eqn:Enx; run; rewrite Hsub.
    + erewrite assert_correct_ok by (reflexivity || exact Hq'). run.
      repeat (rewrite lookup_insert_eq; run).
      eexists. split; [rewrite <- Hnxh; reflexivity |]. cbn.
      split; [| repeat split; [exact Hfin | exact Hnew | exact Hn0]].
      split; cbn;
        [exact Hq' | eapply producers_frame; [| exact Hps]; solve_agree_with Hnd
        | eapply consumers_frame; [| exact Hcs]; solve_agree_with Hnd | exact Hnd'
        | exact Hrg'].
    + erewrite assert_correct_ok by (reflexivity || exact Hq'). run.
      repeat (rewrite lookup_insert_eq; run).
      eexists. split; [rewrite <- Hnxh; reflexivity |]. cbn.
      split; [| repeat split; [exact Hfin | exact Hnew | exact Hn0]].
      split; cbn;
        [exact Hq' | eapply producers_frame; [| exact Hps]; solve_agree_with Hnd
        | eapply consumers_frame; [| exact Hcs]; solve_agree_with Hnd | exact Hnd'
        | exact Hrg'].
Qed.

Lemma Consumer_Insert_spec s ls lps lcs j lc x :
  target_ok = true ->
  Represents s ls lps lcs -> lcs !! j = Some lc ->
  nodes s !! x = Some 0 -> x ∉ ls ++ concat lps ++ concat lcs ->
  exists s', Consumer_Insert j x s = Ok tt s' /\
    Represents s' ls lps (<[j := lc ++ [x]]> lcs) /\
    nodes s' !! x = Some 0 /\
    storage s' = storage s /\ producers s' = producers s /\
    objects s' = objects s /\ trace s' = trace s /\
    length (consumers s') = length (consumers s).
Proof.
  intros HT HR Hj Hx Hnew.
  pose proof (target_ok_bits HT) as Hbits.
  assert (Hxr : 0 < x < SIZE_MOD) by (apply (rep_range _ _ _ _ HR x 0 Hx)).
  assert (Hx0 : x <> 0) by lia.
  assert (Hlen : Z.of_nat (length (x :: ls ++ concat lps ++ concat lcs)) < SIZE_MOD).
  { apply NoDup_range_length; [by apply SIZE_MOD_pos | |].
    - apply NoDup_cons. split; [exact Hnew | apply HR].
    - intros a [-> | Ha]%elem_of_cons; [lia | by eapply Represents_elem]. }
  destruct HR as [Hst Hps Hcs Hnd Hrg].
  apply lookup_split in Hj as (A & B & -> & HlenA).
  apply Forall2_app_inv_r in Hcs as (CA & CB' & HCA & HCB & Hcons).
  apply Forall2_cons_inv_r in HCB as (c & CB & Hc & HCB & ->).
  assert (j = length CA) as -> by (apply Forall2_length in HCA; lia).
  replace (<[length CA := lc ++ [x]]> (A ++ lc :: B)) with (A ++ (lc ++ [x]) :: B)
    by (rewrite <- HlenA; symmetry; apply list_insert_middle).
  destruct s as [h st ps cs objs tr]. cbn [nodes storage producers consumers objects trace] in *.
  subst cs. destruct c as [root last size]. unfold consumer_rep in Hc. cbn in Hc.
  assert (Hnd2 : NoDup (lc ++ (ls ++ concat lps ++ concat A ++ concat B))).
  { revert Hnd. rewrite !concat_app, !concat_cons. intros Hnd.
    eapply NoDup_Permutation_proper; [| exact Hnd]. solve_Permutation. }
  assert (HxA : x ∉ lc).
  { intros Hin. apply Hnew. rewrite !concat_app, !concat_cons. solve_elem. }
  revert Hlen. cbn [length]. rewrite ?concat_app, ?concat_cons, !length_app. intros Hlen.
  unfold Consumer_Insert, Consumer_AssertCorrect.
  run. rewrite list_lookup_middle by reflexivity. run.
  erewrite assert_correct_ok by (reflexivity || exact Hc). run.
  rewrite !list_lookup_middle by reflexivity. run.
  destruct lc as [| y l0 _] using rev_ind.
  - apply is_queue_empty in Hc as (-> & -> & ->). run.
    repeat (rewrite ?list_insert_middle, ?list_lookup_middle by reflexivity; run).
    assert (Hq : is_queue h x x (size_add 0 1) [x]).
    { rewrite size_add_small by (clear -Hlen Hbits; lia). by apply is_queue_push_empty. }
    erewrite assert_correct_ok by (reflexivity || exact Hq).
    eexists. split; [reflexivity |]. cbn.
    split; [| repeat split; [exact Hx | rewrite !length_app; reflexivity]].
    split; cbn; [exact Hst | exact Hps | | by apply (NoDup_push_consumer ls []) | exact Hrg].
    apply Forall2_app; [exact HCA | constructor; [exact Hq | exact HCB]].
  - apply is_queue_snoc in Hc as Hc'. destruct Hc' as (Hr & _ & -> & Hy0 & Hyn & _ & ->).
    apply Z.eqb_neq in Hr as Hr'. rewrite Hr'. run. rewrite Hyn. run.
    repeat (rewrite ?list_insert_middle, ?list_lookup_middle by reflexivity; run).
    assert (Hyx : y <> x) by (intros ->; apply HxA; solve_elem).
    assert (Hq : is_queue (<[y := x]> h) root x
                   (size_add (Z.of_nat (length l0) + 1) 1) ((l0 ++ [y]) ++ [x])).
    { rewrite size_add_small
        by (clear -Hlen Hbits; rewrite length_app in Hlen; cbn [length] in Hlen; lia).
      apply is_queue_push; [exact Hc | by destruct l0 | | exact HxA | exact Hx0 | exact Hx].
      apply NoDup_app in Hnd2. tauto. }
    erewrite assert_correct_ok by (reflexivity || exact Hq).
    eexists. split; [reflexivity |]. cbn.
    split; [| repeat split;
              [rewrite lookup_insert_ne by congruence; exact Hx
              | rewrite !length_app; reflexivity]].
    split; cbn.
    + eapply is_queue_agree; [| exact Hst]. solve_agree_with Hnd2.
    + eapply producers_frame; [| exact Hps]. solve_agree_with Hnd2.
    + apply Forall2_app; [| constructor];
        [eapply consumers_frame; [| exact HCA] | exact Hq
        | eapply consumers_frame; [| exact HCB]]; solve_agree_with Hnd2.
    + by apply NoDup_push_consumer.
    + apply map_Forall_insert_2; [apply (Hrg y 0 Hyn) | exact Hrg].
Qed.

Lemma destroy_null fuel s : destroy fuel 0 s = Ok tt s.
Proof. destruct fuel; reflexivity. Qed.

(** Destroying a node that is in no queue and has no successor frees it and
    nothing else. *)
Lemma destroy_unique_ptr_spec s ls lps lcs n :
  Represents s ls lps lcs ->
  nodes s !! n = Some 0 -> n <> 0 -> n ∉ ls ++ concat lps ++ concat lcs ->
  exists s', destroy_unique_ptr n s = Ok tt s' /\
    Represents s' ls lps lcs /\
    nodes s' = delete n (nodes s) /\
    storage s' = storage s /\ producers s' = producers s /\
    consumers s' = consumers s /\
    objects s' = delete (size_add n DataOffset) (objects s) /\
    trace s' = trace s ++ [EvFree n].
Proof.
  intros HR Hn Hn0 Hnew.
  destruct s as [h st ps cs objs tr]. cbn [nodes storage producers consumers objects trace] in *.
  apply Z.eqb_neq in Hn0 as Hn0'.
  unfold destroy_unique_ptr. run. rewrite Hn0'. unfold Free. run.
  repeat (rewrite Hn; run). rewrite destroy_null. run.
  repeat (rewrite Hn; run).
  eexists. split; [reflexivity |]. cbn.
  split; [| repeat split].
  eapply Represents_agree; [exact HR | | reflexivity | reflexivity | reflexivity |].
  - cbn. intros a Ha. rewrite lookup_delete_ne; [reflexivity |]. intros ->. contradiction.
  - cbn. apply map_Forall_delete. apply HR.
Qed.

Lemma EraseAndAdvance_spec s l1 n l2 lps lcs it :
  target_ok = true ->
  Represents s (l1 ++ n :: l2) lps lcs ->
  previousNode_ it = default 0 (last l1) ->
  exists s', EraseAndAdvance it s
             = Ok (mkIterator (previousNode_ it) (default 0 (head l2))) s' /\
    Represents s' (l1 ++ l2) lps lcs /\
    nodes s' !! n = None /\
    Storage.mutex_ (storage s') = Storage.mutex_ (storage s) /\
    producers s' = producers s /\ consumers s' = consumers s /\
    objects s' = delete (size_add n DataOffset) (objects s) /\
    trace s' = trace s ++ [EvFree n].
Proof.
  intros HT HR Hprev.
  destruct (ExtractUnsafe_spec _ _ _ _ _ _ HT HR)
    as (s1 & Hex & HR1 & Hn1 & Hnew & Hn0 & Hm1 & Hp1 & Hc1 & Ho1 & Ht1).
  destruct (destroy_unique_ptr_spec _ _ _ _ _ HR1 Hn1 Hn0 Hnew)
    as (s2 & Hde & HR2 & Hh2 & Hs2 & Hp2 & Hc2 & Ho2 & Ht2).
  destruct it as [prev node]. cbn in Hprev. subst prev.
  exists s2. unfold EraseAndAdvance. run. rewrite Hex. run. rewrite Hde. run.
  split; [reflexivity |].
  split; [exact HR2 |].
  repeat split; try congruence.
  rewrite Hh2. apply lookup_delete_eq.
Qed.

Lemma MoveAndAdvance_spec s l1 n l2 lps lcs j lc it :
  target_ok = true ->
  Represents s (l1 ++ n :: l2) lps lcs ->
  lcs !! j = Some lc ->
  previousNode_ it = default 0 (last l1) ->
  exists s', MoveAndAdvance j it s
             = Ok (mkIterator (previousNode_ it) (default 0 (head l2))) s' /\
    Represents s' (l1 ++ l2) lps (<[j := lc ++ [n]]> lcs) /\
    nodes s' !! n = Some 0 /\
    Storage.mutex_ (storage s') = Storage.mutex_ (storage s) /\
    producers s' = producers s /\
    length (consumers s') = length (consumers s) /\
    objects s' = objects s /\ trace s' = trace s.
Proof.
  intros HT HR Hj Hprev.
  destruct (ExtractUnsafe_spec _ _ _ _ _ _ HT HR)
    as (s1 & Hex & HR1 & Hn1 & Hnew & Hn0 & Hm1 & Hp1 & Hc1 & Ho1 & Ht1).
  destruct (Consumer_Insert_spec _ _ _ _ _ _ _ HT HR1 Hj Hn1 Hnew)
    as (s2 & Hin & HR2 & Hn2 & Hs2 & Hp2 & Ho2 & Ht2 & Hl2).
  destruct it as [prev node]. cbn in Hprev. subst prev.
  exists s2. unfold MoveAndAdvance. run. rewrite Hex. run. rewrite Hin. run.
  split; [reflexivity |].
  split; [exact HR2 |].
  repeat split; try congruence.
Qed.

(** [++it] on an iterator that stands on the node [n] of the storage. *)
Lemma Iterator_incr_spec s l1 n l2 lps lcs it :
  Represents s (l1 ++ n :: l2) lps lcs -> node_ it = n ->
  Iterator_incr it s = Ok (mkIterator n (default 0 (head l2))) s.
Proof.
  intros [Hst _ _ _ _] <-. destruct Hst as (Hl & _).
  apply lseg_app in Hl as (m & _ & (_ & _ & nx & Hnx & Hl2)).
  apply lseg_head in Hl2. unfold Iterator_incr. run. rewrite Hnx. run.
  by rewrite Hl2.
Qed.

(** Forward iteration over a chain visits its nodes, in order. *)
Lemma iterate_lseg h p l (s : State) prev fuel :
  nodes s = h -> lseg h p l 0 -> (length l <= fuel)%nat ->
  iterate fuel (mkIterator prev p) s = Ok l s.
Proof.
  intros <-. revert p l prev. induction fuel as [| fuel IH]; intros p l prev Hl Hf.
  - destruct l; [| simpl in Hf; lia]. simpl in Hl. subst p. reflexivity.
  - destruct l as [| a l].
    + simpl in Hl. subst p. reflexivity.
    + destruct Hl as (-> & Ha & nx & Hnx & Hl). apply Z.eqb_neq in Ha.
      cbn [iterate node_]. rewrite Ha. unfold Iterator_incr. run. rewrite Hnx. run.
      rewrite (IH nx l a Hl) by (simpl in Hf; lia). reflexivity.
Qed.

(** *** When a call returns *)

(** All the ways [Node::Create] can end. *)
Lemma Create_cases answer dataSize s :
  Create answer dataSize s =
  let sz := GetSizeAndAlignmentForDataSize dataSize in
  let s1 := with_trace (fun t => t ++ [EvAlloc sz.1 sz.2 answer]) s in
  if negb (size_add DataOffset dataSize <=? sz.1)
  then AssertionFailed "totalSize %zu is not enough to fit data %zu at offset %zu" s
  else if negb ((answer =? 0) || (is_size_t answer && bool_decide (nodes s !! answer = None)))
  then Undefined
  else if answer =? 0
  then Aborted (with_trace
                  (fun t => t ++ [EvConsoleErrorf
                     "Out of memory trying to allocate %zu bytes. Aborting.\n" [sz.1]]) s1)
  else if negb (IsAligned answer sz.2)
  then AssertionFailed "Allocator returned unaligned to %zu pointer %p" s1
  else Ok answer (with_nodes (insert answer 0) s1).
Proof.
  unfold Create. destruct (GetSizeAndAlignmentForDataSize dataSize) as [totalSize totalAlignment].
  cbn [fst snd]. unfold Alloc. run.
  destruct (size_add DataOffset dataSize <=? totalSize); run; [| reflexivity].
  destruct ((answer =? 0) || (is_size_t answer && bool_decide (nodes s !! answer = None)));
    run; [| reflexivity].
  destruct (answer =? 0); run; [reflexivity |].
  destruct (IsAligned answer totalAlignment); reflexivity.
Qed.

(** The parts of the state that [Represents] reads. *)
Lemma Represents_ext s s' ls lps lcs :
  Represents s ls lps lcs ->
  nodes s' = nodes s ->
  Storage.root_ (storage s') = Storage.root_ (storage s) ->
  Storage.last_ (storage s') = Storage.last_ (storage s) ->
  Storage.size_ (storage s') = Storage.size_ (storage s) ->
  producers s' = producers s -> consumers s' = consumers s ->
  Represents s' ls lps lcs.
Proof.
  intros [Hst Hps Hcs Hnd Hrg] Hn Hr Hl Hs Hp Hc.
  split; unfold storage_rep; rewrite ?Hn, ?Hr, ?Hl, ?Hs, ?Hp, ?Hc; assumption.
Qed.

Lemma Represents_null s ls lps lcs : Represents s ls lps lcs -> nodes s !! 0 = None.
Proof.
  intros HR. destruct (nodes s !! 0) as [v |] eqn:E; [| reflexivity].
  pose proof (rep_range _ _ _ _ HR 0 v E) as H. simpl in H. lia.
Qed.

Lemma Represents_producer s ls lps lcs i :
  Represents s ls lps lcs ->
  match producers s !! i, lps !! i with
  | Some p, Some lp => producer_rep (nodes s) p lp
  | None, None => True
  | _, _ => False
  end.
Proof.
  intros HR. pose proof (rep_producers _ _ _ _ HR) as H.
  destruct (producers s !! i) as [p |] eqn:E1.
  - destruct (Forall2_lookup_l _ _ _ _ _ H E1) as (lp & -> & Hp). exact Hp.
  - destruct (lps !! i) as [lp |] eqn:E2; [| exact I].
    destruct (Forall2_lookup_r _ _ _ _ _ H E2) as (p & Hp & _). congruence.
Qed.

Lemma Represents_consumer s ls lps lcs j :
  Represents s ls lps lcs ->
  match consumers s !! j, lcs !! j with
  | Some c, Some lc => consumer_rep (nodes s) c lc
  | None, None => True
  | _, _ => False
  end.
Proof.
  intros HR. pose proof (rep_consumers _ _ _ _ HR) as H.
  destruct (consumers s !! j) as [c |] eqn:E1.
  - destruct (Forall2_lookup_l _ _ _ _ _ H E1) as (lc & -> & Hc). exact Hc.
  - destruct (lcs !! j) as [lc |] eqn:E2; [| exact I].
    destruct (Forall2_lookup_r _ _ _ _ _ H E2) as (c & Hc & _). congruence.
Qed.

(** When [Producer::Insert] returns, the producer exists, the size fitted and
    the allocator gave a fresh aligned block. *)
Lemma Producer_Insert_Ok s ls lps lcs i answer dataSize r s' :
  Represents s ls lps lcs ->
  Producer_Insert i answer dataSize s = Ok r s' ->
  is_Some (lps !! i) /\
  (size_add DataOffset dataSize <=? (GetSizeAndAlignmentForDataSize dataSize).1) = true /\
  answer <> 0 /\ is_size_t answer = true /\ nodes s !! answer = None /\
  IsAligned answer (GetSizeAndAlignmentForDataSize dataSize).2 = true.
Proof.
  intros HR. pose proof (Represents_producer _ _ _ _ i HR) as Hi.
  unfold Producer_Insert, Producer_AssertCorrect. run.
  destruct (producers s !! i) as [p |] eqn:Ep; [| discriminate].
  destruct (lps !! i) as [lp |] eqn:El; [| contradiction]. run.
  erewrite assert_correct_ok by (reflexivity || exact Hi).
  rewrite Create_cases. cbn zeta.
  destruct (size_add DataOffset dataSize <=? _) eqn:Hfit; [| discriminate]. cbn [negb].
  destruct (answer =? 0) eqn:Hz.
  { cbn [orb negb]. discriminate. }
  cbn [orb]. destruct (is_size_t answer) eqn:Hsz; [| discriminate]. cbn [andb].
  case_bool_decide as Hfresh; [| discriminate]. cbn [negb].
  destruct (IsAligned answer _) eqn:Hal; [| discriminate].
  intros _. apply Z.eqb_neq in Hz. eauto 10.
Qed.

End RefinementLemmas.

Section ClientLemmas.
Context {T : Target}.

Lemma is_queue_wf s root last size l :
  is_queue (nodes s) root last size l -> NoDup l -> queue_wf s root last size.
Proof.
  intros Hq Hnd. destruct (is_queue_fields _ _ _ _ _ Hq) as (H1 & H2 & H3).
  repeat split; try tauto.
  exists l. destruct Hq as (Hl & _ & ->). rewrite Nat2Z.id.
  split; [by eapply iterate_lseg | auto].
Qed.

Lemma Inv_WellFormed s cursor : Inv s cursor -> WellFormed s.
Proof.
  intros (ls & lps & lcs & HR & _). eapply is_queue_wf; [apply HR |].
  pose proof (rep_nodup _ _ _ _ HR) as H. apply NoDup_app in H. tauto.
Qed.

Lemma Inv_initial : Inv initial None.
Proof.
  exists [], [], []. split; [| reflexivity].
  split; cbn; [apply is_queue_nil | constructor | constructor | constructor |].
  apply map_Forall_empty.
Qed.

End ClientLemmas.

Lemma bind_not_Ok {A B} (m : M A) (f : A -> M B) s :
  (forall a s', m s <> Ok a s') -> forall b s', (m ≫= f) s <> Ok b s'.
Proof.
  intros H b s'. unfold mbind, M_bind, bind. destruct (m s) eqn:E; try discriminate.
  by destruct (H a s0).
Qed.

Lemma bind_Ok {A B} (m : M A) (f : A -> M B) s a s' :
  m s = Ok a s' -> (m ≫= f) s = f a s'.
Proof. intros H. unfold mbind, M_bind, bind. by rewrite H. Qed.

Lemma bind_Ok_inv {A B} (m : M A) (f : A -> M B) s b s' :
  (m ≫= f) s = Ok b s' -> exists a s1, m s = Ok a s1 /\ f a s1 = Ok b s'.
Proof.
  unfold mbind, M_bind, bind. destruct (m s) eqn:E; try discriminate. eauto.
Qed.

Section ClientFacts.
Context {T : Target}.

(** [ExtractUnsafe] behind the last node, or on an empty storage, does not
    return. *)
Lemma ExtractUnsafe_end s ls lps lcs r s' :
  Represents s ls lps lcs -> ExtractUnsafe (default 0 (last ls)) s <> Ok r s'.
Proof.
  intros HR. pose proof (Represents_null _ _ _ _ HR) as H0.
  destruct HR as [Hst _ _ _ _].
  destruct s as [h st ps cs objs tr]. cbn [nodes storage] in *.
  destruct st as [sroot slast ssize smutex]. unfold storage_rep in Hst. cbn in Hst.
  unfold ExtractUnsafe, AssertCorrectUnsafe.
  destruct ls as [| y l0 _] using rev_ind.
  - apply is_queue_empty in Hst as (-> & -> & ->). run. discriminate.
  - rewrite last_snoc. apply is_queue_snoc in Hst as Hst'.
    destruct Hst' as (Hr & _ & -> & Hy0 & Hyn & _ & ->).
    apply Z.eqb_neq in Hr, Hy0. run. rewrite Hr. run.
    erewrite assert_correct_ok by (reflexivity || exact Hst). run.
    rewrite Hy0. run. repeat (rewrite Hyn; run).
    apply Z.eqb_neq in Hy0. rewrite lookup_insert_ne by congruence. rewrite H0.
    discriminate.
Qed.

Lemma step_NewProducer s cursor cursor' s' :
  Inv s cursor -> step OpNewProducer cursor s = Ok cursor' s' -> Inv s' cursor'.
Proof.
  intros (ls & lps & lcs & HR & Hc) H.
  assert (cursor' = cursor /\ s' = with_producers (fun ps => ps ++ [Producer.mk 0 0 0]) s)
    as [-> ->] by (destruct cursor; cbn in H; inversion H; auto).
  exists ls, (lps ++ [[]]), lcs. split; [| destruct cursor; exact Hc].
  destruct HR as [Hst Hps Hcs Hnd Hrg]. split; cbn; auto.
  - apply Forall2_app; [exact Hps | constructor; [apply is_queue_nil | constructor]].
  - rewrite concat_app. cbn. by rewrite !app_nil_r.
Qed.

Lemma step_NewConsumer s cursor cursor' s' :
  Inv s cursor -> step OpNewConsumer cursor s = Ok cursor' s' -> Inv s' cursor'.
Proof.
  intros (ls & lps & lcs & HR & Hc) H.
  assert (cursor' = cursor /\ s' = with_consumers (fun cs => cs ++ [Consumer.mk 0 0 0]) s)
    as [-> ->] by (destruct cursor; cbn in H; inversion H; auto).
  exists ls, lps, (lcs ++ [[]]). split; [| destruct cursor; exact Hc].
  destruct HR as [Hst Hps Hcs Hnd Hrg]. split; cbn; auto.
  - apply Forall2_app; [exact Hcs | constructor; [apply is_queue_nil | constructor]].
  - rewrite concat_app. cbn. by rewrite !app_nil_r.
Qed.

Lemma cursor_ok_storage s s' ls cursor :
  cursor_ok s ls cursor -> Storage.mutex_ (storage s') = Storage.mutex_ (storage s) ->
  cursor_ok s' ls cursor.
Proof. destruct cursor; cbn; intros H ->; exact H. Qed.

Lemma step_Insert s cursor cursor' s' i answer dataSize :
  target_ok = true -> Inv s cursor ->
  step (OpInsert i answer dataSize) cursor s = Ok cursor' s' -> Inv s' cursor'.
Proof.
  intros HT (ls & lps & lcs & HR & Hc) H.
  assert (Hb : (Producer_Insert i answer dataSize ≫= fun _ => mret cursor) s = Ok cursor' s')
    by (destruct cursor; exact H).
  apply bind_Ok_inv in Hb as (r & s1 & Hins & Hret). inversion Hret; subst; clear Hret.
  destruct (Producer_Insert_Ok _ _ _ _ _ _ _ _ _ HR Hins)
    as ([lp Hlp] & Hfit & Hnz & Hsz & Hfresh & Hal).
  destruct (Producer_Insert_spec _ _ _ _ _ _ _ _ HT HR Hlp Hfit Hnz Hsz Hfresh Hal)
    as (s2 & Hins2 & HR2 & _ & Hst2 & _).
  rewrite Hins in Hins2. inversion Hins2; subst.
  exists ls, (<[i := lp ++ [answer]]> lps), lcs. split; [exact HR2 |].
  eapply cursor_ok_storage; [exact Hc | by rewrite Hst2].
Qed.

Lemma step_Publish s cursor cursor' s' i :
  target_ok = true -> Inv s cursor ->
  step (OpPublish i) cursor s = Ok cursor' s' -> Inv s' cursor'.
Proof.
  intros HT (ls & lps & lcs & HR & Hc) H.
  assert (Hb : (Publish i ≫= fun _ => mret cursor) s = Ok cursor' s')
    by (destruct cursor; exact H).
  apply bind_Ok_inv in Hb as (r & s1 & Hpub & Hret). inversion Hret; subst; clear Hret.
  pose proof (Represents_producer _ _ _ _ i HR) as Hi.
  destruct (lps !! i) as [lp |] eqn:Hlp.
  - destruct (decide (lp = [])) as [-> | Hne].
    + rewrite (Publish_empty _ _ _ _ _ HR Hlp) in Hpub. inversion Hpub; subst.
      exists ls, lps, lcs. auto.
    + destruct (Storage.mutex_ (storage s)) eqn:Hm.
      * rewrite (Publish_blocked _ _ _ _ _ _ HR Hlp Hne Hm) in Hpub. discriminate.
      * destruct (Publish_spec _ _ _ _ _ _ HT HR Hlp Hne Hm) as (s2 & Hp2 & HR2 & _ & Hm2 & _).
        rewrite Hpub in Hp2. inversion Hp2; subst.
        exists (ls ++ lp), (<[i := []]> lps), lcs. split; [exact HR2 |].
        destruct cursor' as [it |]; [| exact Hm2].
        destruct Hc as [Hc _]. congruence.
  - destruct (producers s !! i) eqn:Ep; [contradiction |].
    unfold Publish, Producer_AssertCorrect in Hpub. revert Hpub. run. rewrite Ep.
    discriminate.
Qed.

Lemma step_LockForIter s cursor cursor' s' :
  Inv s cursor -> step OpLockForIter cursor s = Ok cursor' s' -> Inv s' cursor'.
Proof.
  intros (ls & lps & lcs & HR & Hc) H.
  assert (Hb : (LockForIter ≫= fun _ => it ← Iterable_begin; mret (Some it)) s
               = Ok cursor' s') by (destruct cursor; exact H).
  revert Hb. unfold LockForIter, lock, Iterable_begin. run.
  destruct (Storage.mutex_ (storage s)) eqn:Hm; [discriminate |]. run.
  intros Hb. inversion Hb; subst; clear Hb.
  exists ls, lps, lcs. split.
  - eapply Represents_ext; [exact HR | reflexivity ..].
  - cbn. split; [reflexivity |]. exists [], ls. repeat split.
    destruct HR as [(Hl & _) _ _ _ _]. by apply lseg_head in Hl.
Qed.

Lemma step_Unlock s cursor cursor' s' :
  Inv s cursor -> step OpUnlock cursor s = Ok cursor' s' -> Inv s' cursor'.
Proof.
  intros (ls & lps & lcs & HR & Hc) H. destruct cursor as [it |]; [| discriminate].
  revert H. cbn. unfold Iterable_destroy, unlock. run. intros H.
  inversion H; subst; clear H.
  exists ls, lps, lcs. split; [| reflexivity].
  eapply Represents_ext; [exact HR | reflexivity ..].
Qed.

Lemma step_Incr s cursor cursor' s' :
  Inv s cursor -> step OpIncr cursor s = Ok cursor' s' -> Inv s' cursor'.
Proof.
  intros (ls & lps & lcs & HR & Hc) H. destruct cursor as [it |]; [| discriminate].
  destruct Hc as (Hm & l1 & l2 & -> & Hprev & Hnode). cbn [step] in H.
  destruct l2 as [| n l2].
  - exfalso. revert H. unfold Iterator_incr. run. rewrite Hnode. cbn.
    rewrite (Represents_null _ _ _ _ HR). discriminate.
  - rewrite (bind_Ok _ _ _ _ _ (Iterator_incr_spec _ _ _ _ _ _ _ HR Hnode)) in H.
    inversion H; subst; clear H.
    exists (l1 ++ n :: l2), lps, lcs. split; [exact HR |].
    split; [exact Hm |]. exists (l1 ++ [n]), l2.
    rewrite <- app_assoc, last_snoc. auto.
Qed.

Lemma step_EraseAndAdvance s cursor cursor' s' :
  target_ok = true -> Inv s cursor ->
  step OpEraseAndAdvance cursor s = Ok cursor' s' -> Inv s' cursor'.
Proof.
  intros HT (ls & lps & lcs & HR & Hc) H. destruct cursor as [it |]; [| discriminate].
  destruct Hc as (Hm & l1 & l2 & -> & Hprev & Hnode). cbn [step] in H.
  destruct l2 as [| n l2].
  - exfalso. rewrite app_nil_r in HR. revert H.
    apply bind_not_Ok. intros a s1. unfold EraseAndAdvance. apply bind_not_Ok.
    intros r s2. rewrite Hprev. by eapply ExtractUnsafe_end.
  - destruct (EraseAndAdvance_spec _ _ _ _ _ _ _ HT HR Hprev)
      as (s2 & He & HR2 & _ & Hm2 & _).
    rewrite (bind_Ok _ _ _ _ _ He) in H. inversion H; subst; clear H.
    exists (l1 ++ l2), lps, lcs. split; [exact HR2 |].
    split; [congruence |]. exists l1, l2. auto.
Qed.

Lemma step_MoveAndAdvance s cursor cursor' s' j :
  target_ok = true -> Inv s cursor ->
  step (OpMoveAndAdvance j) cursor s = Ok cursor' s' -> Inv s' cursor'.
Proof.
  intros HT (ls & lps & lcs & HR & Hc) H. destruct cursor as [it |]; [| discriminate].
  destruct Hc as (Hm & l1 & l2 & -> & Hprev & Hnode). cbn [step] in H.
  destruct l2 as [| n l2].
  - exfalso. rewrite app_nil_r in HR. revert H.
    apply bind_not_Ok. intros a s1. unfold MoveAndAdvance. apply bind_not_Ok.
    intros r s2. rewrite Hprev. by eapply ExtractUnsafe_end.
  - destruct (lcs !! j) as [lc |] eqn:Hj.
    + destruct (MoveAndAdvance_spec _ _ _ _ _ _ _ _ _ HT HR Hj Hprev)
        as (s2 & He & HR2 & _ & Hm2 & _).
      rewrite (bind_Ok _ _ _ _ _ He) in H. inversion H; subst; clear H.
      exists (l1 ++ l2), lps, (<[j := lc ++ [n]]> lcs). split; [exact HR2 |].
      split; [congruence |]. exists l1, l2. auto.
    + exfalso. revert H. apply bind_not_Ok. intros a s1.
      destruct (ExtractUnsafe_spec _ _ _ _ _ _ HT HR)
        as (s2 & Hex & HR2 & _ & _ & _ & _ & _ & Hc2 & _).
      unfold MoveAndAdvance. rewrite <- Hprev in Hex. rewrite (bind_Ok _ _ _ _ _ Hex).
      apply bind_not_Ok. intros a' s3. unfold Consumer_Insert. apply bind_not_Ok.
      intros a'' s4. unfold Consumer_AssertCorrect. apply bind_not_Ok. intros c s5.
      pose proof (Represents_consumer _ _ _ _ j HR2) as Hcj. rewrite Hj in Hcj.
      unfold get_consumer. destruct (consumers s2 !! j); [contradiction | discriminate].
Qed.

(** Every call that returns keeps the invariant. *)
Lemma step_Inv op s cursor cursor' s' :
  target_ok = true -> Inv s cursor -> step op cursor s = Ok cursor' s' -> Inv s' cursor'.
Proof.
  intros HT HI H. destruct op.
  - by eapply step_NewProducer.
  - by eapply step_NewConsumer.
  - by eapply step_Insert.
  - by eapply step_Publish.
  - by eapply step_LockForIter.
  - by eapply step_Incr.
  - by eapply step_EraseAndAdvance.
  - by eapply step_MoveAndAdvance.
  - by eapply step_Unlock.
Qed.

Lemma run_Inv ops s cursor cursor' s' :
  target_ok = true -> Inv s cursor -> run ops cursor s = Ok cursor' s' -> Inv s' cursor'.
Proof.
  intros HT. revert s cursor. induction ops as [| op ops IH]; intros s cursor HI H.
  - inversion H; subst. exact HI.
  - cbn [run] in H. apply bind_Ok_inv in H as (c1 & s1 & Hstep & Hrun).
    eapply IH; [| exact Hrun]. by eapply step_Inv.
Qed.

End ClientFacts.

(** ** Sizes of blocks *)

Section SizeFacts.
Context {T : Target}.

(** The parameters as powers of two. *)
Lemma target_ok_pow2 :
  target_ok = true ->
  0 < size_bits /\ 0 < sizeof_Node < SIZE_MOD /\
  exists k j, 0 <= k < size_bits /\ DataAlignment = 2 ^ k /\
              0 <= j < size_bits /\ alignof_Node = 2 ^ j.
Proof.
  unfold target_ok. rewrite !andb_true_iff, !Z.ltb_lt, !is_size_t_spec.
  intros ((((((Hb & Hda) & Hdr) & Haa) & Har) & Hs0) & Hsr).
  destruct (IsValidAlignment_pow2 _ Hda) as (k & Hk & Hdk).
  destruct (IsValidAlignment_pow2 _ Haa) as (j & Hj & Haj).
  repeat split; try lia. exists k, j.
  unfold SIZE_MOD in *. rewrite Hdk in Hdr. rewrite Haj in Har.
  repeat split; try lia; try assumption; apply pow2_lt_exp; lia.
Qed.

Lemma size_max_pow2 (j k : Z) :
  0 <= j -> 0 <= k -> size_max (2 ^ j) (2 ^ k) = 2 ^ Z.max j k.
Proof.
  intros Hj Hk. unfold size_max. destruct (2 ^ j <? 2 ^ k) eqn:E.
  - apply Z.ltb_lt in E. apply pow2_lt_exp in E; [| lia ..]. by rewrite Z.max_r by lia.
  - apply Z.ltb_ge in E. destruct (Z_lt_le_dec j k) as [Hlt | Hle].
    + pose proof (Z.pow_lt_mono_r 2 j k ltac:(lia) ltac:(lia) Hlt). lia.
    + by rewrite Z.max_l by lia.
Qed.

(** [AlignUp] gives the least multiple that is not below [size]. *)
Lemma AlignUp_least (size k m : Z) :
  0 < size_bits -> 0 <= k < size_bits ->
  0 <= size -> size + 2 ^ k - 1 < SIZE_MOD ->
  (2 ^ k | m) -> size <= m -> AlignUp size (2 ^ k) <= m.
Proof.
  intros Hb Hk H0 Hlt [q ->] Hle.
  destruct (AlignUp_bounds size k Hb Hk H0 Hlt) as ([_ Hub] & [r Hr]).
  assert (Hpk : 0 < 2 ^ k) by (apply Z.pow_pos_nonneg; lia).
  rewrite Hr in *. set (a := 2 ^ k) in *.
  assert (r < q + 1) by (apply (Z.mul_lt_mono_pos_r a); lia).
  apply Z.mul_le_mono_nonneg_r; lia.
Qed.

(** Without overflow the block has room for [dataSize] bytes at the data
    offset. *)
Lemma GetSize_fits (dataSize : Z) :
  target_ok = true ->
  0 <= dataSize ->
  dataSize + sizeof_Node + DataAlignment + size_max alignof_Node DataAlignment <= SIZE_MOD ->
  let sz := GetSizeAndAlignmentForDataSize dataSize in
  DataOffset + dataSize <= sz.1 < SIZE_MOD /\
  size_add DataOffset dataSize = DataOffset + dataSize /\
  (DataAlignment | DataOffset) /\ (sz.2 | sz.1) /\ (DataAlignment | sz.2).
Proof.
  intros HT Hd Hov. destruct (target_ok_pow2 HT) as (Hb & Hs & k & j & Hk & Hdk & Hj & Haj).
  unfold GetSizeAndAlignmentForDataSize, DataOffset. cbn [fst snd].
  rewrite Hdk, Haj in *. rewrite size_max_pow2 in * by lia.
  remember (Z.max j k) as t eqn:Et.
  assert (Ht : 0 <= t < size_bits) by lia.
  assert (Hkt : (2 ^ k | 2 ^ t)) by (apply pow2_divide; lia).
  clear Et.
  assert (Hpk : 0 < 2 ^ k) by (apply Z.pow_pos_nonneg; lia).
  assert (Hpt : 0 < 2 ^ t) by (apply Z.pow_pos_nonneg; lia).
  assert (H1 : dataSize + 2 ^ k - 1 < SIZE_MOD) by lia.
  assert (H2 : sizeof_Node + 2 ^ k - 1 < SIZE_MOD) by lia.
  destruct (AlignUp_bounds dataSize k Hb Hk Hd H1) as (Hdb & Hdd).
  assert (H3 : 0 <= sizeof_Node) by lia.
  destruct (AlignUp_bounds sizeof_Node k Hb Hk H3 H2) as (Hob & Hod).
  set (d' := AlignUp dataSize (2 ^ k)) in *.
  set (off := AlignUp sizeof_Node (2 ^ k)) in *.
  rewrite (size_add_small sizeof_Node d') by lia.
  assert (H4 : 0 <= sizeof_Node + d') by lia.
  assert (H5 : sizeof_Node + d' + 2 ^ t - 1 < SIZE_MOD) by lia.
  destruct (AlignUp_bounds (sizeof_Node + d') t Hb Ht H4 H5) as (Htb & Htd).
  set (total := AlignUp (sizeof_Node + d') (2 ^ t)) in *.
  assert (Hoff : off <= total - d').
  { apply AlignUp_least; try lia.
    apply Z.divide_sub_r; [exact (Z.divide_trans _ _ _ Hkt Htd) | exact Hdd]. }
  rewrite size_add_small by lia.
  repeat split; try lia; assumption.
Qed.

(** When the node header is a multiple of the data alignment and is not
    aligned more strictly, rounding up to the total alignment changes
    nothing. *)
Lemma GetSize_plain (dataSize : Z) :
  target_ok = true ->
  0 <= dataSize ->
  dataSize + sizeof_Node + 2 * DataAlignment <= SIZE_MOD ->
  (DataAlignment | sizeof_Node) -> alignof_Node <= DataAlignment ->
  (GetSizeAndAlignmentForDataSize dataSize).1
  = sizeof_Node + AlignUp dataSize DataAlignment.
Proof.
  intros HT Hd Hov Hdiv Hle.
  destruct (target_ok_pow2 HT) as (Hb & Hs & k & j & Hk & Hdk & Hj & Haj).
  unfold GetSizeAndAlignmentForDataSize. cbn [fst].
  assert (Hmax : size_max alignof_Node DataAlignment = DataAlignment).
  { unfold size_max. destruct (alignof_Node <? DataAlignment) eqn:E; [reflexivity |].
    apply Z.ltb_ge in E. lia. }
  rewrite Hmax, Hdk in *.
  assert (Hpk : 0 < 2 ^ k) by (apply Z.pow_pos_nonneg; lia).
  assert (H1 : dataSize + 2 ^ k - 1 < SIZE_MOD) by lia.
  destruct (AlignUp_bounds dataSize k Hb Hk Hd H1) as (Hdb & Hdd).
  set (d' := AlignUp dataSize (2 ^ k)) in *.
  rewrite (size_add_small sizeof_Node d') by lia.
  apply AlignUp_aligned; try lia. by apply Z.divide_add_r.
Qed.

End SizeFacts.

Section ObservationFacts.
Context {T : Target}.

Lemma chain_is_queue s root last size l :
  is_queue (nodes s) root last size l -> chain s root size = l.
Proof.
  intros (Hl & _ & ->). unfold chain. rewrite Nat2Z.id.
  by rewrite (iterate_lseg (nodes s) root l s 0 (length l) eq_refl Hl).
Qed.

Lemma storage_chain_Represents s ls lps lcs :
  Represents s ls lps lcs -> storage_chain s = ls.
Proof. intros HR. eapply chain_is_queue. apply HR. Qed.

Lemma producer_chain_Represents s ls lps lcs i :
  Represents s ls lps lcs -> producer_chain s i = default [] (lps !! i).
Proof.
  intros HR. pose proof (Represents_producer _ _ _ _ i HR) as H. unfold producer_chain.
  destruct (producers s !! i), (lps !! i); try contradiction; [| reflexivity].
  by eapply chain_is_queue.
Qed.

Lemma consumer_chain_Represents s ls lps lcs j :
  Represents s ls lps lcs -> consumer_chain s j = default [] (lcs !! j).
Proof.
  intros HR. pose proof (Represents_consumer _ _ _ _ j HR) as H. unfold consumer_chain.
  destruct (consumers s !! j), (lcs !! j); try contradiction; [| reflexivity].
  by eapply chain_is_queue.
Qed.

(** Every state that a program reaches from a fresh storage satisfies the
    invariant. *)
Lemma reachable_Inv ops cursor s :
  target_ok = true -> run ops None initial = Ok cursor s -> Inv s cursor.
Proof. intros HT H. eapply run_Inv; [exact HT | apply Inv_initial | exact H]. Qed.

End ObservationFacts.

(** C1. Registry well-formedness is an invariant: after every sequence of
    constructions, [Insert], [Publish], [LockForIter], [++], [EraseAndAdvance],
    [MoveAndAdvance] and unlock calls on a fresh storage that runs to its end,
    [root_] is null iff [last_] is null iff [size_] is 0, the last node has a
    null [next_] when the chain is not empty, and forward iteration from
    [root_] ends after visiting exactly [size_] nodes, each once. *)
Theorem registry_well_formed {T : Target} (ops : list Op) (cursor : option Iterator)
    (s : State) :
  target_ok = true ->
  run ops None initial = Ok cursor s ->
  WellFormed s.
Proof.
  intros HT H. exact (Inv_WellFormed _ _ (reachable_Inv _ _ _ HT H)).
Qed.

Lemma registry_well_formed_witness :
  exists s, @run (lp64 8) registry_program None initial = Ok None s /\ WellFormed s.
Proof.
  eexists. split; [vm_compute; reflexivity |].
  apply (@registry_well_formed (lp64 8) registry_program None);
    vm_compute; reflexivity.
Defined.

Section Claims.
Context {T : Target}.

Lemma Represents_producer_Some s ls lps lcs i p :
  Represents s ls lps lcs -> producers s !! i = Some p ->
  exists lp, lps !! i = Some lp /\ producer_rep (nodes s) p lp.
Proof.
  intros HR Hp. pose proof (Represents_producer _ _ _ _ i HR) as H. rewrite Hp in H.
  destruct (lps !! i) as [lp |]; [eauto | contradiction].
Qed.

Lemma Represents_consumer_Some s ls lps lcs j c :
  Represents s ls lps lcs -> consumers s !! j = Some c ->
  exists lc, lcs !! j = Some lc /\ consumer_rep (nodes s) c lc.
Proof.
  intros HR Hc. pose proof (Represents_consumer _ _ _ _ j HR) as H. rewrite Hc in H.
  destruct (lcs !! j) as [lc |]; [eauto | contradiction].
Qed.

Lemma Represents_storage_size s ls lps lcs :
  Represents s ls lps lcs -> Storage.size_ (storage s) = Z.of_nat (length ls).
Proof. intros HR. apply HR. Qed.

End Claims.

(** C2. [Producer::Publish] in a state that a program has reached.  On an
    empty producer it returns with the state as it was: nothing is changed
    and the lock is not taken.  On a producer that holds nodes, with the lock
    free, it returns; the chain of the storage is then the old chain followed
    by the whole chain of the producer, in order; [size_] of the storage is
    the sum of the two old sizes; the producer is empty, with [root_] and
    [last_] null and [size_] 0; the lock was taken once and released. *)
Theorem Publish_splices {T : Target} (ops : list Op) (cursor : option Iterator)
    (s : State) (i : nat) (p : Producer.t) :
  target_ok = true ->
  run ops None initial = Ok cursor s ->
  producers s !! i = Some p ->
  (Producer.root_ p = 0 -> Publish i s = Ok tt s) /\
  (Producer.root_ p <> 0 -> Storage.mutex_ (storage s) = false ->
   exists s', Publish i s = Ok tt s' /\
     storage_chain s' = storage_chain s ++ producer_chain s i /\
     Storage.size_ (storage s') = Storage.size_ (storage s) + Producer.size_ p /\
     Storage.last_ (storage s') = Producer.last_ p /\
     producers s' !! i = Some (Producer.mk 0 0 0) /\
     producer_chain s' i = [] /\
     (forall k, k <> i -> producer_chain s' k = producer_chain s k) /\
     (forall j, consumer_chain s' j = consumer_chain s j) /\
     trace s' = trace s ++ [EvLock; EvUnlock]).
Proof.
  intros HT Hrun Hp.
  destruct (reachable_Inv _ _ _ HT Hrun) as (ls & lps & lcs & HR & Hc).
  destruct (Represents_producer_Some _ _ _ _ _ _ HR Hp) as (lp & Hlp & Hrep).
  pose proof (is_queue_root_null _ _ _ _ _ Hrep) as Hnull.
  split.
  - intros Hr. apply Hnull in Hr. subst lp. by eapply Publish_empty.
  - intros Hr Hm. assert (Hne : lp <> []) by tauto.
    destruct (Publish_spec _ _ _ _ _ _ HT HR Hlp Hne Hm)
      as (s' & Hpub & HR' & Hp' & Hm' & Hc' & Ho' & Hlen' & Ht').
    exists s'. split; [exact Hpub |].
    rewrite (storage_chain_Represents _ _ _ _ HR'), (storage_chain_Represents _ _ _ _ HR).
    rewrite (producer_chain_Represents _ _ _ _ i HR), Hlp.
    rewrite (Represents_storage_size _ _ _ _ HR'), (Represents_storage_size _ _ _ _ HR).
    assert (Hi : (i < length lps)%nat) by (by eapply lookup_lt_Some).
    repeat split; auto.
    + destruct Hrep as (_ & _ & ->). rewrite length_app. lia.
    + destruct (rep_storage _ _ _ _ HR') as (_ & -> & _).
      destruct Hrep as (_ & -> & _). rewrite last_app.
      destruct (last lp) eqn:E; [reflexivity |]. apply last_None in E. contradiction.
    + rewrite (producer_chain_Represents _ _ _ _ i HR').
      by rewrite list_lookup_insert_eq.
    + intros k Hk. rewrite (producer_chain_Represents _ _ _ _ k HR'),
        (producer_chain_Represents _ _ _ _ k HR).
      by rewrite list_lookup_insert_ne.
    + intros j. rewrite (consumer_chain_Represents _ _ _ _ j HR'),
        (consumer_chain_Represents _ _ _ _ j HR). reflexivity.
Qed.

Lemma Publish_splices_witness :
  let s := final (@run (lp64 8) publish_program None initial) in
  exists s', @Publish (lp64 8) 0 s = Ok tt s' /\
    storage_chain s' = storage_chain s ++ producer_chain s 0.
Proof.
  intros s.
  destruct (@Publish_splices (lp64 8) publish_program None s 0%nat (Producer.mk 64 128 2))
    as [_ H]; [vm_compute; reflexivity .. |].
  destruct H as (s' & Hpub & Hch & _); [vm_compute; discriminate | vm_compute; reflexivity |].
  exists s'. split; assumption.
Defined.

(** C3. [EraseAndAdvance] and [MoveAndAdvance] on the iterator of a program
    that stands on a node [n].  The chain of the storage is [l1 ++ n :: l2]
    with the recorded predecessor the last node of [l1] (null when [n] is the
    head).  [EraseAndAdvance] returns; the chain is then [l1 ++ l2], the
    iterator stands on the old successor of [n], [size_] is one less, [last_]
    is the last node of what remains, and [n] has left the registry (it is
    freed).  [MoveAndAdvance] unlinks and advances the same way and appends
    [n] at the tail of the consumer, whose [size_] grows by one.  Every other
    chain is as it was. *)
Theorem extract_and_advance {T : Target} (ops : list Op) (it : Iterator) (s : State) :
  target_ok = true ->
  run ops None initial = Ok (Some it) s ->
  node_ it <> 0 ->
  exists l1 l2,
    storage_chain s = l1 ++ node_ it :: l2 /\
    previousNode_ it = default 0 (last l1) /\
    (exists s',
       EraseAndAdvance it s = Ok (mkIterator (previousNode_ it) (default 0 (head l2))) s' /\
       storage_chain s' = l1 ++ l2 /\
       Storage.size_ (storage s') = Storage.size_ (storage s) - 1 /\
       Storage.last_ (storage s') = default 0 (last (l1 ++ l2)) /\
       nodes s' !! node_ it = None /\
       (forall k, producer_chain s' k = producer_chain s k) /\
       (forall k, consumer_chain s' k = consumer_chain s k) /\
       trace s' = trace s ++ [EvFree (node_ it)]) /\
    (forall j c, consumers s !! j = Some c ->
     exists s',
       MoveAndAdvance j it s = Ok (mkIterator (previousNode_ it) (default 0 (head l2))) s' /\
       storage_chain s' = l1 ++ l2 /\
       Storage.size_ (storage s') = Storage.size_ (storage s) - 1 /\
       Storage.last_ (storage s') = default 0 (last (l1 ++ l2)) /\
       nodes s' !! node_ it = Some 0 /\
       consumer_chain s' j = consumer_chain s j ++ [node_ it] /\
       (exists c', consumers s' !! j = Some c' /\
                   Consumer.size_ c' = Consumer.size_ c + 1 /\
                   Consumer.last_ c' = node_ it) /\
       (forall k, producer_chain s' k = producer_chain s k) /\
       (forall k, k <> j -> consumer_chain s' k = consumer_chain s k) /\
       trace s' = trace s).
Proof.
  intros HT Hrun Hnode.
  destruct (reachable_Inv _ _ _ HT Hrun) as (ls & lps & lcs & HR & Hc).
  destruct Hc as (Hm & l1 & l2' & -> & Hprev & Hn).
  destruct l2' as [| n l2]; [contradiction |]. cbn in Hn. rewrite Hn in *.
  exists l1, l2. rewrite (storage_chain_Represents _ _ _ _ HR).
  split; [reflexivity |]. split; [exact Hprev |].
  pose proof (Represents_storage_size _ _ _ _ HR) as Hsz.
  assert (Hlen : Z.of_nat (length (l1 ++ l2)) = Z.of_nat (length (l1 ++ n :: l2)) - 1)
    by (rewrite !length_app; cbn [length]; lia).
  split.
  - destruct (EraseAndAdvance_spec _ _ _ _ _ _ _ HT HR Hprev)
      as (s' & He & HR' & Hgone & _ & _ & _ & _ & Ht).
    exists s'. split; [exact He |].
    rewrite (storage_chain_Represents _ _ _ _ HR').
    rewrite (Represents_storage_size _ _ _ _ HR'), Hsz.
    repeat split; auto.
    + apply (rep_storage _ _ _ _ HR').
    + intros k. by rewrite (producer_chain_Represents _ _ _ _ k HR'),
        (producer_chain_Represents _ _ _ _ k HR).
    + intros k. by rewrite (consumer_chain_Represents _ _ _ _ k HR'),
        (consumer_chain_Represents _ _ _ _ k HR).
  - intros j c Hj.
    destruct (Represents_consumer_Some _ _ _ _ _ _ HR Hj) as (lc & Hlc & Hrep).
    destruct (MoveAndAdvance_spec _ _ _ _ _ _ _ _ _ HT HR Hlc Hprev)
      as (s' & He & HR' & Hlive & _ & _ & _ & _ & Ht).
    exists s'. split; [exact He |].
    rewrite (storage_chain_Represents _ _ _ _ HR').
    rewrite (Represents_storage_size _ _ _ _ HR'), Hsz.
    assert (Hjl : (j < length lcs)%nat) by (by eapply lookup_lt_Some).
    assert (Hlc' : <[j := lc ++ [n]]> lcs !! j = Some (lc ++ [n]))
      by (by apply list_lookup_insert_eq).
    repeat split; auto.
    + apply (rep_storage _ _ _ _ HR').
    + rewrite (consumer_chain_Represents _ _ _ _ j HR'),
        (consumer_chain_Represents _ _ _ _ j HR), Hlc', Hlc. reflexivity.
    + pose proof (Represents_consumer _ _ _ _ j HR') as Hc'. rewrite Hlc' in Hc'.
      destruct (consumers s' !! j) as [c' |]; [| contradiction].
      exists c'. split; [reflexivity |].
      destruct Hc' as (_ & Hl' & Hs'). destruct Hrep as (_ & _ & Hs).
      rewrite Hs', Hs, Hl', length_app, last_snoc. cbn. lia.
    + intros k. by rewrite (producer_chain_Represents _ _ _ _ k HR'),
        (producer_chain_Represents _ _ _ _ k HR).
    + intros k Hk. rewrite (consumer_chain_Represents _ _ _ _ k HR'),
        (consumer_chain_Represents _ _ _ _ k HR). by rewrite list_lookup_insert_ne.
Qed.

Lemma extract_and_advance_witness :
  let s := final (@run (lp64 8) sweep_program None initial) in
  let it := mkIterator 16 64 in
  exists l1 l2 s1 s2,
    storage_chain s = l1 ++ 64 :: l2 /\
    @EraseAndAdvance (lp64 8) it s = Ok (mkIterator 16 (default 0 (head l2))) s1 /\
    storage_chain s1 = l1 ++ l2 /\
    @MoveAndAdvance (lp64 8) 0 it s = Ok (mkIterator 16 (default 0 (head l2))) s2 /\
    storage_chain s2 = l1 ++ l2 /\ consumer_chain s2 0 = consumer_chain s 0 ++ [64].
Proof.
  intros s it.
  destruct (@extract_and_advance (lp64 8) sweep_program it s)
    as (l1 & l2 & Hch & Hprev & He & Hm);
    [vm_compute; reflexivity | vm_compute; reflexivity | cbn; lia |].
  destruct He as (s1 & He & Hc1 & _).
  destruct (Hm 0%nat (Consumer.mk 0 0 0)) as (s2 & Hmv & Hc2 & _ & _ & _ & Hcc & _);
    [vm_compute; reflexivity |].
  exists l1, l2, s1, s2. repeat split; assumption.
Defined.

(** C6, as the code has it.  [Producer::Insert] in a state that a program has
    reached, when the size fits and the allocator answers with a fresh
    aligned block: the one request to the allocator is for
    [AlignUp(sizeof(Node) + AlignUp(dataSize, DataAlignment), totalAlignment)]
    bytes aligned to [totalAlignment = max(alignof(Node), DataAlignment)];
    the call returns the new node, whose [next_] is null; the node is
    appended at the tail of the producer, whose other entries keep their
    order and whose [size_] grows by one; nothing else changes.  The size is
    [sizeof(Node) + AlignUp(dataSize, DataAlignment)] when [sizeof(Node)] is a
    multiple of [DataAlignment], [alignof(Node)] is at most [DataAlignment]
    and nothing overflows. *)
Theorem Producer_Insert_appends {T : Target} (ops : list Op) (cursor : option Iterator)
    (s : State) (i : nat) (p : Producer.t) (answer dataSize : Z) :
  target_ok = true ->
  run ops None initial = Ok cursor s ->
  producers s !! i = Some p ->
  (size_add DataOffset dataSize <=? (GetSizeAndAlignmentForDataSize dataSize).1) = true ->
  answer <> 0 -> is_size_t answer = true -> nodes s !! answer = None ->
  IsAligned answer (GetSizeAndAlignmentForDataSize dataSize).2 = true ->
  let totalAlignment := size_max alignof_Node DataAlignment in
  let totalSize :=
    AlignUp (size_add sizeof_Node (AlignUp dataSize DataAlignment)) totalAlignment in
  (exists s',
     Producer_Insert i answer dataSize s = Ok answer s' /\
     trace s' = trace s ++ [EvAlloc totalSize totalAlignment answer] /\
     nodes s' !! answer = Some 0 /\
     producer_chain s' i = producer_chain s i ++ [answer] /\
     (exists p', producers s' !! i = Some p' /\
                 Producer.size_ p' = Producer.size_ p + 1 /\
                 Producer.last_ p' = answer) /\
     (forall k, k <> i -> producer_chain s' k = producer_chain s k) /\
     (forall j, consumer_chain s' j = consumer_chain s j) /\
     storage_chain s' = storage_chain s /\ storage s' = storage s) /\
  (0 <= dataSize -> dataSize + sizeof_Node + 2 * DataAlignment <= SIZE_MOD ->
   (DataAlignment | sizeof_Node) -> alignof_Node <= DataAlignment ->
   totalSize = sizeof_Node + AlignUp dataSize DataAlignment).
Proof.
  intros HT Hrun Hp Hfit Hnz Hsz Hfresh Hal totalAlignment totalSize.
  split; [| intros; by apply GetSize_plain].
  destruct (reachable_Inv _ _ _ HT Hrun) as (ls & lps & lcs & HR & Hc).
  destruct (Represents_producer_Some _ _ _ _ _ _ HR Hp) as (lp & Hlp & Hrep).
  destruct (Producer_Insert_spec _ _ _ _ _ _ _ _ HT HR Hlp Hfit Hnz Hsz Hfresh Hal)
    as (s' & Hins & HR' & Hnx & Hst & Hcs & Ho & Hlen & Ht).
  exists s'. split; [exact Hins |]. split; [exact Ht |]. split; [exact Hnx |].
  assert (Hil : (i < length lps)%nat) by (by eapply lookup_lt_Some).
  assert (Hlp' : <[i := lp ++ [answer]]> lps !! i = Some (lp ++ [answer]))
    by (by apply list_lookup_insert_eq).
  repeat split.
  - rewrite (producer_chain_Represents _ _ _ _ i HR'),
      (producer_chain_Represents _ _ _ _ i HR), Hlp', Hlp. reflexivity.
  - pose proof (Represents_producer _ _ _ _ i HR') as Hp'. rewrite Hlp' in Hp'.
    destruct (producers s' !! i) as [p' |]; [| contradiction].
    exists p'. split; [reflexivity |].
    destruct Hp' as (_ & Hl' & Hs'). destruct Hrep as (_ & _ & Hs).
    rewrite Hs', Hs, Hl', length_app, last_snoc. cbn. lia.
  - intros k Hk. rewrite (producer_chain_Represents _ _ _ _ k HR'),
      (producer_chain_Represents _ _ _ _ k HR). by rewrite list_lookup_insert_ne.
  - intros j. by rewrite (consumer_chain_Represents _ _ _ _ j HR'),
      (consumer_chain_Represents _ _ _ _ j HR).
  - by rewrite (storage_chain_Represents _ _ _ _ HR'), (storage_chain_Represents _ _ _ _ HR).
  - exact Hst.
Qed.

Lemma Producer_Insert_appends_witness :
  let s := final (@run (lp64 16) insert_program None initial) in
  exists s', @Producer_Insert (lp64 16) 0 64 24 s = Ok 64 s' /\
    trace s' = trace s ++ [EvAlloc 48 16 64] /\
    producer_chain s' 0 = producer_chain s 0 ++ [64].
Proof.
  intros s.
  destruct (@Producer_Insert_appends (lp64 16) insert_program None s 0%nat
              (Producer.mk 32 32 1) 64 24) as [(s' & H1 & H2 & _ & H3 & _) _];
    [vm_compute; reflexivity | vm_compute; reflexivity | vm_compute; reflexivity
    | vm_compute; reflexivity | lia | vm_compute; reflexivity | vm_compute; reflexivity
    | vm_compute; reflexivity |].
  exists s'. repeat split; assumption.
Defined.

(** C6, as the spec has it, fails: with [DataAlignment = 16] on a 64-bit
    target, [Insert(1)] asks the allocator for 32 bytes, whereas
    [sizeof(Node) + AlignUp(1, 16)] is 24. *)
Lemma Producer_Insert_size_counterexample :
  let T := lp64 16 in
  trace (final (@run T [OpNewProducer; OpInsert 0 32 1] None initial))
    = [EvAlloc 32 16 32] /\
  @sizeof_Node T + @AlignUp T 1 (@DataAlignment T) = 24.
Proof. split; vm_compute; reflexivity. Qed.

(** C8. [Node::Create] once the size assertion has passed, that is, once the
    allocator is asked.  If the allocator returns null, the call prints the
    out-of-memory message and aborts; the state at the abort differs from the
    state before only by the record of the request and of the message.  If
    the allocator returns a fresh block aligned as requested, the call
    returns that block as a node whose [next_] is null.  Whenever the call
    returns, what it returns is not null. *)
Theorem Create_aborts_on_null {T : Target} (answer dataSize : Z) (s : State) :
  (size_add DataOffset dataSize <=? (GetSizeAndAlignmentForDataSize dataSize).1) = true ->
  let sz := GetSizeAndAlignmentForDataSize dataSize in
  (answer = 0 ->
   exists s', Create answer dataSize s = Aborted s' /\
     trace s' = trace s ++
       [EvAlloc sz.1 sz.2 0;
        EvConsoleErrorf "Out of memory trying to allocate %zu bytes. Aborting.\n" [sz.1]] /\
     nodes s' = nodes s /\ storage s' = storage s /\ producers s' = producers s /\
     consumers s' = consumers s /\ objects s' = objects s) /\
  (answer <> 0 -> is_size_t answer = true -> nodes s !! answer = None ->
   IsAligned answer sz.2 = true ->
   exists s', Create answer dataSize s = Ok answer s' /\
     nodes s' = <[answer := 0]> (nodes s) /\
     trace s' = trace s ++ [EvAlloc sz.1 sz.2 answer]) /\
  (forall node s', Create answer dataSize s = Ok node s' -> node <> 0 /\ answer <> 0).
Proof.
  intros Hfit sz. pose proof (Create_cases answer dataSize s) as E.
  cbn zeta in E. fold sz in E. unfold sz in Hfit. fold sz in Hfit.
  rewrite Hfit in E. cbn [negb] in E.
  split; [| split].
  - intros ->. rewrite E. cbn. eexists. split; [reflexivity |]. cbn.
    rewrite <- app_assoc. repeat split.
  - intros Hnz Hsz Hfresh Hal. apply Z.eqb_neq in Hnz. rewrite Hnz, Hsz, Hal in E.
    rewrite (bool_decide_eq_true_2 _ Hfresh) in E. cbn in E. rewrite E.
    eexists. split; [reflexivity |]. split; reflexivity.
  - intros node s'. rewrite E. destruct (answer =? 0) eqn:Hz.
    + cbn. discriminate.
    + apply Z.eqb_neq in Hz. cbn [orb].
      destruct (negb _); [discriminate |].
      destruct (negb _); [discriminate |]. intros H. inversion H; subst. auto.
Qed.

Lemma Create_aborts_on_null_witness :
  exists s', @Create (lp64 8) 0 24 initial = Aborted s' /\
    trace s' = [EvAlloc 32 8 0;
                EvConsoleErrorf "Out of memory trying to allocate %zu bytes. Aborting.\n" [32]].
Proof.
  destruct (@Create_aborts_on_null (lp64 8) 0 24 initial) as [H _];
    [vm_compute; reflexivity |].
  destruct H as (s' & H1 & H2 & _); [reflexivity |].
  exists s'. split; [exact H1 | exact H2].
Defined.

(** C10, as the code has it.  When [dataSize], the node header and the two
    alignments together do not overflow [size_t], the block computed by
    [GetSizeAndAlignmentForDataSize] has room for [dataSize] bytes at the
    data offset, and the assertion of [Node::Create] holds. *)
Theorem total_size_fits {T : Target} (dataSize : Z) :
  target_ok = true ->
  0 <= dataSize ->
  dataSize + sizeof_Node + DataAlignment + size_max alignof_Node DataAlignment <= SIZE_MOD ->
  DataOffset + dataSize <= (GetSizeAndAlignmentForDataSize dataSize).1 /\
  (size_add DataOffset dataSize <=? (GetSizeAndAlignmentForDataSize dataSize).1) = true.
Proof.
  intros HT Hd Hov. destruct (GetSize_fits dataSize HT Hd Hov) as (H1 & H2 & _).
  split; [lia |]. rewrite H2. apply Z.leb_le. lia.
Qed.

Lemma total_size_fits_witness :
  @DataOffset (lp64 8) + 24 <= (@GetSizeAndAlignmentForDataSize (lp64 8) 24).1 /\
  (@size_add (lp64 8) (@DataOffset (lp64 8)) 24
     <=? (@GetSizeAndAlignmentForDataSize (lp64 8) 24).1) = true.
Proof.
  apply (@total_size_fits (lp64 8) 24); [vm_compute; reflexivity | lia | vm_compute; discriminate].
Defined.

(** C10, as stated for every [dataSize], fails: on a 64-bit target with
    [DataAlignment = 8] and [dataSize = 2^64 - 9] the sizes wrap around, the
    total size is 0 and the assertion of [Node::Create] fires. *)
Lemma total_size_counterexample :
  let T := lp64 8 in
  let dataSize := 2 ^ 64 - 9 in
  @GetSizeAndAlignmentForDataSize T dataSize = (0, 8) /\
  @size_add T (@DataOffset T) dataSize = 2 ^ 64 - 1 /\
  @Create T 4096 dataSize initial
  = AssertionFailed "totalSize %zu is not enough to fit data %zu at offset %zu" initial.
Proof. repeat split; vm_compute; reflexivity. Qed.

(** ** From the data back to the node *)

Section NodeFacts.
Context {T : Target}.

Lemma IsAligned_spec (p a : Z) : 0 < a -> IsAligned p a = true <-> (a | p).
Proof.
  intros Ha. unfold IsAligned. rewrite Z.eqb_eq. split.
  - intros H. by apply Z.mod_divide; [lia |].
  - intros H. apply Z.mod_divide in H; [exact H | lia].
Qed.

(** Wrapping around [size_t] keeps multiples of an alignment. *)
Lemma to_size_t_divide (k x : Z) :
  0 <= k < size_bits -> (2 ^ k | x) -> (2 ^ k | to_size_t x).
Proof.
  intros Hk Hx. unfold to_size_t.
  assert (Hm : (2 ^ k | SIZE_MOD)) by (apply pow2_divide; lia).
  assert (Hpos : 0 < SIZE_MOD) by (apply SIZE_MOD_pos; lia).
  rewrite Z.mod_eq by lia. apply Z.divide_sub_r; [exact Hx |].
  by apply Z.divide_mul_l.
Qed.

Lemma to_size_t_add_sub (x off : Z) :
  0 < size_bits -> 0 <= x < SIZE_MOD -> size_sub (size_add x off) off = x.
Proof.
  intros Hb Hx. unfold size_sub, size_add, to_size_t.
  pose proof (SIZE_MOD_pos Hb) as Hpos.
  rewrite Zminus_mod_idemp_l. replace (x + off - off) with x by lia.
  by apply Z.mod_small.
Qed.

Lemma to_size_t_sub_add (x off : Z) :
  0 < size_bits -> 0 <= x < SIZE_MOD -> size_add (size_sub x off) off = x.
Proof.
  intros Hb Hx. unfold size_sub, size_add, to_size_t.
  pose proof (SIZE_MOD_pos Hb) as Hpos.
  rewrite Zplus_mod_idemp_l. replace (x - off + off) with x by lia.
  by apply Z.mod_small.
Qed.

(** A node whose address is a multiple of [DataAlignment] has its data at the
    data offset, and [FromData] leads back from there. *)
Lemma Data_FromData (node : Z) (s : State) :
  target_ok = true -> is_size_t node = true -> IsAligned node DataAlignment = true ->
  Data node s = Ok (size_add node DataOffset) s /\
  FromData (size_add node DataOffset) s = Ok node s.
Proof.
  intros HT Hsz Hal. destruct (target_ok_pow2 HT) as (Hb & Hs & k & j & Hk & Hdk & Hj & Haj).
  apply is_size_t_spec in Hsz.
  assert (Hpk : 0 < 2 ^ k) by (apply Z.pow_pos_nonneg; lia).
  assert (Hd : Data node s = Ok (size_add node DataOffset) s).
  { unfold Data. run.
    assert (Ha : IsAligned (size_add node DataOffset) DataAlignment = true).
    { rewrite Hdk in *. apply IsAligned_spec; [exact Hpk |].
      apply IsAligned_spec in Hal; [| exact Hpk].
      apply to_size_t_divide; [exact Hk |]. apply Z.divide_add_r; [exact Hal |].
      unfold DataOffset. rewrite Hdk. by apply AlignUp_multiple. }
    by rewrite Ha. }
  split; [exact Hd |].
  unfold FromData. run. rewrite to_size_t_add_sub by assumption.
  fold (Data node s). rewrite Hd. run. by rewrite Z.eqb_refl.
Qed.

(** Aligned to the total alignment is aligned to the data alignment. *)
Lemma IsAligned_total (p : Z) :
  target_ok = true ->
  IsAligned p (size_max alignof_Node DataAlignment) = true ->
  IsAligned p DataAlignment = true.
Proof.
  intros HT H. destruct (target_ok_pow2 HT) as (Hb & Hs & k & j & Hk & Hdk & Hj & Haj).
  rewrite Hdk, Haj in *. rewrite size_max_pow2 in H by lia.
  assert (0 < 2 ^ k) by (apply Z.pow_pos_nonneg; lia).
  assert (0 < 2 ^ Z.max j k) by (apply Z.pow_pos_nonneg; lia).
  apply IsAligned_spec in H; [| assumption]. apply IsAligned_spec; [assumption |].
  eapply Z.divide_trans; [| exact H]. apply pow2_divide. lia.
Qed.

End NodeFacts.

Section FactoryFacts.
Context {T : Target} {L : ObjectLayout}.

Lemma layout_ok_spec :
  layout_ok = true ->
  32 <= size_bits /\ 0 <= sizeof_HeapObjHeader < SIZE_MOD /\
  0 <= sizeof_HeapArrayHeader < SIZE_MOD /\
  0 <= offsetof_HeapObjHeader_object < SIZE_MOD /\
  0 <= offsetof_HeapArrayHeader_array < SIZE_MOD.
Proof.
  unfold layout_ok. rewrite !andb_true_iff, Z.leb_le, !is_size_t_spec. tauto.
Qed.




End FactoryFacts.





Lemma popcount_zero (bits : nat) : popcount bits 0 = 0.
Proof. induction bits as [| n IH]; [reflexivity |].
  cbn [popcount]. change (Z.div2 0) with 0. by rewrite IH.
Qed.

Lemma popcount_bounds (bits : nat) (z : Z) : 0 <= popcount bits z <= Z.of_nat bits.
Proof.
  revert z. induction bits as [| n IH]; intros z; [cbn; lia |].
  cbn [popcount]. specialize (IH (Z.div2 z)). destruct (Z.odd z); cbn [Z.b2z]; lia.
Qed.

Lemma popcount_pos (bits : nat) (z : Z) :
  0 < z < 2 ^ Z.of_nat bits -> 0 < popcount bits z.
Proof.
  revert z. induction bits as [| n IH]; intros z Hz; [cbn in Hz; lia |].
  cbn [popcount]. pose proof (popcount_bounds n (Z.div2 z)) as Hb.
  destruct (Z.odd z) eqn:Ho; cbn [Z.b2z]; [lia |].
  assert (Hd : z = 2 * Z.div2 z) by (rewrite (Z.div2_odd z) at 1; rewrite Ho; cbn; lia).
  apply (IH (Z.div2 z)). rewrite Nat2Z.inj_succ, Z.pow_succ_r in Hz by lia. lia.
Qed.

Lemma popcount_zero_inv (bits : nat) (z : Z) :
  0 <= z < 2 ^ Z.of_nat bits -> popcount bits z = 0 -> z = 0.
Proof.
  intros Hz H0. destruct (decide (z = 0)) as [| Hne]; [done |].
  assert (0 < popcount bits z) by (apply popcount_pos; lia). lia.
Qed.

Lemma availableProcessorsFallback_range (q : Queries) :
  1 <= availableProcessorsFallback q < 2 ^ 31.
Proof.
  unfold availableProcessorsFallback, to_int. cbn zeta.
  pose proof (Z.mod_pos_bound (hardware_concurrency q + 2 ^ 31) (2 ^ 32) ltac:(lia)).
  destruct (Z.leb_spec ((hardware_concurrency q + 2 ^ 31) mod 2 ^ 32 - 2 ^ 31) 0); lia.
Qed.

Lemma affinity_loop_S (fuel : nat) (q : Queries) (call : nat) (result cpus : Z) :
  affinity_loop (S fuel) q call result cpus
  = if (result =? -1) && (cpus <=? MAX_CPUS) then
      affinity_loop fuel q (S call)
        (if sched_setaffinity q call (CPU_ALLOC_SIZE q cpus) =? 0
         then CPU_COUNT_S CPU_ZERO cpus else result) (cpus * 2)
    else Some result.
Proof. reflexivity. Qed.

(** The loop, once the result is set, stops with it. *)
Lemma affinity_loop_done (fuel : nat) (q : Queries) (call : nat) (result cpus : Z) :
  result <> -1 -> affinity_loop fuel q call result cpus = Some result.
Proof.
  intros Hr. destruct fuel; cbn [affinity_loop];
    by rewrite (proj2 (Z.eqb_neq result (-1)) Hr).
Qed.

(** The loop answers 0 or -1, within the fuel that the doubling needs. *)
Lemma affinity_loop_result (fuel : nat) (q : Queries) (call : nat) (cpus : Z) :
  2 ^ 17 < cpus * 2 ^ Z.of_nat fuel -> 1 <= cpus ->
  affinity_loop fuel q call (-1) cpus = Some 0 \/
  affinity_loop fuel q call (-1) cpus = Some (-1).
Proof.
  change (2 ^ 17) with 131072.
  revert call cpus. induction fuel as [| n IH]; intros call cpus Hf Hc.
  - cbn [affinity_loop]. change (-1 =? -1) with true. cbn [andb].
    assert (Hgt : (cpus <=? MAX_CPUS) = false).
    { apply Z.leb_gt. change MAX_CPUS with 65536.
      change (Z.of_nat 0) with 0 in Hf. rewrite Z.pow_0_r in Hf. lia. }
    rewrite Hgt. by right.
  - cbn [affinity_loop]. change (-1 =? -1) with true. cbn [andb].
    destruct (cpus <=? MAX_CPUS) eqn:Hle; [| by right].
    cbn zeta. destruct (sched_setaffinity q call (CPU_ALLOC_SIZE q cpus) =? 0).
    + left. unfold CPU_COUNT_S, CPU_ZERO. rewrite popcount_zero.
      by apply affinity_loop_done.
    + apply IH; [| lia]. rewrite Nat2Z.inj_succ, Z.pow_succ_r in Hf by lia. lia.
Qed.

(** C7. In the Linux branch the set on the stack is cleared and handed to
    [sched_setaffinity], and it is this cleared set that is counted: when the
    first call answers 0, or when it fails and, with CPU_ALLOC, the first call
    of the loop answers 0, the function returns the number of processors of
    the cleared set, which is zero, whatever the other queries answer. *)
Theorem Linux_availableProcessors_zero (cpu_alloc : bool) (q : Queries) :
  sched_setaffinity q 0 (sizeof_cpu_set_t q) = 0 \/
  (cpu_alloc = true /\ availableProcessorsFallback q <= MAX_CPUS /\
   sched_setaffinity q 1 (CPU_ALLOC_SIZE q (availableProcessorsFallback q)) = 0) ->
  Konan_Platform_availableProcessors (KONAN_LINUX cpu_alloc) q = Some 0.
Proof.
  intros H. unfold Konan_Platform_availableProcessors. cbn zeta.
  destruct (Z.eqb_spec (sched_setaffinity q 0 (sizeof_cpu_set_t q)) 0) as [_ | Hne].
  - unfold CPU_COUNT, CPU_ZERO. by rewrite popcount_zero.
  - destruct H as [H | (-> & Hle & H)]; [done |].
    rewrite affinity_loop_S. change (-1 =? -1) with true. cbn [andb].
    rewrite (proj2 (Z.leb_le _ _) Hle), H. change (0 =? 0) with true. cbn match.
    unfold CPU_COUNT_S, CPU_ZERO. rewrite popcount_zero.
    by rewrite affinity_loop_done.
Qed.

Lemma Linux_availableProcessors_zero_witness :
  Konan_Platform_availableProcessors (KONAN_LINUX true) linux_queries = Some 0.
Proof.
  apply Linux_availableProcessors_zero. right.
  split; [reflexivity |]. split; [vm_compute; discriminate | reflexivity].
Defined.

(** ** The number of processors *)

(** The cast of an unsigned count below 2^31 keeps it. *)
Lemma to_int_small (z : Z) : 0 <= z < 2 ^ 31 -> to_int z = z.
Proof. intros H. unfold to_int. rewrite Z.mod_small; lia. Qed.

Lemma to_int_big (z : Z) : 2 ^ 31 <= z < 2 ^ 32 -> to_int z = z - 2 ^ 32.
Proof.
  intros H. unfold to_int.
  replace (z + 2 ^ 31) with (z - 2 ^ 31 + 1 * 2 ^ 32) by lia.
  rewrite Z.mod_add by lia. rewrite Z.mod_small; lia.
Qed.

Lemma existsb_fmap {A B} (f : B -> bool) (g : A -> B) (l : list A) :
  existsb f (map g l) = existsb (fun a => f (g a)) l.
Proof. induction l as [| a l IH]; [reflexivity |]. cbn. by rewrite IH. Qed.

Lemma existsb_eq {A} (f g : A -> bool) (l : list A) :
  (forall a, f a = g a) -> existsb f l = existsb g l.
Proof. intros H. induction l as [| a l IH]; [reflexivity |]. cbn. by rewrite IH, H. Qed.

(** The loop answers 0 exactly when one of the calls it makes answers 0. *)
Lemma affinity_loop_spec (fuel : nat) (q : Queries) (call : nat) (cpus : Z) :
  1 <= cpus ->
  affinity_loop fuel q call (-1) cpus
  = if existsb (fun k => (cpus * 2 ^ Z.of_nat k <=? MAX_CPUS)
                         && (sched_setaffinity q (call + k)
                               (CPU_ALLOC_SIZE q (cpus * 2 ^ Z.of_nat k)) =? 0))
         (seq 0 fuel)
    then Some 0
    else if cpus * 2 ^ Z.of_nat fuel <=? MAX_CPUS then None else Some (-1).
Proof.
  revert call cpus. induction fuel as [| n IH]; intros call cpus Hc.
  - cbn [affinity_loop seq existsb]. change (-1 =? -1) with true. cbn [andb].
    change (Z.of_nat 0) with 0. rewrite Z.pow_0_r, Z.mul_1_r.
    by destruct (cpus <=? MAX_CPUS).
  - rewrite affinity_loop_S. change (-1 =? -1) with true. cbn [andb].
    cbn [seq existsb]. change (Z.of_nat 0) with 0.
    rewrite Z.pow_0_r, Z.mul_1_r, Nat.add_0_r.
    assert (Hmono : forall k, cpus <= cpus * 2 ^ Z.of_nat k).
    { intros k. assert (0 < 2 ^ Z.of_nat k) by (apply Z.pow_pos_nonneg; lia). nia. }
    destruct (cpus <=? MAX_CPUS) eqn:Hle; cbn [andb].
    + destruct (sched_setaffinity q call (CPU_ALLOC_SIZE q cpus) =? 0) eqn:Hs; cbn [orb].
      * unfold CPU_COUNT_S, CPU_ZERO. rewrite popcount_zero.
        by apply affinity_loop_done.
      * rewrite IH by lia. rewrite <- seq_shift, existsb_fmap.
        rewrite Nat2Z.inj_succ, Z.pow_succ_r by lia.
        replace (cpus * (2 * 2 ^ Z.of_nat n)) with (cpus * 2 * 2 ^ Z.of_nat n) by lia.
        erewrite existsb_eq; [reflexivity |].
        intros k. cbn beta. rewrite Nat2Z.inj_succ, Z.pow_succ_r by lia.
        replace (cpus * (2 * 2 ^ Z.of_nat k)) with (cpus * 2 * 2 ^ Z.of_nat k) by lia.
        by replace (call + S k)%nat with (S call + k)%nat by lia.
    + apply Z.leb_gt in Hle.
      assert (Hex : existsb (fun k => (cpus * 2 ^ Z.of_nat k <=? MAX_CPUS)
                         && (sched_setaffinity q (call + k)
                               (CPU_ALLOC_SIZE q (cpus * 2 ^ Z.of_nat k)) =? 0))
                      (seq 1 n) = false).
      { apply not_true_is_false. intros (k & _ & Hk)%existsb_exists.
        apply andb_true_iff in Hk as [Hk _]. apply Z.leb_le in Hk.
        specialize (Hmono k). lia. }
      rewrite Hex.
      assert (Hgt : (cpus * 2 ^ Z.of_nat (S n) <=? MAX_CPUS) = false)
        by (apply Z.leb_gt; specialize (Hmono (S n)); lia).
      by rewrite Hgt.
Qed.

(** [availableProcessorsFallback]: the count that the library reports when
    it is a positive [int], and 1 when the library reports 0 or a count that
    the cast to [int] makes negative; never below 1.  The branches without
    threads and for the other platforms return 1 and this value. *)
Theorem availableProcessorsFallback_positive (q : Queries) :
  1 <= availableProcessorsFallback q < 2 ^ 31 /\
  (0 < hardware_concurrency q < 2 ^ 31 ->
   availableProcessorsFallback q = hardware_concurrency q) /\
  (hardware_concurrency q = 0 \/ 2 ^ 31 <= hardware_concurrency q < 2 ^ 32 ->
   availableProcessorsFallback q = 1) /\
  Konan_Platform_availableProcessors KONAN_NO_THREADS q = Some 1 /\
  Konan_Platform_availableProcessors OtherPlatform q
  = Some (availableProcessorsFallback q).
Proof.
  split; [apply availableProcessorsFallback_range |].
  unfold availableProcessorsFallback. cbn zeta. repeat split.
  - intros H. rewrite to_int_small by lia.
    destruct (Z.leb_spec (hardware_concurrency q) 0); lia.
  - intros [H | H].
    + rewrite H. reflexivity.
    + rewrite to_int_big by lia.
      destruct (Z.leb_spec (hardware_concurrency q - 2 ^ 32) 0); lia.
Qed.

Lemma availableProcessorsFallback_positive_witness :
  availableProcessorsFallback linux_queries = 8 /\
  availableProcessorsFallback (mkQueries (2 ^ 32 - 1) (0, 0, 0) (fun _ _ => -1) 128 id) = 1.
Proof.
  split.
  - destruct (availableProcessorsFallback_positive linux_queries) as (_ & H & _).
    apply H. cbn. lia.
  - destruct (availableProcessorsFallback_positive
                (mkQueries (2 ^ 32 - 1) (0, 0, 0) (fun _ _ => -1) 128 id))
      as (_ & _ & H & _).
    apply H. right. cbn. lia.
Defined.

(** The Linux branch always returns, and what it returns is decided by the
    answers of [sched_setaffinity] alone: 0 when the first call answers 0 or,
    with CPU_ALLOC, when one of the calls of the loop (for set sizes of
    [cpus], [2 cpus], [4 cpus], ... processors, while at most [MAX_CPUS])
    answers 0; the fallback otherwise.  It never returns the size of an
    affinity set. *)
Theorem Linux_availableProcessors_result (cpu_alloc : bool) (q : Queries) :
  let cpus := availableProcessorsFallback q in
  Konan_Platform_availableProcessors (KONAN_LINUX cpu_alloc) q
  = Some (if (sched_setaffinity q 0 (sizeof_cpu_set_t q) =? 0)
             || cpu_alloc
                && existsb (fun k => (cpus * 2 ^ Z.of_nat k <=? MAX_CPUS)
                                     && (sched_setaffinity q (1 + k)
                                           (CPU_ALLOC_SIZE q (cpus * 2 ^ Z.of_nat k)) =? 0))
                     (seq 0 17)
          then 0 else cpus).
Proof.
  intros cpus. unfold Konan_Platform_availableProcessors. cbn zeta. fold cpus.
  destruct (sched_setaffinity q 0 (sizeof_cpu_set_t q) =? 0); cbn [orb].
  { unfold CPU_COUNT, CPU_ZERO. by rewrite popcount_zero. }
  destruct cpu_alloc; cbn [andb]; [| reflexivity].
  pose proof (availableProcessorsFallback_range q) as Hr. fold cpus in Hr.
  rewrite affinity_loop_spec by lia.
  destruct (existsb _ _); [reflexivity |].
  assert (Hgt : (cpus * 2 ^ Z.of_nat 17 <=? MAX_CPUS) = false).
  { apply Z.leb_gt. change MAX_CPUS with 65536. change (2 ^ Z.of_nat 17) with 131072. lia. }
  rewrite Hgt. reflexivity.
Qed.

(** [popcount] counts the bits that are set: from bit [k] on, [bits] of them. *)
Lemma popcount_testbit (bits : nat) (z : Z) (k : nat) :
  popcount bits (Z.shiftr z (Z.of_nat k))
  = Z.of_nat (length (List.filter (fun i => Z.testbit z (Z.of_nat i)) (seq k bits))).
Proof.
  revert k. induction bits as [| n IH]; intros k; [reflexivity |].
  cbn [popcount seq List.filter].
  rewrite <- Z.bit0_odd, Z.shiftr_spec by lia. rewrite Z.add_0_l.
  rewrite Z.div2_spec, Z.shiftr_shiftr by lia.
  replace (Z.of_nat k + 1) with (Z.of_nat (S k)) by lia. rewrite IH.
  destruct (Z.testbit z (Z.of_nat k)); cbn [Z.b2z length]; lia.
Qed.

Lemma builtin_popcountll_testbit (z : Z) :
  builtin_popcountll z
  = Z.of_nat (length (List.filter (fun i => Z.testbit z (Z.of_nat i)) (seq 0 64))).
Proof.
  unfold builtin_popcountll.
  pose proof (popcount_testbit 64 (z mod 2 ^ 64) 0) as H.
  change (Z.of_nat 0) with 0 in H. rewrite Z.shiftr_0_r in H. rewrite H.
  f_equal. f_equal. apply filter_ext_in. intros i Hi. apply in_seq in Hi.
  apply Z.mod_pow2_bits_low. lia.
Qed.

(** The Windows branch: the fallback when [GetProcessAffinityMask] does not
    answer [TRUE] or reports an empty process mask; otherwise, with the
    operand of [__builtin_popcountll] read as the system mask, the number of
    bits that are set among the low 64 bits of the system mask, which is at
    most 64, and which is zero exactly when these bits are all clear. *)
Theorem Windows_availableProcessors (q : Queries) (ok processMask systemMask : Z) :
  GetProcessAffinityMask q = (ok, processMask, systemMask) ->
  (ok <> TRUE \/ processMask = 0 ->
   Konan_Platform_availableProcessors KONAN_WINDOWS q
   = Some (availableProcessorsFallback q)) /\
  (ok = TRUE -> processMask <> 0 ->
   let n := Z.of_nat (length (List.filter (fun i => Z.testbit systemMask (Z.of_nat i))
                                (seq 0 64))) in
   Konan_Platform_availableProcessors KONAN_WINDOWS q = Some n /\
   0 <= n <= 64 /\ (n = 0 <-> systemMask mod 2 ^ 64 = 0)).
Proof.
  intros Hq. unfold Konan_Platform_availableProcessors. rewrite Hq. split.
  - intros [H | H].
    + by rewrite (proj2 (Z.eqb_neq ok TRUE) H).
    + rewrite H. change (0 =? 0) with true. by destruct (negb (ok =? TRUE)).
  - intros -> Hp. change (TRUE =? TRUE) with true. cbn [negb].
    rewrite (proj2 (Z.eqb_neq processMask 0) Hp).
    rewrite <- builtin_popcountll_testbit. split; [reflexivity |].
    unfold builtin_popcountll.
    pose proof (popcount_bounds 64 (systemMask mod 2 ^ 64)) as Hb.
    split; [exact Hb |]. split.
    + apply popcount_zero_inv. change (Z.of_nat 64) with 64.
      apply Z.mod_pos_bound. lia.
    + intros ->. apply popcount_zero.
Qed.

Lemma Windows_availableProcessors_witness :
  Konan_Platform_availableProcessors KONAN_WINDOWS windows_queries = Some 4 /\
  availableProcessorsFallback windows_queries = 8.
Proof.
  destruct (Windows_availableProcessors windows_queries 1 5 15 eq_refl) as [_ H].
  destruct H as [H _]; [reflexivity | lia |]. split; [exact H | reflexivity].
Defined.

(** ** Objects and arrays of the factory *)

Section RecordFacts.
Context {T : Target} {L : ObjectLayout}.

(** What the accessors of [NodeRef] find at a node whose data region holds a
    record with a type descriptor. *)
Lemma NodeRef_accessors (node : Z) (r : HeapRecord) (t : TypeInfo) (s : State) :
  IsAligned (size_add node DataOffset) DataAlignment = true ->
  objects s !! size_add node DataOffset = Some r ->
  record_typeInfo r = Some t ->
  NodeRef_color node s = Ok (record_gcData r) s /\
  NodeRef_IsArray node s = Ok (IsArray t) s /\
  NodeRef_GetObjHeader node s
  = (if IsArray t then AssertionFailed "Must not be an array" s
     else Ok (size_add (size_add node DataOffset) offsetof_HeapObjHeader_object) s) /\
  NodeRef_GetArrayHeader node s
  = (if IsArray t then Ok (size_add (size_add node DataOffset) offsetof_HeapArrayHeader_array) s
     else AssertionFailed "Must be an array" s).
Proof.
  intros Hal Hr Ht.
  unfold NodeRef_color, NodeRef_IsArray, NodeRef_GetObjHeader, NodeRef_GetArrayHeader,
    Data, get_record, type_info.
  run. rewrite Hal. run. rewrite Hr. run. rewrite Ht. run.
  by destruct (IsArray t).
Qed.

(** [setColor] stores the colour in the record, whatever the state. *)
Lemma NodeRef_setColor_spec (node : Z) (color : Color) (r : HeapRecord) (s : State) :
  IsAligned (size_add node DataOffset) DataAlignment = true ->
  objects s !! size_add node DataOffset = Some r ->
  NodeRef_setColor node color s
  = Ok tt (with_objects (insert (size_add node DataOffset) (record_setColor color r)) s).
Proof.
  intros Hal Hr. unfold NodeRef_setColor, Data, get_record, construct.
  run. rewrite Hal. run. rewrite Hr. by run.
Qed.

End RecordFacts.





(** [setColor] and [color]: the colour read back is the one stored, storing
    it again changes nothing, and the store touches nothing but the colour
    of this one record: its descriptor, the other records, the nodes and the
    queues stay as they are. *)
Theorem setColor_then_color {T : Target} (node : Z) (c : Color) (r : HeapRecord)
    (s : State) :
  IsAligned (size_add node DataOffset) DataAlignment = true ->
  objects s !! size_add node DataOffset = Some r ->
  exists s',
    NodeRef_setColor node c s = Ok tt s' /\
    NodeRef_color node s' = Ok c s' /\
    NodeRef_setColor node c s' = Ok tt s' /\
    (exists r', objects s' !! size_add node DataOffset = Some r' /\
                record_typeInfo r' = record_typeInfo r /\
                match r, r' with
                | HeapObjHeader _ _, HeapObjHeader _ _ => True
                | HeapArrayHeader _ _ n, HeapArrayHeader _ _ n' => n' = n
                | _, _ => False
                end) /\
    (forall a, a <> size_add node DataOffset -> objects s' !! a = objects s !! a) /\
    nodes s' = nodes s /\ storage s' = storage s /\ producers s' = producers s /\
    consumers s' = consumers s /\ trace s' = trace s.
Proof.
  intros Hal Hr. eexists. split; [by apply NodeRef_setColor_spec |].
  set (s' := with_objects _ s).
  assert (Hr' : objects s' !! size_add node DataOffset = Some (record_setColor c r))
    by apply lookup_insert_eq.
  split.
  { unfold NodeRef_color, Data, get_record. run. rewrite Hal. run.
    rewrite lookup_insert_eq. run. by destruct r. }
  split.
  { rewrite (NodeRef_setColor_spec node c _ s' Hal Hr'). f_equal.
    destruct s as [h st ps cs o t]. unfold s', with_objects. cbn. f_equal.
    rewrite insert_insert_eq. by destruct r. }
  split; [exists (record_setColor c r); split; [exact Hr' | by destruct r] |].
  split; [intros a Ha; by apply lookup_insert_ne |].
  by destruct s.
Qed.

Lemma setColor_then_color_witness :
  let s := final (@CreateObject (lp64 8) layout64 0 4096 (mkTypeInfo 24)
                    (final (@run (lp64 8) [OpNewProducer] None initial))) in
  exists s', @NodeRef_setColor (lp64 8) 4096 kBlack s = Ok tt s' /\
             @NodeRef_color (lp64 8) 4096 s' = Ok kBlack s'.
Proof.
  intros s.
  destruct (@setColor_then_color (lp64 8) 4096 kBlack
              (HeapObjHeader kWhite (Some (mkTypeInfo 24))) s) as (s' & H1 & H2 & _);
    [vm_compute; reflexivity | vm_compute; reflexivity |].
  exists s'. split; [exact H1 | exact H2].
Defined.

(** ** Sizes of objects and arrays *)



(** The data size of an object: [membersSize] is computed on [size_t] and
    wraps around when the instance size is below [sizeof(ObjHeader)], but
    the wrap cancels in the sum: the data size is
    [sizeof(HeapObjHeader) + instanceSize - sizeof(ObjHeader)] rounded up to
    the next multiple of [kObjectAlignment]. *)
Theorem ObjectAllocatedDataSize_value {T : Target} {L : ObjectLayout}
    (typeInfo : TypeInfo) :
  target_ok = true ->
  let size := sizeof_HeapObjHeader + instanceSize_ typeInfo - sizeof_ObjHeader in
  0 <= size -> size + kObjectAlignment <= SIZE_MOD ->
  ObjectAllocatedDataSize typeInfo = AlignUp size kObjectAlignment /\
  (kObjectAlignment | ObjectAllocatedDataSize typeInfo) /\
  size <= ObjectAllocatedDataSize typeInfo < size + kObjectAlignment.
Proof.
  intros HT size H0 Hov.
  destruct (target_ok_pow2 HT) as (Hb & Hs & k & j & Hk & Hdk & Hj & Haj).
  assert (Hpk : 0 < 2 ^ k) by (apply Z.pow_pos_nonneg; lia).
  assert (HM : 0 < SIZE_MOD) by (by apply SIZE_MOD_pos).
  assert (Hsum : size_add sizeof_HeapObjHeader
                   (size_sub (to_size_t (instanceSize_ typeInfo)) sizeof_ObjHeader) = size).
  { unfold size_add, size_sub, to_size_t.
    rewrite Zminus_mod_idemp_l, Zplus_mod_idemp_r.
    replace (sizeof_HeapObjHeader + (instanceSize_ typeInfo - sizeof_ObjHeader))
      with size by (unfold size; lia).
    unfold kObjectAlignment in Hov. apply Z.mod_small. lia. }
  unfold ObjectAllocatedDataSize. cbn zeta. rewrite Hsum.
  split; [reflexivity |].
  unfold kObjectAlignment in *. rewrite Hdk in *.
  assert (H2 : size + 2 ^ k - 1 < SIZE_MOD) by lia.
  destruct (AlignUp_bounds size k Hb Hk H0 H2) as (Hbd & Hdiv).
  split; [exact Hdiv | lia].
Qed.

Lemma ObjectAllocatedDataSize_value_witness :
  @ObjectAllocatedDataSize (lp64 8) layout64 (mkTypeInfo 4) = 16 /\
  @ObjectAllocatedDataSize (lp64 8) layout64 (mkTypeInfo 21) = 32.
Proof.
  split.
  - destruct (@ObjectAllocatedDataSize_value (lp64 8) layout64 (mkTypeInfo 4)) as [H _];
      [vm_compute; reflexivity | vm_compute; discriminate | vm_compute; discriminate |].
    rewrite H. vm_compute. reflexivity.
  - destruct (@ObjectAllocatedDataSize_value (lp64 8) layout64 (mkTypeInfo 21)) as [H _];
      [vm_compute; reflexivity | vm_compute; discriminate | vm_compute; discriminate |].
    rewrite H. vm_compute. reflexivity.
Defined.

(** The data size of an array never exceeds the header plus 2^32 - 1 bytes
    of members, rounded up, whatever the count: once the element size times
    the count reaches 2^32 plus the alignment, the block that [CreateArray]
    requests is smaller than the array which its header describes. *)
Theorem ArrayAllocatedDataSize_wraps {T : Target} {L : ObjectLayout}
    (typeInfo : TypeInfo) (count : Z) :
  target_ok = true -> layout_ok = true ->
  sizeof_HeapArrayHeader + 2 ^ 32 + kObjectAlignment <= SIZE_MOD ->
  ArrayAllocatedDataSize typeInfo count
    < sizeof_HeapArrayHeader + 2 ^ 32 + kObjectAlignment - 1 /\
  (2 ^ 32 + kObjectAlignment <= (- instanceSize_ typeInfo) * count ->
   ArrayAllocatedDataSize typeInfo count
     < sizeof_HeapArrayHeader + (- instanceSize_ typeInfo) * count).
Proof.
  intros HT HL Hov.
  destruct (target_ok_pow2 HT) as (Hb & Hs & k & j & Hk & Hdk & Hj & Haj).
  destruct (layout_ok_spec HL) as (_ & _ & Hh & _).
  assert (Hpk : 0 < 2 ^ k) by (apply Z.pow_pos_nonneg; lia).
  unfold ArrayAllocatedDataSize. cbn zeta.
  set (m := to_uint32 (to_uint32 (- instanceSize_ typeInfo) * count)).
  assert (Hm : 0 <= m < 2 ^ 32) by (apply Z.mod_pos_bound; lia).
  unfold kObjectAlignment in *. rewrite Hdk in *.
  rewrite size_add_small by lia.
  assert (H1 : 0 <= sizeof_HeapArrayHeader + m) by lia.
  assert (H2 : sizeof_HeapArrayHeader + m + 2 ^ k - 1 < SIZE_MOD) by lia.
  destruct (AlignUp_bounds (sizeof_HeapArrayHeader + m) k Hb Hk H1 H2) as (Hbd & _).
  split; [lia |]. intros Hbig. lia.
Qed.

Lemma ArrayAllocatedDataSize_wraps_witness :
  @ArrayAllocatedDataSize (lp64 8) layout64 (mkTypeInfo (-4)) (2 ^ 30 + 2)
    < 24 + 4 * (2 ^ 30 + 2).
Proof.
  destruct (@ArrayAllocatedDataSize_wraps (lp64 8) layout64 (mkTypeInfo (-4)) (2 ^ 30 + 2))
    as [_ H]; [vm_compute; reflexivity | vm_compute; reflexivity | vm_compute; discriminate |].
  apply H. vm_compute. discriminate.
Defined.

(** ** Lists of chains, by index *)

Lemma concat_insert_Permutation (lss : list (list Z)) (i : nat) (l l' : list Z) :
  lss !! i = Some l -> concat (<[i := l']> lss) ++ l ≡ₚ concat lss ++ l'.
Proof.
  intros Hi. apply lookup_split in Hi as (A & B & -> & <-).
  rewrite list_insert_middle, !concat_app, !concat_cons. solve_Permutation.
Qed.

Lemma concat_lookup_elem (lss : list (list Z)) (i : nat) (l : list Z) (a : Z) :
  lss !! i = Some l -> a ∈ l -> a ∈ concat lss.
Proof.
  intros Hi Ha. apply lookup_split in Hi as (A & B & -> & _).
  rewrite concat_app, concat_cons, !elem_of_app. auto.
Qed.

(** Chains at two places of a list without duplicates share no node. *)
Lemma NoDup_concat_lookup_ne (lss : list (list Z)) (i j : nat) (l1 l2 : list Z) (a b : Z) :
  NoDup (concat lss) -> lss !! i = Some l1 -> lss !! j = Some l2 -> i <> j ->
  a ∈ l1 -> b ∈ l2 -> a <> b.
Proof.
  intros Hnd Hi Hj Hij Ha Hb ->.
  apply lookup_split in Hi as (A & B & -> & <-).
  rewrite concat_app, concat_cons in Hnd.
  apply NoDup_app in Hnd as (_ & HA & Hnd). apply NoDup_app in Hnd as (_ & HB & _).
  destruct (decide (j < length A)%nat) as [Hlt | Hge].
  - rewrite lookup_app_l in Hj by done.
    apply (HA b); [by eapply concat_lookup_elem | rewrite elem_of_app; auto].
  - rewrite lookup_app_r in Hj by lia.
    destruct (j - length A)%nat as [| j'] eqn:E; [lia |]. cbn in Hj.
    apply (HB b Ha). by eapply concat_lookup_elem.
Qed.

Lemma NoDup_concat_lookup (lss : list (list Z)) (i : nat) (l : list Z) :
  NoDup (concat lss) -> lss !! i = Some l -> NoDup l.
Proof.
  intros Hnd Hi. apply lookup_split in Hi as (A & B & -> & _).
  rewrite concat_app, concat_cons in Hnd.
  apply NoDup_app in Hnd as (_ & _ & Hnd). by apply NoDup_app in Hnd as (? & _).
Qed.

Lemma list_insert_shadow {A} (l : list A) (i j : nat) (x y z : A) :
  i <> j -> <[i := x]> (<[j := y]> (<[i := z]> l)) = <[i := x]> (<[j := y]> l).
Proof.
  intros Hij. rewrite (list_insert_insert_ne _ j i) by done.
  by rewrite list_insert_insert_eq.
Qed.

(** Queues kept in a list, two of which an operation rewrites. *)
Lemma Forall2_update2 {Q} (R : gmap Z Z -> Q -> list Z -> Prop) (h h' : gmap Z Z)
    (qs : list Q) (lss : list (list Z)) (j k : nat) (lj lk lj' lk' : list Z) (qj' qk' : Q) :
  (forall q l, R h q l -> (forall a, a ∈ l -> h' !! a = h !! a) -> R h' q l) ->
  Forall2 (R h) qs lss -> NoDup (concat lss) ->
  lss !! j = Some lj -> lss !! k = Some lk -> j <> k ->
  (forall a, a ∈ concat lss -> a ∉ lj -> a ∉ lk -> h' !! a = h !! a) ->
  R h' qj' lj' -> R h' qk' lk' ->
  Forall2 (R h') (<[j := qj']> (<[k := qk']> qs)) (<[j := lj']> (<[k := lk']> lss)).
Proof.
  intros Hframe HF Hnd Hj Hk Hjk Hag Hqj Hqk.
  pose proof (Forall2_length _ _ _ HF) as Hlen.
  assert (Hjl : (j < length lss)%nat) by (by eapply lookup_lt_Some).
  assert (Hkl : (k < length lss)%nat) by (by eapply lookup_lt_Some).
  apply Forall2_same_length_lookup_2; [by rewrite !length_insert |].
  intros i q l Hq Hl.
  destruct (decide (i = j)) as [-> | Hij].
  { rewrite list_lookup_insert_eq in Hq by (rewrite length_insert; lia).
    rewrite list_lookup_insert_eq in Hl by (rewrite length_insert; lia).
    by simplify_eq. }
  rewrite list_lookup_insert_ne in Hq by done.
  rewrite list_lookup_insert_ne in Hl by done.
  destruct (decide (i = k)) as [-> | Hik].
  { rewrite list_lookup_insert_eq in Hq by lia.
    rewrite list_lookup_insert_eq in Hl by lia. by simplify_eq. }
  rewrite list_lookup_insert_ne in Hq by done.
  rewrite list_lookup_insert_ne in Hl by done.
  apply Hframe; [by eapply Forall2_lookup_lr |].
  intros a Ha. apply Hag.
  - by eapply concat_lookup_elem.
  - intros Ha'. by eapply (NoDup_concat_lookup_ne lss i j l lj a a).
  - intros Ha'. by eapply (NoDup_concat_lookup_ne lss i k l lk a a).
Qed.

(** The same when the operation rewrites one of them. *)
Lemma Forall2_update1 {Q} (R : gmap Z Z -> Q -> list Z -> Prop) (h h' : gmap Z Z)
    (qs : list Q) (lss : list (list Z)) (j : nat) (lj lj' : list Z) (qj' : Q) :
  (forall q l, R h q l -> (forall a, a ∈ l -> h' !! a = h !! a) -> R h' q l) ->
  Forall2 (R h) qs lss -> NoDup (concat lss) ->
  lss !! j = Some lj ->
  (forall a, a ∈ concat lss -> a ∉ lj -> h' !! a = h !! a) ->
  R h' qj' lj' ->
  Forall2 (R h') (<[j := qj']> qs) (<[j := lj']> lss).
Proof.
  intros Hframe HF Hnd Hj Hag Hqj.
  pose proof (Forall2_length _ _ _ HF) as Hlen.
  assert (Hjl : (j < length lss)%nat) by (by eapply lookup_lt_Some).
  apply Forall2_same_length_lookup_2; [by rewrite !length_insert |].
  intros i q l Hq Hl.
  destruct (decide (i = j)) as [-> | Hij].
  { rewrite list_lookup_insert_eq in Hq by lia.
    rewrite list_lookup_insert_eq in Hl by lia. by simplify_eq. }
  rewrite list_lookup_insert_ne in Hq by done.
  rewrite list_lookup_insert_ne in Hl by done.
  apply Hframe; [by eapply Forall2_lookup_lr |].
  intros a Ha. apply Hag.
  - by eapply concat_lookup_elem.
  - intros Ha'. by eapply (NoDup_concat_lookup_ne lss i j l lj a a).
Qed.

(** Nested updates of a list of records, as a run of assignments leaves
    them. *)
Ltac norm_inserts :=
  repeat first [rewrite list_insert_insert_eq | rewrite list_insert_shadow by done].

(** ** Merging consumers *)

Section LifetimeLemmas.
Context {T : Target}.

Lemma consumer_rep_frame h h' (c : Consumer.t) (l : list Z) :
  consumer_rep h c l -> (forall a, a ∈ l -> h' !! a = h !! a) -> consumer_rep h' c l.
Proof. intros Hq Hag. by eapply is_queue_agree. Qed.

Lemma producer_rep_frame h h' (p : Producer.t) (l : list Z) :
  producer_rep h p l -> (forall a, a ∈ l -> h' !! a = h !! a) -> producer_rep h' p l.
Proof. intros Hq Hag. by eapply is_queue_agree. Qed.

Lemma Represents_nodup_consumers s ls lps lcs :
  Represents s ls lps lcs -> NoDup (concat lcs).
Proof.
  intros HR. pose proof (rep_nodup _ _ _ _ HR) as H.
  apply NoDup_app in H as (_ & _ & H). by apply NoDup_app in H as (_ & _ & H).
Qed.

Lemma Represents_nodup_producers s ls lps lcs :
  Represents s ls lps lcs -> NoDup (concat lps).
Proof.
  intros HR. pose proof (rep_nodup _ _ _ _ HR) as H.
  apply NoDup_app in H as (_ & _ & H). by apply NoDup_app in H as (H & _).
Qed.

(** Merging with an empty consumer changes nothing. *)
Lemma Consumer_MergeWith_empty s ls lps lcs j k lj :
  Represents s ls lps lcs -> lcs !! j = Some lj -> lcs !! k = Some [] ->
  Consumer_MergeWith j k s = Ok tt s.
Proof.
  intros HR Hj Hk. destruct HR as [Hst Hps Hcs Hnd Hrg].
  destruct (Forall2_lookup_r _ _ _ _ _ Hcs Hj) as (cj & Hcj & Hqj).
  destruct (Forall2_lookup_r _ _ _ _ _ Hcs Hk) as (ck & Hck & Hqk).
  destruct ck as [rk lk sk]. apply is_queue_empty in Hqk as Hqk'. cbn in Hqk'.
  destruct Hqk' as (-> & -> & ->). destruct cj as [rj lastj sj].
  unfold Consumer_MergeWith, Consumer_AssertCorrect. run. rewrite Hcj. run.
  erewrite assert_correct_ok by (reflexivity || exact Hqj). run.
  rewrite Hck. run. rewrite Hcj. run.
  erewrite assert_correct_ok by (reflexivity || exact Hqj). reflexivity.
Qed.

Lemma Consumer_MergeWith_spec s ls lps lcs j k lj lk :
  target_ok = true ->
  Represents s ls lps lcs -> lcs !! j = Some lj -> lcs !! k = Some lk -> j <> k ->
  exists s', Consumer_MergeWith j k s = Ok tt s' /\
    Represents s' ls lps (<[j := lj ++ lk]> (<[k := []]> lcs)) /\
    storage s' = storage s /\ producers s' = producers s /\
    objects s' = objects s /\ trace s' = trace s /\
    length (consumers s') = length (consumers s).
Proof.
  intros HT HR Hj Hk Hjk.
  destruct lk as [| x0 lk0].
  { exists s. split; [by eapply Consumer_MergeWith_empty |].
    rewrite app_nil_r, (list_insert_id _ k []) by done.
    rewrite list_insert_id by done. done. }
  set (lk := x0 :: lk0) in *. assert (Hne : lk <> []) by done. clearbody lk.
  pose proof (target_ok_bits HT) as Hbits.
  pose proof (Represents_length _ _ _ _ Hbits HR) as Hlen.
  pose proof (Represents_nodup_consumers _ _ _ _ HR) as Hndc.
  destruct HR as [Hst Hps Hcs Hnd Hrg].
  destruct (Forall2_lookup_r _ _ _ _ _ Hcs Hj) as (cj & Hcj & Hqj).
  destruct (Forall2_lookup_r _ _ _ _ _ Hcs Hk) as (ck & Hck & Hqk).
  assert (Hjl : (j < length (consumers s))%nat) by (by eapply lookup_lt_Some).
  assert (Hkl : (k < length (consumers s))%nat) by (by eapply lookup_lt_Some).
  assert (Hsum : Z.of_nat (length lj) + Z.of_nat (length lk) < SIZE_MOD).
  { assert (Hle : (length lj + length lk <= length (concat lcs))%nat).
    { rewrite <- length_app.
      pose proof (concat_insert_Permutation lcs j lj [] Hj) as P1.
      assert (Hk' : <[j := []]> lcs !! k = Some lk) by (by rewrite list_lookup_insert_ne).
      pose proof (concat_insert_Permutation _ k lk [] Hk') as P2.
      rewrite app_nil_r in P1, P2.
      rewrite <- P1, <- P2, !length_app. lia. }
    rewrite !length_app in Hlen. lia. }
  destruct s as [h st ps cs objs tr]. cbn [nodes storage producers consumers objects trace] in *.
  destruct cj as [rj lastj sj]. destruct ck as [rk lastk sk].
  unfold consumer_rep in Hqj, Hqk. cbn in Hqj, Hqk.
  assert (Hrk : rk <> 0).
  { intros ->. apply Hne, (is_queue_root_null _ _ _ _ _ Hqk). reflexivity. }
  apply Z.eqb_neq in Hrk as Hrk'.
  assert (Hdisj : forall a b, a ∈ lj -> b ∈ lk -> a <> b)
    by (intros a b; by eapply NoDup_concat_lookup_ne).
  assert (Hndj : NoDup (lj ++ lk)).
  { apply NoDup_app. split; [by eapply NoDup_concat_lookup |].
    split; [| by eapply NoDup_concat_lookup].
    intros a Ha Hb. by apply (Hdisj a a). }
  (* the lists after the call *)
  assert (Hperm : concat (<[j := lj ++ lk]> (<[k := []]> lcs)) ≡ₚ concat lcs).
  { pose proof (concat_insert_Permutation lcs k lk [] Hk) as P1.
    assert (Hj' : <[k := []]> lcs !! j = Some lj) by (by rewrite list_lookup_insert_ne).
    pose proof (concat_insert_Permutation _ j lj (lj ++ lk) Hj') as P2.
    rewrite app_nil_r in P1.
    apply (Permutation_app_inv_r lj). rewrite P2, <- P1. solve_Permutation. }
  unfold Consumer_MergeWith, Consumer_AssertCorrect. run. rewrite Hcj. run.
  erewrite assert_correct_ok by (reflexivity || exact Hqj). run.
  rewrite Hck. run. rewrite Hrk'. run. rewrite Hcj. run.
  destruct lj as [| y lj0 _] using rev_ind.
  - apply is_queue_empty in Hqj as (-> & -> & ->). run.
    repeat (first [rewrite list_lookup_insert_eq by (rewrite ?length_insert; lia)
                  | rewrite list_lookup_insert_ne by done
                  | rewrite Hck | rewrite Hcj]; run).
    assert (Hq : is_queue h rk lastk (size_add 0 sk) lk).
    { destruct Hqk as (H1 & H2 & H3). rewrite size_add_small by (cbn in Hsum; lia). done. }
    erewrite assert_correct_ok by (reflexivity || exact Hq).
    eexists. split; [reflexivity |]. cbn.
    split; [| repeat split; by rewrite ?length_insert].
    split; cbn.
    + exact Hst.
    + exact Hps.
    + norm_inserts. rewrite (list_insert_insert_ne _ k j) by done.
      eapply (Forall2_update2 _ h h); eauto using consumer_rep_frame.
      apply is_queue_nil.
    + by rewrite Hperm.
    + exact Hrg.
  - apply is_queue_snoc in Hqj as Hqj'.
    destruct Hqj' as (Hrj & _ & -> & Hy0 & Hyn & _ & ->).
    apply Z.eqb_neq in Hrj as Hrj'. rewrite Hrj'. run. rewrite Hyn. run.
    repeat (first [rewrite list_lookup_insert_eq by (rewrite ?length_insert; lia)
                  | rewrite list_lookup_insert_ne by done
                  | rewrite Hck | rewrite Hcj | rewrite Hrj']; run).
    assert (Hq : is_queue (<[y := rk]> h) rj lastk
                   (size_add (Z.of_nat (length lj0) + 1) sk) ((lj0 ++ [y]) ++ lk)).
    { destruct Hqk as (H1 & H2 & H3).
      rewrite size_add_small by (rewrite length_app in Hsum; cbn [length] in Hsum; lia).
      apply is_queue_append; [exact Hqj | done | by destruct lj0 | exact Hne | exact Hndj]. }
    erewrite assert_correct_ok by (reflexivity || exact Hq).
    eexists. split; [reflexivity |]. cbn.
    split; [| repeat split; by rewrite ?length_insert].
    assert (Hyj : y ∈ lj0 ++ [y]) by (rewrite elem_of_app, elem_of_cons; auto).
    assert (Hyc : y ∈ concat lcs) by exact (concat_lookup_elem _ _ _ _ Hj Hyj).
    apply NoDup_app in Hnd as (Hnd1 & Hnd2 & Hnd3).
    apply NoDup_app in Hnd3 as (Hnd3 & Hnd4 & Hnd5).
    split; cbn.
    + eapply is_queue_agree; [| exact Hst]. intros a Ha.
      rewrite lookup_insert_ne; [done |]. intros <-.
      apply (Hnd2 y Ha). rewrite elem_of_app. auto.
    + eapply producers_frame; [| exact Hps]. intros a Ha.
      rewrite lookup_insert_ne; [done |]. intros <-. by apply (Hnd4 y Ha).
    + norm_inserts. rewrite (list_insert_insert_ne _ k j) by done.
      eapply (Forall2_update2 _ h); eauto using consumer_rep_frame.
      * intros a Ha Haj Hak. rewrite lookup_insert_ne; [done |]. by intros <-.
      * apply is_queue_nil.
    + rewrite Hperm. apply NoDup_app. split; [done |]. split; [done |].
      by apply NoDup_app.
    + apply map_Forall_insert_2; [| exact Hrg]. apply (Hrg y 0 Hyn).
Qed.

End LifetimeLemmas.

(** ** Freeing chains *)

Section FreeLemmas.
Context {T : Target}.

Lemma freed_nil s : freed [] s = s.
Proof. destruct s. unfold freed. cbn. by rewrite app_nil_r. Qed.

Lemma freed_app l1 l2 s : freed (l1 ++ l2) s = freed l2 (freed l1 s).
Proof. unfold freed. cbn. by rewrite !foldl_app, map_app, app_assoc. Qed.

Lemma freed_cons a l s : freed (a :: l) s = freed l (freed [a] s).
Proof. apply (freed_app [a] l). Qed.

Lemma foldl_delete_lookup (l : list Z) (h : gmap Z Z) (a : Z) :
  foldl (fun h a => delete a h) h l !! a = if decide (a ∈ l) then None else h !! a.
Proof.
  revert h. induction l as [| b l IH]; intros h; cbn.
  - destruct (decide (a ∈ [])) as [Hin | _]; [by apply elem_of_nil in Hin | done].
  - rewrite IH. destruct (decide (a ∈ l)) as [Hin | Hnin].
    + rewrite decide_True by (by apply elem_of_cons; right). done.
    + destruct (decide (a = b)) as [-> | Hab].
      * rewrite decide_True by (apply elem_of_cons; by left). apply lookup_delete_eq.
      * rewrite decide_False by (rewrite elem_of_cons; tauto).
        by apply lookup_delete_ne.
Qed.

Lemma nodes_freed l s a :
  nodes (freed l s) !! a = if decide (a ∈ l) then None else nodes s !! a.
Proof. apply foldl_delete_lookup. Qed.

(** [Allocator::Free] of a live node. *)
Lemma Free_freed a s : is_Some (nodes s !! a) -> Free a s = Ok tt (freed [a] s).
Proof.
  intros [v Hv]. destruct s as [h st ps cs objs tr]. cbn in Hv.
  unfold Free. run. rewrite Hv. by run.
Qed.

(** [~unique_ptr], with its nested destructors, frees a chain from its end
    back. *)
Lemma destroy_lseg (fuel : nat) (l : list Z) (s : State) (p : Z) :
  lseg (nodes s) p l 0 -> NoDup l -> (length l <= fuel)%nat ->
  destroy fuel p s = Ok tt (freed (reverse l) s).
Proof.
  revert fuel s p. induction l as [| a l IH]; intros fuel s p Hl Hnd Hf.
  - cbn in Hl. subst p. rewrite destroy_null. by rewrite freed_nil.
  - cbn in Hl. destruct Hl as (-> & Ha0 & nx & Hnx & Hl).
    apply NoDup_cons in Hnd as [Hal Hnd].
    destruct fuel as [| fuel]; [cbn in Hf; lia |]. cbn [destroy].
    apply Z.eqb_neq in Ha0 as ->.
    rewrite reverse_cons, freed_app.
    assert (Hlive : is_Some (nodes (freed (reverse l) s) !! a)).
    { rewrite nodes_freed, decide_False by (by rewrite elem_of_reverse). eauto. }
    unfold mbind, M_bind, bind, get_next. rewrite Hnx. cbv beta iota.
    rewrite (IH fuel s nx Hl Hnd) by (cbn in Hf; lia). cbv beta iota.
    by apply Free_freed.
Qed.

(** The loop of the destructors frees a chain from its head on. *)
Lemma destroy_loop_lseg (fuel : nat) (l : list Z) (s : State) (p : Z) :
  lseg (nodes s) p l 0 -> NoDup l -> (length l <= fuel)%nat ->
  destroy_loop fuel p s = Ok tt (freed l s).
Proof.
  revert fuel s p. induction l as [| a l IH]; intros fuel s p Hl Hnd Hf.
  - cbn in Hl. subst p. destruct fuel; cbn; by rewrite freed_nil.
  - cbn in Hl. destruct Hl as (-> & Ha0 & nx & Hnx & Hl).
    apply NoDup_cons in Hnd as [Hal Hnd].
    destruct fuel as [| fuel]; [cbn in Hf; lia |]. cbn [destroy_loop].
    apply Z.eqb_neq in Ha0 as Ha0'. rewrite Ha0'.
    rewrite freed_cons.
    assert (Hl' : lseg (nodes (freed [a] s)) nx l 0).
    { cbn. by apply lseg_delete_ne. }
    rewrite <- (IH fuel _ nx Hl' Hnd) by (cbn in Hf; lia).
    assert (Hstep : (set_next a 0;; destroy_unique_ptr a) s = Ok tt (freed [a] s)).
    { destruct s as [h st ps cs objs tr]. cbn in Hnx.
      unfold destroy_unique_ptr. run. rewrite Hnx. run.
      rewrite Ha0'. unfold Free. run. rewrite lookup_insert_eq. run.
      rewrite destroy_null. run. rewrite lookup_insert_eq. run.
      unfold freed. cbn. by rewrite delete_insert_eq. }
    revert Hstep. unfold mbind, M_bind, bind, get_next. rewrite Hnx. cbv beta iota.
    destruct (set_next a 0 s) as [[] s1 | | | |]; try discriminate.
    by intros ->.
Qed.

(** A chain of [n] live nodes needs no more fuel than there are live nodes. *)
Lemma lseg_length (h : gmap Z Z) (p : Z) (l : list Z) (q : Z) :
  lseg h p l q -> NoDup l -> (length l <= size h)%nat.
Proof.
  intros Hl Hnd.
  assert (Hsub : list_to_set (C := gset Z) l ⊆ dom h).
  { intros a Ha. apply elem_of_list_to_set in Ha.
    apply elem_of_dom. by eapply lseg_live. }
  apply subseteq_size in Hsub. rewrite size_list_to_set in Hsub by done.
  by rewrite size_dom in Hsub.
Qed.

(** Freeing nodes that are in no queue. *)
Lemma Represents_freed s ls lps lcs l :
  Represents s ls lps lcs ->
  (forall a, a ∈ l -> a ∉ ls ++ concat lps ++ concat lcs) ->
  Represents (freed l s) ls lps lcs.
Proof.
  intros HR Hout.
  eapply Represents_agree; [exact HR | | reflexivity | reflexivity | reflexivity |].
  - intros a Ha. rewrite nodes_freed, decide_False; [done |].
    intros Hal. by apply (Hout a).
  - intros a v Hv. rewrite nodes_freed in Hv.
    destruct (decide (a ∈ l)); [done |]. by apply (rep_range _ _ _ _ HR a v).
Qed.

End FreeLemmas.

(** ** Clearing, destroying and moving queues *)

Section ClearLemmas.
Context {T : Target}.

#[local] Arguments destroy : simpl never.
#[local] Arguments destroy_loop : simpl never.

Lemma NoDup_drop_storage (ls : list Z) (lps lcs : list (list Z)) :
  NoDup (ls ++ concat lps ++ concat lcs) -> NoDup ([] ++ concat lps ++ concat lcs).
Proof. intros H. by apply NoDup_app in H as (_ & _ & H). Qed.

(** The storage emptied and its nodes freed. *)
Lemma Represents_drop_storage s ls lps lcs l m :
  Represents s ls lps lcs -> (forall a, a ∈ l -> a ∈ ls) ->
  Represents (with_storage (fun _ => Storage.mk 0 0 0 m) (freed l s)) [] lps lcs.
Proof.
  intros [Hst Hps Hcs Hnd Hrg] Hl.
  assert (Hag : forall a, a ∈ concat lps ++ concat lcs ->
                          nodes (freed l s) !! a = nodes s !! a).
  { intros a Ha. rewrite nodes_freed, decide_False; [done |].
    intros Hal. apply NoDup_app in Hnd as (_ & Hnd & _). by apply (Hnd a (Hl a Hal)). }
  split; cbn.
  - apply is_queue_nil.
  - eapply producers_frame; [| exact Hps]. intros a Ha. apply Hag.
    rewrite elem_of_app. auto.
  - eapply consumers_frame; [| exact Hcs]. intros a Ha. apply Hag.
    rewrite elem_of_app. auto.
  - by eapply NoDup_drop_storage.
  - intros a v Hv. pose proof (nodes_freed l s a) as E. cbn in E. rewrite E in Hv.
    destruct (decide (a ∈ l)); [done |]. by apply (Hrg a v).
Qed.

Lemma concat_insert_nil_elem (lss : list (list Z)) (i : nat) (a : Z) :
  a ∈ concat (<[i := []]> lss) -> a ∈ concat lss.
Proof.
  destruct (lss !! i) as [l |] eqn:Hi.
  - intros Ha. pose proof (concat_insert_Permutation lss i l [] Hi) as P.
    rewrite app_nil_r in P. rewrite <- P, elem_of_app. auto.
  - rewrite list_insert_ge; [done |]. by apply lookup_ge_None.
Qed.

Lemma NoDup_insert_nil (pre post : list Z) (lss : list (list Z)) (i : nat) :
  NoDup (pre ++ concat lss ++ post) -> NoDup (pre ++ concat (<[i := []]> lss) ++ post).
Proof.
  destruct (lss !! i) as [l |] eqn:Hi.
  - pose proof (concat_insert_Permutation lss i l [] Hi) as P.
    rewrite app_nil_r in P.
    assert (P' : pre ++ concat lss ++ post
                 ≡ₚ l ++ (pre ++ concat (<[i := []]> lss) ++ post)).
    { rewrite <- P. solve_Permutation. }
    rewrite P'. intros H. by apply NoDup_app in H as (_ & _ & H).
  - rewrite list_insert_ge; [done |]. by apply lookup_ge_None.
Qed.

(** Producer [i] emptied and its nodes freed. *)
Lemma Represents_drop_producer s ls lps lcs i lp l :
  Represents s ls lps lcs -> lps !! i = Some lp -> (forall a, a ∈ l -> a ∈ lp) ->
  Represents (with_producers (fun ps => <[i := Producer.mk 0 0 0]> ps) (freed l s))
    ls (<[i := []]> lps) lcs.
Proof.
  intros HR Hi Hl. pose proof (Represents_nodup_producers _ _ _ _ HR) as Hndp.
  destruct HR as [Hst Hps Hcs Hnd Hrg].
  assert (Hlp : forall a, a ∈ l -> a ∈ concat lps)
    by (intros a Ha; eapply concat_lookup_elem; eauto).
  pose proof Hnd as Hnd'. apply NoDup_app in Hnd' as (_ & Hd1 & Hnd').
  apply NoDup_app in Hnd' as (_ & Hd2 & _).
  split; cbn.
  - eapply is_queue_agree; [| exact Hst]. intros a Ha.
    pose proof (nodes_freed l s a) as E. cbn in E. rewrite E, decide_False; [done |].
    intros Hal. apply (Hd1 a Ha). rewrite elem_of_app. auto.
  - eapply (Forall2_update1 _ (nodes s)); eauto using producer_rep_frame.
    + intros a Ha Hnl. pose proof (nodes_freed l s a) as E. cbn in E.
      rewrite E, decide_False; [done |]. intros Hal. auto.
    + apply is_queue_nil.
  - eapply consumers_frame; [| exact Hcs]. intros a Ha.
    pose proof (nodes_freed l s a) as E. cbn in E. rewrite E, decide_False; [done |].
    intros Hal. by apply (Hd2 a (Hlp a Hal)).
  - by apply NoDup_insert_nil.
  - intros a v Hv. pose proof (nodes_freed l s a) as E. cbn in E. rewrite E in Hv.
    destruct (decide (a ∈ l)); [done |]. by apply (Hrg a v).
Qed.

Lemma Storage_ClearForTests_spec s ls lps lcs :
  Represents s ls lps lcs ->
  Storage_ClearForTests s
  = Ok tt (with_storage (fun st => Storage.mk 0 0 0 (Storage.mutex_ st))
             (freed (reverse ls) s)).
Proof.
  intros [Hst Hps Hcs Hnd Hrg].
  assert (Hndl : NoDup ls) by (by apply NoDup_app in Hnd as (? & _)).
  destruct Hst as (Hl & _). pose proof (lseg_length _ _ _ _ Hl Hndl) as Hlen.
  destruct s as [h st ps cs objs tr]. destruct st as [root last sz m]. cbn in *.
  unfold Storage_ClearForTests, destroy_unique_ptr. run.
  rewrite (destroy_lseg _ ls) by (done || cbn; lia). by run.
Qed.

Lemma Producer_ClearForTests_spec s ls lps lcs i lp :
  Represents s ls lps lcs -> lps !! i = Some lp ->
  Producer_ClearForTests i s
  = Ok tt (with_producers (fun ps => <[i := Producer.mk 0 0 0]> ps)
             (freed (reverse lp) s)).
Proof.
  intros HR Hi. pose proof (Represents_nodup_producers _ _ _ _ HR) as Hndp.
  destruct HR as [Hst Hps Hcs Hnd Hrg].
  destruct (Forall2_lookup_r _ _ _ _ _ Hps Hi) as (p & Hpi & Hp).
  assert (Hndl : NoDup lp) by (by eapply NoDup_concat_lookup).
  destruct Hp as (Hl & _). pose proof (lseg_length _ _ _ _ Hl Hndl) as Hlen.
  assert (Hil : (i < length (producers s))%nat) by (by eapply lookup_lt_Some).
  destruct s as [h st ps cs objs tr]. destruct p as [root last sz]. cbn in *.
  unfold Producer_ClearForTests, destroy_unique_ptr. run. rewrite Hpi. run.
  rewrite (destroy_lseg _ lp) by (done || cbn; lia). run.
  repeat (rewrite list_lookup_insert_eq by (rewrite ?length_insert; lia); run).
  by rewrite !list_insert_insert_eq.
Qed.

(** The destructor of the storage: the same nodes, from the head on.  The
    members [last_] and [size_] of the dead object keep their values. *)
Lemma Storage_destroy_spec s ls lps lcs :
  Represents s ls lps lcs ->
  Storage_destroy s
  = Ok tt (with_storage (fun st => Storage.mk 0 (Storage.last_ st) (Storage.size_ st)
                                     (Storage.mutex_ st)) (freed ls s)).
Proof.
  intros [Hst Hps Hcs Hnd Hrg].
  assert (Hndl : NoDup ls) by (by apply NoDup_app in Hnd as (? & _)).
  destruct Hst as (Hl & _). pose proof (lseg_length _ _ _ _ Hl Hndl) as Hlen.
  destruct s as [h st ps cs objs tr]. destruct st as [root last sz m]. cbn in *.
  unfold Storage_destroy. run.
  rewrite (destroy_loop_lseg _ ls) by (done || cbn; lia). by run.
Qed.

Lemma Consumer_destroy_spec s ls lps lcs j lj c :
  Represents s ls lps lcs -> lcs !! j = Some lj -> consumers s !! j = Some c ->
  Consumer_destroy j s
  = Ok tt (with_consumers
             (fun cs => <[j := Consumer.mk 0 (Consumer.last_ c) (Consumer.size_ c)]> cs)
             (freed lj s)).
Proof.
  intros HR Hj Hcj. pose proof (Represents_nodup_consumers _ _ _ _ HR) as Hndc.
  destruct HR as [Hst Hps Hcs Hnd Hrg].
  pose proof (Forall2_lookup_lr _ _ _ _ _ _ Hcs Hcj Hj) as Hq.
  assert (Hndl : NoDup lj) by (by eapply NoDup_concat_lookup).
  destruct Hq as (Hl & _). pose proof (lseg_length _ _ _ _ Hl Hndl) as Hlen.
  destruct s as [h st ps cs objs tr]. destruct c as [root last sz]. cbn in *.
  unfold Consumer_destroy. run. rewrite Hcj. run.
  rewrite (destroy_loop_lseg _ lj) by (done || cbn; lia). by run.
Qed.

End ClearLemmas.

Section MoveLemmas.
Context {T : Target}.

#[local] Arguments destroy : simpl never.
#[local] Arguments destroy_loop : simpl never.

Lemma Consumer_move_spec s k ck :
  consumers s !! k = Some ck ->
  Consumer_move k s
  = Ok (length (consumers s))
      (with_consumers (fun cs => <[k := Consumer.mk 0 0 0]> cs ++ [ck]) s).
Proof.
  intros Hck. assert (Hkl : (k < length (consumers s))%nat) by (by eapply lookup_lt_Some).
  destruct s as [h st ps cs objs tr]. destruct ck as [rk lastk sk]. cbn in *.
  unfold Consumer_move, Consumer_new. run.
  repeat (first [rewrite list_lookup_insert_eq
                   by (rewrite ?length_insert, ?length_app; cbn; lia)
                | rewrite list_lookup_insert_ne by lia
                | rewrite (list_lookup_middle cs []) by reflexivity
                | rewrite (lookup_app_l cs) by lia
                | rewrite Hck]; run).
  do 3 f_equal.
  repeat first [rewrite list_insert_insert_eq
               | rewrite list_insert_shadow by lia].
  rewrite (insert_app_r_alt cs) by lia. rewrite Nat.sub_diag. cbn.
  by rewrite insert_app_l by lia.
Qed.

Lemma Represents_move s ls lps lcs k lk ck :
  Represents s ls lps lcs -> lcs !! k = Some lk -> consumers s !! k = Some ck ->
  Represents (with_consumers (fun cs => <[k := Consumer.mk 0 0 0]> cs ++ [ck]) s)
    ls lps (<[k := []]> lcs ++ [lk]).
Proof.
  intros HR Hk Hck. pose proof (Represents_nodup_consumers _ _ _ _ HR) as Hndc.
  destruct HR as [Hst Hps Hcs Hnd Hrg].
  pose proof (Forall2_lookup_lr _ _ _ _ _ _ Hcs Hck Hk) as Hq.
  split; cbn; [exact Hst | exact Hps | | | exact Hrg].
  - apply Forall2_app; [| by constructor].
    eapply (Forall2_update1 _ (nodes s)); eauto using consumer_rep_frame.
    apply is_queue_nil.
  - assert (P : concat (<[k := []]> lcs ++ [lk]) ≡ₚ concat lcs).
    { rewrite concat_app. cbn. rewrite app_nil_r.
      pose proof (concat_insert_Permutation lcs k lk [] Hk) as P.
      by rewrite app_nil_r in P. }
    by rewrite P.
Qed.

(** Assigning a consumer to itself changes nothing. *)
Lemma Consumer_move_assign_self s j c :
  consumers s !! j = Some c -> Consumer_move_assign j j s = Ok tt s.
Proof.
  intros Hcj. assert (Hjl : (j < length (consumers s))%nat) by (by eapply lookup_lt_Some).
  destruct s as [h st ps cs objs tr]. destruct c as [r l n]. cbn in *.
  unfold Consumer_move_assign. run. rewrite Hcj. run.
  repeat (rewrite list_lookup_insert_eq by (rewrite ?length_insert; lia); run).
  unfold destroy_loop. destruct (size h); run;
    by rewrite !list_insert_insert_eq, list_insert_id.
Qed.

Lemma Consumer_move_assign_spec s ls lps lcs j k lj cj ck :
  Represents s ls lps lcs -> lcs !! j = Some lj ->
  consumers s !! j = Some cj -> consumers s !! k = Some ck -> j <> k ->
  Consumer_move_assign j k s
  = Ok tt (with_consumers (fun cs => <[j := ck]> (<[k := Consumer.mk 0 0 0]> cs))
             (freed lj s)).
Proof.
  intros HR Hj Hcj Hck Hjk. pose proof (Represents_nodup_consumers _ _ _ _ HR) as Hndc.
  destruct HR as [Hst Hps Hcs Hnd Hrg].
  pose proof (Forall2_lookup_lr _ _ _ _ _ _ Hcs Hcj Hj) as Hq.
  assert (Hndl : NoDup lj) by (by eapply NoDup_concat_lookup).
  destruct Hq as (Hl & _). pose proof (lseg_length _ _ _ _ Hl Hndl) as Hlen.
  assert (Hjl : (j < length (consumers s))%nat) by (by eapply lookup_lt_Some).
  assert (Hkl : (k < length (consumers s))%nat) by (by eapply lookup_lt_Some).
  destruct s as [h st ps cs objs tr]. destruct cj as [rj lastj sj].
  destruct ck as [rk lastk sk]. cbn in *.
  unfold Consumer_move_assign. run. rewrite Hck. run.
  repeat (first [rewrite list_lookup_insert_eq by (rewrite ?length_insert; lia)
                | rewrite list_lookup_insert_ne by done
                | rewrite Hcj]; run).
  rewrite (destroy_loop_lseg _ lj) by (done || cbn; lia).
  unfold freed. cbn. by rewrite !list_insert_insert_eq.
Qed.

Lemma Represents_move_assign s ls lps lcs j k lj lk ck :
  Represents s ls lps lcs -> lcs !! j = Some lj -> lcs !! k = Some lk ->
  consumers s !! k = Some ck -> j <> k ->
  Represents (with_consumers (fun cs => <[j := ck]> (<[k := Consumer.mk 0 0 0]> cs))
                (freed lj s))
    ls lps (<[j := lk]> (<[k := []]> lcs)).
Proof.
  intros HR Hj Hk Hck Hjk. pose proof (Represents_nodup_consumers _ _ _ _ HR) as Hndc.
  destruct HR as [Hst Hps Hcs Hnd Hrg].
  pose proof (Forall2_lookup_lr _ _ _ _ _ _ Hcs Hck Hk) as Hq.
  assert (Hljc : forall a, a ∈ lj -> a ∈ concat lcs)
    by (intros a Ha; exact (concat_lookup_elem _ _ _ _ Hj Ha)).
  pose proof Hnd as Hnd'. apply NoDup_app in Hnd' as (_ & Hd1 & Hnd').
  apply NoDup_app in Hnd' as (_ & Hd2 & _).
  assert (Hfr : forall a, a ∉ lj -> nodes (freed lj s) !! a = nodes s !! a).
  { intros a Ha. by rewrite nodes_freed, decide_False. }
  split; cbn.
  - eapply is_queue_agree; [| exact Hst]. intros a Ha. apply Hfr.
    intros Hal. apply (Hd1 a Ha). rewrite elem_of_app. auto.
  - eapply producers_frame; [| exact Hps]. intros a Ha. apply Hfr.
    intros Hal. by apply (Hd2 a Ha), Hljc.
  - eapply (Forall2_update2 _ (nodes s)); eauto using consumer_rep_frame.
    + eapply consumer_rep_frame; [exact Hq |]. intros a Ha. apply Hfr.
      intros Hal. by eapply (NoDup_concat_lookup_ne lcs j k lj lk a a).
    + apply is_queue_nil.
  - assert (Hj' : <[k := []]> lcs !! j = Some lj) by (by rewrite list_lookup_insert_ne).
    pose proof (concat_insert_Permutation lcs k lk [] Hk) as P1.
    pose proof (concat_insert_Permutation _ j lj lk Hj') as P2.
    rewrite app_nil_r in P1.
    assert (P : ls ++ concat lps ++ concat lcs
                ≡ₚ lj ++ (ls ++ concat lps ++ concat (<[j := lk]> (<[k := []]> lcs)))).
    { rewrite <- P1.
      transitivity (ls ++ concat lps ++ (concat (<[k := []]> lcs) ++ lk));
        [done |]. rewrite <- P2. solve_Permutation. }
    rewrite P in Hnd. by apply NoDup_app in Hnd as (_ & _ & Hnd).
  - intros a v Hv. pose proof (nodes_freed lj s a) as E. cbn in E. rewrite E in Hv.
    destruct (decide (a ∈ lj)); [done |]. by apply (Hrg a v).
Qed.

(** Merging a consumer with itself: it ends empty, and its nodes, still
    allocated, are in no queue any more. *)
Lemma Consumer_MergeWith_self s ls lps lcs j lj c :
  Represents s ls lps lcs -> lcs !! j = Some lj -> lj <> [] ->
  consumers s !! j = Some c ->
  Consumer_MergeWith j j s
  = Ok tt (with_consumers (fun cs => <[j := Consumer.mk 0 0 0]> cs)
             (with_nodes (insert (Consumer.last_ c) (Consumer.root_ c)) s)).
Proof.
  intros HR Hj Hne Hcj.
  destruct HR as [Hst Hps Hcs Hnd Hrg].
  pose proof (Forall2_lookup_lr _ _ _ _ _ _ Hcs Hcj Hj) as Hq.
  assert (Hjl : (j < length (consumers s))%nat) by (by eapply lookup_lt_Some).
  destruct s as [h st ps cs objs tr]. destruct c as [rj lastj sj]. cbn in *.
  unfold consumer_rep in Hq. cbn in Hq.
  assert (Hr : rj <> 0).
  { intros ->. apply Hne, (is_queue_root_null _ _ _ _ _ Hq). reflexivity. }
  apply Z.eqb_neq in Hr as Hr'.
  destruct (is_queue_fields _ _ _ _ _ Hq) as (_ & _ & Hlast). specialize (Hlast Hr).
  unfold Consumer_MergeWith, Consumer_AssertCorrect. run. rewrite Hcj. run.
  erewrite assert_correct_ok by (reflexivity || exact Hq). run.
  repeat (first [rewrite list_lookup_insert_eq by (rewrite ?length_insert; lia)
                | rewrite Hcj | rewrite Hr' | rewrite Hlast]; run).
  unfold assert_correct. run. by rewrite !list_insert_insert_eq.
Qed.

End MoveLemmas.

(** ** Calls that neither allocate nor free *)

Lemma keeps_heap_ret {A} (a : A) : keeps_heap (mret a).
Proof. intros s a' s' H. by inversion H. Qed.

Lemma keeps_heap_bind {A B} (m : M A) (f : A -> M B) :
  keeps_heap m -> (forall a, keeps_heap (f a)) -> keeps_heap (m ≫= f).
Proof.
  intros Hm Hf s b s' H. apply bind_Ok_inv in H as (a & s1 & H1 & H2).
  destruct (Hm _ _ _ H1) as [E1 E2]. destruct (Hf a _ _ _ H2) as [E3 E4].
  split; congruence.
Qed.

Lemma keeps_heap_if {A} (b : bool) (m1 m2 : M A) :
  keeps_heap m1 -> keeps_heap m2 -> keeps_heap (if b then m1 else m2).
Proof. by destruct b. Qed.

Lemma keeps_heap_fail {A} (m : M A) :
  (forall s a s', m s <> Ok a s') -> keeps_heap m.
Proof. intros H s a s' E. by destruct (H s a s'). Qed.

Lemma keeps_heap_modify (f : State -> State) :
  (forall s, nodes (f s) = nodes s /\ objects (f s) = objects s) -> keeps_heap (modify f).
Proof. intros Hf s a s' H. inversion H; subst. by destruct (Hf s) as [-> ->]. Qed.

Lemma keeps_heap_read {A} (g : State -> option A) :
  keeps_heap (fun s => match g s with Some a => Ok a s | None => Undefined end).
Proof. intros s a s' H. destruct (g s); by inversion H. Qed.

Lemma keeps_heap_get_storage : keeps_heap get_storage.
Proof. intros s a s' H. by inversion H. Qed.

Lemma keeps_heap_get : keeps_heap get.
Proof. intros s a s' H. by inversion H. Qed.

Lemma keeps_heap_get_next p : keeps_heap (get_next p).
Proof. apply (keeps_heap_read (fun s => nodes s !! p)). Qed.

Lemma keeps_heap_get_producer i : keeps_heap (get_producer i).
Proof. apply (keeps_heap_read (fun s => producers s !! i)). Qed.

Lemma keeps_heap_get_consumer j : keeps_heap (get_consumer j).
Proof. apply (keeps_heap_read (fun s => consumers s !! j)). Qed.

Lemma keeps_heap_set_next p v : keeps_heap (set_next p v).
Proof.
  intros s a s' H. unfold set_next in H. destruct (nodes s !! p) as [w |] eqn:E;
    inversion H; subst. cbn. split; [| done].
  rewrite dom_insert_L. apply elem_of_dom_2 in E. set_solver.
Qed.

Lemma keeps_heap_set_storage st : keeps_heap (set_storage st).
Proof. by apply keeps_heap_modify. Qed.

Lemma keeps_heap_set_producer i p : keeps_heap (set_producer i p).
Proof. by apply keeps_heap_modify. Qed.

Lemma keeps_heap_set_consumer j c : keeps_heap (set_consumer j c).
Proof. by apply keeps_heap_modify. Qed.

Lemma keeps_heap_emit e : keeps_heap (emit e).
Proof. by apply keeps_heap_modify. Qed.

Lemma keeps_heap_RuntimeAssert b msg : keeps_heap (RuntimeAssert b msg).
Proof. intros s a s' H. unfold RuntimeAssert in H. destruct b; by inversion H. Qed.

Lemma keeps_heap_lock : keeps_heap lock.
Proof.
  intros s a s' H. unfold lock in H. destruct (Storage.mutex_ (storage s)); by inversion H.
Qed.

Lemma keeps_heap_unlock : keeps_heap unlock.
Proof. by apply keeps_heap_modify. Qed.

Lemma keeps_heap_when b m : keeps_heap m -> keeps_heap (when b m).
Proof. intros H. destruct b; [exact H | apply keeps_heap_ret]. Qed.

Create HintDb keeps_heap.

#[export] Hint Resolve keeps_heap_ret keeps_heap_get_storage keeps_heap_get
  keeps_heap_get_next keeps_heap_get_producer keeps_heap_get_consumer
  keeps_heap_set_next keeps_heap_set_storage keeps_heap_set_producer
  keeps_heap_set_consumer keeps_heap_emit keeps_heap_RuntimeAssert keeps_heap_lock
  keeps_heap_unlock keeps_heap_when keeps_heap_if : keeps_heap.

(** The rules, applied along the text of a function. *)
Ltac keeps_heap :=
  repeat first
    [ solve [auto with keeps_heap]
    | apply keeps_heap_bind; [| intros ?]
    | apply keeps_heap_if
    | apply keeps_heap_when ].

Section KeepsHeap.
Context {T : Target}.

Lemma keeps_heap_assert_correct root last : keeps_heap (assert_correct root last).
Proof. unfold assert_correct. keeps_heap. Qed.

Lemma keeps_heap_Publish i : keeps_heap (Publish i).
Proof.
  unfold Publish, Producer_AssertCorrect, AssertCorrectUnsafe.
  pose proof keeps_heap_assert_correct. keeps_heap.
Qed.

Lemma keeps_heap_Consumer_Insert j node : keeps_heap (Consumer_Insert j node).
Proof.
  unfold Consumer_Insert, Consumer_AssertCorrect.
  pose proof keeps_heap_assert_correct. keeps_heap.
Qed.

Lemma keeps_heap_ExtractUnsafe previousNode : keeps_heap (ExtractUnsafe previousNode).
Proof.
  unfold ExtractUnsafe, AssertCorrectUnsafe.
  pose proof keeps_heap_assert_correct. keeps_heap.
Qed.

Lemma keeps_heap_MoveAndAdvance j it : keeps_heap (MoveAndAdvance j it).
Proof.
  unfold MoveAndAdvance.
  pose proof keeps_heap_ExtractUnsafe. pose proof keeps_heap_Consumer_Insert. keeps_heap.
Qed.

Lemma keeps_heap_Consumer_MergeWith j k : keeps_heap (Consumer_MergeWith j k).
Proof.
  unfold Consumer_MergeWith, Consumer_AssertCorrect.
  pose proof keeps_heap_assert_correct. keeps_heap.
Qed.

Lemma keeps_heap_Iterator_incr it : keeps_heap (Iterator_incr it).
Proof. unfold Iterator_incr. keeps_heap. Qed.

Lemma keeps_heap_Producer_new : keeps_heap Producer_new.
Proof. unfold Producer_new. keeps_heap. by apply keeps_heap_modify. Qed.

Lemma keeps_heap_Consumer_new : keeps_heap Consumer_new.
Proof. unfold Consumer_new. keeps_heap. by apply keeps_heap_modify. Qed.

Lemma keeps_heap_Consumer_move k : keeps_heap (Consumer_move k).
Proof. unfold Consumer_move. pose proof keeps_heap_Consumer_new. keeps_heap. Qed.

(** [Producer::Insert] makes one node live. *)
Lemma Producer_Insert_heap i answer dataSize s r s' :
  Producer_Insert i answer dataSize s = Ok r s' ->
  r = answer /\ dom (nodes s') = {[answer]} ∪ dom (nodes s) /\ objects s' = objects s.
Proof.
  intros H. unfold Producer_Insert in H.
  apply bind_Ok_inv in H as ([] & s1 & H1 & H).
  apply bind_Ok_inv in H as (node & s2 & H2 & H).
  assert (Hk1 : keeps_heap (Producer_AssertCorrect i)).
  { unfold Producer_AssertCorrect. pose proof keeps_heap_assert_correct. keeps_heap. }
  destruct (Hk1 _ _ _ H1) as [Hd1 Ho1].
  assert (Hc : node = answer /\ dom (nodes s2) = {[answer]} ∪ dom (nodes s1) /\
               objects s2 = objects s1).
  { rewrite Create_cases in H2. cbn zeta in H2.
    repeat match type of H2 with (if ?b then _ else _) = _ =>
      destruct b; [discriminate |] end.
    inversion H2; subst. cbn. by rewrite dom_insert_L. }
  destruct Hc as (-> & Hd2 & Ho2).
  assert (Hk3 : forall nodePtr, keeps_heap
    (p ← get_producer i;
     (if Producer.root_ p =? 0
      then set_producer i (Producer.mk answer (Producer.last_ p) (Producer.size_ p))
      else set_next (Producer.last_ p) answer);;
     p ← get_producer i;
     set_producer i (Producer.mk (Producer.root_ p) nodePtr (Producer.size_ p));;
     p ← get_producer i;
     set_producer i (Producer.mk (Producer.root_ p) (Producer.last_ p)
                       (size_add (Producer.size_ p) 1));;
     p ← get_producer i;
     RuntimeAssert (negb (Producer.root_ p =? 0)) "Must not be empty";;
     Producer_AssertCorrect i;;
     mret nodePtr)).
  { intros nodePtr. keeps_heap. }
  assert (Hr : r = answer).
  { revert H. clear. intros H.
    repeat (apply bind_Ok_inv in H as (? & ? & _ & H)). by inversion H. }
  destruct (Hk3 answer _ _ _ H) as [Hd3 Ho3].
  split; [exact Hr |]. split; congruence.
Qed.

End KeepsHeap.

(** ** What every call keeps *)

Lemma concat_insert_elem (lss : list (list Z)) (i : nat) (l l' : list Z) (a : Z) :
  lss !! i = Some l -> a ∈ concat lss -> (a ∈ l -> a ∈ l') ->
  a ∈ concat (<[i := l']> lss).
Proof.
  intros Hi Ha Hl. pose proof (concat_insert_Permutation lss i l l' Hi) as P.
  assert (Hin : a ∈ concat (<[i := l']> lss) ++ l).
  { rewrite P, elem_of_app. auto. }
  apply elem_of_app in Hin as [Hin | Hin]; [done |].
  eapply (concat_lookup_elem _ i l'); [| by apply Hl].
  apply list_lookup_insert_eq. by eapply lookup_lt_Some.
Qed.

(** Without the chain at [i], a node of the other chains stays. *)
Lemma concat_insert_elem_ne (lss : list (list Z)) (i : nat) (l l' : list Z) (a : Z) :
  lss !! i = Some l -> a ∈ concat lss -> a ∉ l -> a ∈ concat (<[i := l']> lss).
Proof. intros Hi Ha Hl. eapply concat_insert_elem; eauto. by intros ?. Qed.

Section InvariantLemmas.
Context {T : Target}.

Lemma tight_keeps s s' all all' :
  dom (nodes s') ⊆ dom (nodes s) -> tight s all ->
  (forall a, a ∈ all -> is_Some (nodes s' !! a) -> a ∈ all') -> tight s' all'.
Proof.
  intros Hd Ht Hall a Ha. apply Hall; [| done]. apply Ht.
  apply elem_of_dom. apply Hd. by apply elem_of_dom.
Qed.

Lemma records_keeps s s' :
  dom (nodes s') ⊆ dom (nodes s) ->
  (forall a, is_Some (nodes s' !! a) ->
             objects s' !! size_add a DataOffset = objects s !! size_add a DataOffset) ->
  records_ok s -> records_ok s'.
Proof.
  intros Hd Ho Hr a Ha. destruct (Hr a) as (Hal & r & t & Hrec & Ht).
  { apply elem_of_dom. apply Hd. by apply elem_of_dom. }
  split; [exact Hal |]. exists r, t. by rewrite Ho.
Qed.

Lemma FInv_keeps ty s s' cursor' ls lps lcs ls' lps' lcs' :
  Represents s' ls' lps' lcs' -> cursor_ok s' ls' cursor' ->
  tight s (ls ++ concat lps ++ concat lcs) -> (ty = true -> records_ok s) ->
  dom (nodes s') = dom (nodes s) -> objects s' = objects s ->
  (forall a, a ∈ ls ++ concat lps ++ concat lcs -> a ∈ ls' ++ concat lps' ++ concat lcs') ->
  FInv ty s' cursor'.
Proof.
  intros HR Hc Ht Hrec Hd Ho Hall. exists ls', lps', lcs'.
  split; [exact HR |]. split; [exact Hc |]. split.
  - eapply tight_keeps; [by rewrite Hd | exact Ht | auto].
  - intros Hty. eapply records_keeps; [by rewrite Hd | by rewrite Ho | auto].
Qed.

(** Distinct nodes have distinct data regions. *)
Lemma Data_inj (a b : Z) :
  0 < size_bits -> 0 <= a < SIZE_MOD -> 0 <= b < SIZE_MOD ->
  size_add a DataOffset = size_add b DataOffset -> a = b.
Proof.
  intros Hb Ha Hb' E.
  rewrite <- (to_size_t_add_sub a DataOffset Hb Ha),
          <- (to_size_t_add_sub b DataOffset Hb Hb'). by rewrite E.
Qed.

Lemma foldl_delete_data_lookup (l : list Z) (o : gmap Z HeapRecord) (d : Z) :
  (forall a, a ∈ l -> size_add a DataOffset <> d) ->
  foldl (fun o a => delete (size_add a DataOffset) o) o l !! d = o !! d.
Proof.
  revert o. induction l as [| b l IH]; intros o Hl; cbn; [done |].
  rewrite IH by (intros a Ha; apply Hl; by apply elem_of_cons; right).
  apply lookup_delete_ne. apply Hl. apply elem_of_cons. by left.
Qed.

(** Freeing nodes removes their records. *)
Lemma foldl_delete_data_gone (l : list Z) (o : gmap Z HeapRecord) (a : Z) :
  a ∈ l -> foldl (fun o a => delete (size_add a DataOffset) o) o l
           !! size_add a DataOffset = None.
Proof.
  revert o. induction l as [| b l IH]; intros o Ha; [by apply elem_of_nil in Ha |].
  cbn [foldl]. destruct (decide (a ∈ l)) as [Hl | Hl]; [by apply IH |].
  apply elem_of_cons in Ha as [-> | Ha]; [| done].
  clear IH Hl. revert o. induction l as [| c l IH]; intros o; cbn [foldl].
  - apply lookup_delete_eq.
  - destruct (decide (size_add c DataOffset = size_add b DataOffset)) as [E | E].
    + rewrite E. rewrite delete_delete_eq. apply IH.
    + rewrite delete_delete. apply IH.
Qed.

(** Freeing nodes keeps the records of the others. *)
Lemma records_freed s ls lps lcs l :
  0 < size_bits -> Represents s ls lps lcs ->
  (forall a, a ∈ l -> is_Some (nodes s !! a)) ->
  records_ok s -> records_ok (freed l s).
Proof.
  intros Hb HR Hl Hrec a Ha. rewrite nodes_freed in Ha.
  destruct (decide (a ∈ l)) as [| Hal]; [by destruct Ha |].
  destruct (Hrec a Ha) as (Hal' & r & t & Hr & Ht). split; [exact Hal' |].
  exists r, t. split; [| exact Ht]. cbn.
  rewrite foldl_delete_data_lookup; [exact Hr |].
  intros b Hbl E. apply Hal.
  assert (b = a); [| by subst].
  destruct Ha as [va Hva]. destruct (Hl b Hbl) as [vb Hvb].
  pose proof (rep_range _ _ _ _ HR a va Hva) as Ra.
  pose proof (rep_range _ _ _ _ HR b vb Hvb) as Rb. cbn beta in Ra, Rb.
  apply Data_inj; [done | lia | lia | done].
Qed.

Lemma dom_freed l s : dom (nodes (freed l s)) ⊆ dom (nodes s).
Proof.
  intros a Ha. apply elem_of_dom in Ha. rewrite nodes_freed in Ha.
  destruct (decide (a ∈ l)); [by destruct Ha |]. by apply elem_of_dom.
Qed.

End InvariantLemmas.

Section CallLemmas.
Context {T : Target} {L : ObjectLayout}.
Hypothesis HT : target_ok = true.

Lemma call_NewProducer ty s cursor cursor' s' :
  FInv ty s cursor -> step OpNewProducer cursor s = Ok cursor' s' -> FInv ty s' cursor'.
Proof.
  intros (ls & lps & lcs & HR & Hc & Ht & Hrec) H.
  assert (cursor' = cursor /\ s' = with_producers (fun ps => ps ++ [Producer.mk 0 0 0]) s)
    as [-> ->] by (destruct cursor; cbn in H; inversion H; auto).
  apply (FInv_keeps ty s _ _ ls lps lcs ls (lps ++ [[]]) lcs);
    [| by destruct cursor | exact Ht | exact Hrec | reflexivity | reflexivity |].
  - destruct HR as [Hst Hps Hcs Hnd Hrg]. split; cbn; auto.
    + apply Forall2_app; [exact Hps | constructor; [apply is_queue_nil | constructor]].
    + rewrite concat_app. cbn. by rewrite !app_nil_r.
  - intros a. rewrite concat_app. cbn. by rewrite !app_nil_r.
Qed.

Lemma call_NewConsumer ty s cursor cursor' s' :
  FInv ty s cursor -> step OpNewConsumer cursor s = Ok cursor' s' -> FInv ty s' cursor'.
Proof.
  intros (ls & lps & lcs & HR & Hc & Ht & Hrec) H.
  assert (cursor' = cursor /\ s' = with_consumers (fun cs => cs ++ [Consumer.mk 0 0 0]) s)
    as [-> ->] by (destruct cursor; cbn in H; inversion H; auto).
  apply (FInv_keeps ty s _ _ ls lps lcs ls lps (lcs ++ [[]]));
    [| by destruct cursor | exact Ht | exact Hrec | reflexivity | reflexivity |].
  - destruct HR as [Hst Hps Hcs Hnd Hrg]. split; cbn; auto.
    + apply Forall2_app; [exact Hcs | constructor; [apply is_queue_nil | constructor]].
    + rewrite concat_app. cbn. by rewrite !app_nil_r.
  - intros a. rewrite concat_app. cbn. by rewrite !app_nil_r.
Qed.

(** What [Producer::Insert] does to the invariant, but for the records. *)
Lemma Insert_effect s ls lps lcs cursor i answer dataSize r s' :
  Represents s ls lps lcs -> cursor_ok s ls cursor ->
  tight s (ls ++ concat lps ++ concat lcs) ->
  Producer_Insert i answer dataSize s = Ok r s' ->
  exists lp,
    lps !! i = Some lp /\ r = answer /\ is_size_t answer = true /\
    IsAligned answer (size_max alignof_Node DataAlignment) = true /\
    Represents s' ls (<[i := lp ++ [answer]]> lps) lcs /\
    cursor_ok s' ls cursor /\
    tight s' (ls ++ concat (<[i := lp ++ [answer]]> lps) ++ concat lcs) /\
    dom (nodes s') = {[answer]} ∪ dom (nodes s) /\ objects s' = objects s.
Proof.
  intros HR Hc Ht Hins.
  destruct (Producer_Insert_Ok _ _ _ _ _ _ _ _ _ HR Hins)
    as ([lp Hlp] & Hfit & Hnz & Hsz & Hfresh & Hal).
  destruct (Producer_Insert_spec _ _ _ _ _ _ _ _ HT HR Hlp Hfit Hnz Hsz Hfresh Hal)
    as (s2 & Hins2 & HR2 & _ & Hst2 & _).
  rewrite Hins in Hins2. inversion Hins2; subst.
  destruct (Producer_Insert_heap _ _ _ _ _ _ Hins) as (_ & Hd & Ho).
  exists lp. split_and!; try done.
  - eapply cursor_ok_storage; [exact Hc | by rewrite Hst2].
  - intros a Ha. apply elem_of_dom in Ha. rewrite Hd in Ha.
    assert (Hi' : <[i := lp ++ [answer]]> lps !! i = Some (lp ++ [answer])).
    { apply list_lookup_insert_eq. by eapply lookup_lt_Some. }
    rewrite !elem_of_app. apply elem_of_union in Ha as [Ha | Ha].
    + apply elem_of_singleton in Ha as ->. right; left.
      eapply concat_lookup_elem; [exact Hi' |]. rewrite elem_of_app, elem_of_cons. auto.
    + apply elem_of_dom in Ha. apply Ht in Ha. rewrite !elem_of_app in Ha.
      destruct Ha as [Ha | [Ha | Ha]]; auto. right; left.
      eapply concat_insert_elem; eauto. rewrite elem_of_app. auto.
Qed.

Lemma call_Insert s cursor cursor' s' i answer dataSize :
  FInv false s cursor ->
  step (OpInsert i answer dataSize) cursor s = Ok cursor' s' -> FInv false s' cursor'.
Proof.
  intros (ls & lps & lcs & HR & Hc & Ht & Hrec) H.
  assert (Hb : (Producer_Insert i answer dataSize ≫= fun _ => mret cursor) s = Ok cursor' s')
    by (destruct cursor; exact H).
  apply bind_Ok_inv in Hb as (r & s1 & Hins & Hret). inversion Hret; subst; clear Hret.
  destruct (Insert_effect _ _ _ _ _ _ _ _ _ _ HR Hc Ht Hins)
    as (lp & _ & _ & _ & _ & HR' & Hc' & Ht' & _).
  exists ls, (<[i := lp ++ [answer]]> lps), lcs. split_and!; done.
Qed.

Lemma call_Publish ty s cursor cursor' s' i :
  FInv ty s cursor -> step (OpPublish i) cursor s = Ok cursor' s' -> FInv ty s' cursor'.
Proof.
  intros (ls & lps & lcs & HR & Hc & Ht & Hrec) H.
  assert (Hb : (Publish i ≫= fun _ => mret cursor) s = Ok cursor' s')
    by (destruct cursor; exact H).
  apply bind_Ok_inv in Hb as (r & s1 & Hpub & Hret). inversion Hret; subst; clear Hret.
  destruct (keeps_heap_Publish i _ _ _ Hpub) as [Hd Ho].
  pose proof (Represents_producer _ _ _ _ i HR) as Hi.
  destruct (lps !! i) as [lp |] eqn:Hlp.
  - destruct (decide (lp = [])) as [-> | Hne].
    + rewrite (Publish_empty _ _ _ _ _ HR Hlp) in Hpub. inversion Hpub; subst.
      exists ls, lps, lcs. auto.
    + destruct (Storage.mutex_ (storage s)) eqn:Hm.
      * rewrite (Publish_blocked _ _ _ _ _ _ HR Hlp Hne Hm) in Hpub. discriminate.
      * destruct (Publish_spec _ _ _ _ _ _ HT HR Hlp Hne Hm) as (s2 & Hp2 & HR2 & _ & Hm2 & _).
        rewrite Hpub in Hp2. inversion Hp2; subst.
        apply (FInv_keeps ty s _ _ ls lps lcs (ls ++ lp) (<[i := []]> lps) lcs);
          [exact HR2 | | exact Ht | exact Hrec | exact Hd | exact Ho |].
        -- destruct cursor' as [it |]; [| exact Hm2]. destruct Hc as [Hc _]. congruence.
        -- intros a. rewrite !elem_of_app. intros [Ha | [Ha | Ha]]; auto.
           destruct (decide (a ∈ lp)); auto. right; left.
           by eapply concat_insert_elem_ne.
  - destruct (producers s !! i) eqn:Ep; [contradiction |].
    unfold Publish, Producer_AssertCorrect in Hpub. revert Hpub. run. rewrite Ep.
    discriminate.
Qed.

Lemma call_LockForIter ty s cursor cursor' s' :
  FInv ty s cursor -> step OpLockForIter cursor s = Ok cursor' s' ->
  FInv ty s' cursor' /\ cursor = None /\ is_Some cursor'.
Proof.
  intros (ls & lps & lcs & HR & Hc & Ht & Hrec) H.
  assert (Hb : (LockForIter ≫= fun _ => it ← Iterable_begin; mret (Some it)) s
               = Ok cursor' s') by (destruct cursor; exact H).
  revert Hb. unfold LockForIter, lock, Iterable_begin. run.
  destruct (Storage.mutex_ (storage s)) eqn:Hm; [discriminate |]. run.
  intros Hb. inversion Hb; subst; clear Hb.
  split; [| split; [| by eexists]].
  - apply (FInv_keeps ty s _ _ ls lps lcs ls lps lcs);
      [| | exact Ht | exact Hrec | reflexivity | reflexivity | auto].
    + eapply Represents_ext; [exact HR | reflexivity ..].
    + cbn. split; [reflexivity |]. exists [], ls. repeat split.
      destruct HR as [(Hl & _) _ _ _ _]. by apply lseg_head in Hl.
  - destruct cursor as [it |]; [| done]. destruct Hc as [Hc _]. congruence.
Qed.

Lemma call_Unlock ty s cursor cursor' s' :
  FInv ty s cursor -> step OpUnlock cursor s = Ok cursor' s' ->
  FInv ty s' cursor' /\ cursor' = None.
Proof.
  intros (ls & lps & lcs & HR & Hc & Ht & Hrec) H. destruct cursor as [it |]; [| discriminate].
  revert H. cbn. unfold Iterable_destroy, unlock. run. intros H.
  inversion H; subst; clear H. split; [| done].
  apply (FInv_keeps ty s _ _ ls lps lcs ls lps lcs);
    [| reflexivity | exact Ht | exact Hrec | reflexivity | reflexivity | auto].
  eapply Represents_ext; [exact HR | reflexivity ..].
Qed.

Lemma call_Incr ty s cursor cursor' s' :
  FInv ty s cursor -> step OpIncr cursor s = Ok cursor' s' ->
  FInv ty s' cursor' /\ is_Some cursor /\ is_Some cursor'.
Proof.
  intros (ls & lps & lcs & HR & Hc & Ht & Hrec) H. destruct cursor as [it |]; [| discriminate].
  destruct Hc as (Hm & l1 & l2 & -> & Hprev & Hnode). cbn [step] in H.
  destruct l2 as [| n l2].
  - exfalso. revert H. unfold Iterator_incr. run. rewrite Hnode. cbn.
    rewrite (Represents_null _ _ _ _ HR). discriminate.
  - rewrite (bind_Ok _ _ _ _ _ (Iterator_incr_spec _ _ _ _ _ _ _ HR Hnode)) in H.
    inversion H; subst; clear H. split; [| split; by eexists].
    exists (l1 ++ n :: l2), lps, lcs. split; [exact HR |]. split; [| by split].
    split; [exact Hm |]. exists (l1 ++ [n]), l2.
    rewrite <- app_assoc, last_snoc. auto.
Qed.

(** [EraseAndAdvance] frees the node of the iterator and nothing else. *)
Lemma EraseAndAdvance_heap s l1 n l2 lps lcs it it' s' :
  Represents s (l1 ++ n :: l2) lps lcs ->
  previousNode_ it = default 0 (last l1) ->
  EraseAndAdvance it s = Ok it' s' ->
  dom (nodes s') = dom (nodes s) ∖ {[n]} /\
  objects s' = delete (size_add n DataOffset) (objects s).
Proof.
  intros HR Hprev H.
  destruct (ExtractUnsafe_spec _ _ _ _ _ _ HT HR)
    as (s1 & Hex & HR1 & Hn1 & Hout & Hn0 & _ & _ & _ & Ho1 & _).
  rewrite <- Hprev in Hex. unfold EraseAndAdvance in H.
  rewrite (bind_Ok _ _ _ _ _ Hex) in H. cbn [fst snd] in H.
  destruct (destroy_unique_ptr_spec _ _ _ _ _ HR1 Hn1 Hn0 Hout)
    as (s2 & Hd & _ & Hnodes & _ & _ & _ & Ho2 & _).
  rewrite (bind_Ok _ _ _ _ _ Hd) in H. inversion H; subst; clear H.
  rewrite Ho2, Ho1. split; [| done]. rewrite Hnodes, dom_delete_L.
  by destruct (keeps_heap_ExtractUnsafe _ _ _ _ Hex) as [-> _].
Qed.

Lemma call_EraseAndAdvance ty s cursor cursor' s' :
  FInv ty s cursor -> step OpEraseAndAdvance cursor s = Ok cursor' s' ->
  FInv ty s' cursor' /\ is_Some cursor /\ is_Some cursor'.
Proof.
  intros (ls & lps & lcs & HR & Hc & Ht & Hrec) H. destruct cursor as [it |]; [| discriminate].
  destruct Hc as (Hm & l1 & l2 & -> & Hprev & Hnode). cbn [step] in H.
  destruct l2 as [| n l2].
  - exfalso. rewrite app_nil_r in HR. revert H.
    apply bind_not_Ok. intros a s1. unfold EraseAndAdvance. apply bind_not_Ok.
    intros r s2. rewrite Hprev. by eapply ExtractUnsafe_end.
  - destruct (EraseAndAdvance_spec _ _ _ _ _ _ _ HT HR Hprev)
      as (s2 & He & HR2 & Hgone & Hm2 & _).
    destruct (EraseAndAdvance_heap _ _ _ _ _ _ _ _ _ HR Hprev He) as [Hd Ho].
    rewrite (bind_Ok _ _ _ _ _ He) in H. inversion H; subst; clear H.
    split; [| split; by eexists].
    assert (Hsub : dom (nodes s') ⊆ dom (nodes s)) by (rewrite Hd; set_solver).
    exists (l1 ++ l2), lps, lcs. split; [exact HR2 |]. split; [| split].
    + split; [congruence |]. exists l1, l2. auto.
    + eapply tight_keeps; [exact Hsub | exact Ht |]. intros a Ha Hlive.
      assert (a <> n) by (intros ->; rewrite Hgone in Hlive; by destruct Hlive).
      revert Ha. rewrite !elem_of_app, elem_of_cons. tauto.
    + intros Hty. specialize (Hrec Hty). intros a Ha.
      assert (Han : a <> n) by (intros ->; rewrite Hgone in Ha; by destruct Ha).
      assert (Ha' : is_Some (nodes s !! a)).
      { apply elem_of_dom, Hsub. by apply elem_of_dom. }
      destruct (Hrec a Ha') as (Hal & r & t & Hr & Hrt). split; [exact Hal |].
      exists r, t. split; [| exact Hrt]. rewrite Ho, lookup_delete_ne; [exact Hr |].
      intros E. apply Han. symmetry.
      assert (Hn : n ∈ (l1 ++ n :: l2) ++ concat lps ++ concat lcs)
        by (rewrite !elem_of_app, elem_of_cons; auto).
      destruct (Represents_elem _ _ _ _ _ HR Hn) as (_ & _ & Rn).
      destruct Ha' as [va Hva]. pose proof (rep_range _ _ _ _ HR a va Hva) as Ra.
      cbn beta in Ra. apply Data_inj; [by apply target_ok_bits | lia | lia | done].
Qed.

Lemma call_MoveAndAdvance ty s cursor cursor' s' j :
  FInv ty s cursor -> step (OpMoveAndAdvance j) cursor s = Ok cursor' s' ->
  FInv ty s' cursor' /\ is_Some cursor /\ is_Some cursor'.
Proof.
  intros (ls & lps & lcs & HR & Hc & Ht & Hrec) H. destruct cursor as [it |]; [| discriminate].
  destruct Hc as (Hm & l1 & l2 & -> & Hprev & Hnode). cbn [step] in H.
  destruct l2 as [| n l2].
  - exfalso. rewrite app_nil_r in HR. revert H.
    apply bind_not_Ok. intros a s1. unfold MoveAndAdvance. apply bind_not_Ok.
    intros r s2. rewrite Hprev. by eapply ExtractUnsafe_end.
  - destruct (lcs !! j) as [lc |] eqn:Hj.
    + destruct (MoveAndAdvance_spec _ _ _ _ _ _ _ _ _ HT HR Hj Hprev)
        as (s2 & He & HR2 & _ & Hm2 & _).
      destruct (keeps_heap_MoveAndAdvance _ _ _ _ _ He) as [Hd Ho].
      rewrite (bind_Ok _ _ _ _ _ He) in H. inversion H; subst; clear H.
      split; [| split; by eexists].
      apply (FInv_keeps ty s _ _ (l1 ++ n :: l2) lps lcs (l1 ++ l2) lps
               (<[j := lc ++ [n]]> lcs));
        [exact HR2 | | exact Ht | exact Hrec | exact Hd | exact Ho |].
      * split; [congruence |]. exists l1, l2. auto.
      * assert (Hj' : <[j := lc ++ [n]]> lcs !! j = Some (lc ++ [n])).
        { apply list_lookup_insert_eq. by eapply lookup_lt_Some. }
        intros a. rewrite !elem_of_app, elem_of_cons.
        intros [[Ha | [-> | Ha]] | [Ha | Ha]]; auto.
        -- right; right. eapply concat_lookup_elem; [exact Hj' |].
           rewrite elem_of_app, elem_of_cons. auto.
        -- right; right. eapply concat_insert_elem; eauto. rewrite elem_of_app. auto.
    + exfalso. revert H. apply bind_not_Ok. intros a s1.
      destruct (ExtractUnsafe_spec _ _ _ _ _ _ HT HR)
        as (s2 & Hex & HR2 & _ & _ & _ & _ & _ & Hc2 & _).
      unfold MoveAndAdvance. rewrite <- Hprev in Hex. rewrite (bind_Ok _ _ _ _ _ Hex).
      apply bind_not_Ok. intros a' s3. unfold Consumer_Insert. apply bind_not_Ok.
      intros a'' s4. unfold Consumer_AssertCorrect. apply bind_not_Ok. intros c s5.
      pose proof (Represents_consumer _ _ _ _ j HR2) as Hcj. rewrite Hj in Hcj.
      unfold get_consumer. destruct (consumers s2 !! j); [contradiction | discriminate].
Qed.

(** A record built in the data region of a new node. *)
Lemma create_effect ty s ls lps lcs cursor i answer dataSize s1 (r : HeapRecord)
    (t : TypeInfo) s' :
  Represents s ls lps lcs -> cursor_ok s ls cursor ->
  tight s (ls ++ concat lps ++ concat lcs) -> (ty = true -> records_ok s) ->
  Producer_Insert i answer dataSize s = Ok answer s1 ->
  record_typeInfo r = Some t ->
  nodes s' = nodes s1 -> storage s' = storage s1 -> producers s' = producers s1 ->
  consumers s' = consumers s1 ->
  objects s' = <[size_add answer DataOffset := r]> (objects s1) ->
  FInv ty s' cursor.
Proof.
  intros HR Hc Ht Hrec Hins Hrt Hn Hst Hp Hcs Ho.
  destruct (Insert_effect _ _ _ _ _ _ _ _ _ _ HR Hc Ht Hins)
    as (lp & Hlp & _ & Hsz & Hal & HR' & Hc' & Ht' & Hd & Ho1).
  exists ls, (<[i := lp ++ [answer]]> lps), lcs. split_and!.
  - eapply Represents_ext; [exact HR' | by rewrite ?Hn, ?Hst, ?Hp, ?Hcs ..].
  - eapply cursor_ok_storage; [exact Hc' | by rewrite Hst].
  - intros a Ha. apply Ht'. by rewrite <- Hn.
  - intros Hty. specialize (Hrec Hty). intros a Ha. rewrite Hn in Ha.
    apply elem_of_dom in Ha. rewrite Hd in Ha.
    destruct (decide (size_add a DataOffset = size_add answer DataOffset)) as [E | Hne].
    + split.
      * rewrite E. pose proof (IsAligned_total answer HT Hal) as Hal'.
        destruct (Data_FromData answer s HT Hsz Hal') as [HD _].
        unfold Data in HD. revert HD. run.
        by destruct (IsAligned (size_add answer DataOffset) DataAlignment).
      * exists r, t. by rewrite Ho, E, lookup_insert_eq.
    + apply elem_of_union in Ha as [Ha | Ha];
        [apply elem_of_singleton in Ha; by subst |].
      apply elem_of_dom in Ha. destruct (Hrec a Ha) as (Hal' & r' & t' & Hr' & Ht'').
      split; [exact Hal' |]. exists r', t'.
      by rewrite Ho, lookup_insert_ne, Ho1.
Qed.

Lemma call_CreateObject ty s cursor cursor' s' i answer typeInfo :
  FInv ty s cursor ->
  call (CallCreateObject i answer typeInfo) cursor s = Ok cursor' s' -> FInv ty s' cursor'.
Proof.
  intros (ls & lps & lcs & HR & Hc & Ht & Hrec) H. cbn [call] in H.
  apply bind_Ok_inv in H as (object & s2 & H & Hret). inversion Hret; subst; clear Hret.
  unfold CreateObject in H.
  apply bind_Ok_inv in H as ([] & s0 & Has & H).
  unfold RuntimeAssert in Has. destruct (negb (IsArray typeInfo)); [| discriminate].
  injection Has as <-.
  apply bind_Ok_inv in H as (node & s1 & Hins & H).
  destruct (Producer_Insert_heap _ _ _ _ _ _ Hins) as (-> & _).
  apply bind_Ok_inv in H as (data & s3 & Hdata & H).
  assert (data = size_add answer DataOffset /\ s3 = s1) as [-> ->].
  { revert Hdata. unfold Data. run.
    destruct (IsAligned (size_add answer DataOffset) DataAlignment); run; intros E;
      by inversion E. }
  revert H. unfold construct. run. intros H. inversion H; subst; clear H.
  eapply (create_effect ty s ls lps lcs cursor' i answer _ s1
            (HeapObjHeader kWhite (Some typeInfo)) typeInfo);
    eauto; cbn; by rewrite ?insert_insert_eq.
Qed.

Lemma call_CreateArray ty s cursor cursor' s' i answer typeInfo count :
  FInv ty s cursor ->
  call (CallCreateArray i answer typeInfo count) cursor s = Ok cursor' s' ->
  FInv ty s' cursor'.
Proof.
  intros (ls & lps & lcs & HR & Hc & Ht & Hrec) H. cbn [call] in H.
  apply bind_Ok_inv in H as (object & s2 & H & Hret). inversion Hret; subst; clear Hret.
  unfold CreateArray in H.
  apply bind_Ok_inv in H as ([] & s0 & Has & H).
  unfold RuntimeAssert in Has. destruct (IsArray typeInfo); [| discriminate].
  injection Has as <-.
  apply bind_Ok_inv in H as (node & s1 & Hins & H).
  destruct (Producer_Insert_heap _ _ _ _ _ _ Hins) as (-> & _).
  apply bind_Ok_inv in H as (data & s3 & Hdata & H).
  assert (data = size_add answer DataOffset /\ s3 = s1) as [-> ->].
  { revert Hdata. unfold Data. run.
    destruct (IsAligned (size_add answer DataOffset) DataAlignment); run; intros E;
      by inversion E. }
  revert H. unfold construct. run. intros H. inversion H; subst; clear H.
  eapply (create_effect ty s ls lps lcs cursor' i answer _ s1
            (HeapArrayHeader kWhite (Some typeInfo) count) typeInfo);
    eauto; cbn; by rewrite ?insert_insert_eq.
Qed.

Lemma call_SetColor ty s cursor cursor' s' node color :
  FInv ty s cursor ->
  call (CallSetColor node color) cursor s = Ok cursor' s' -> FInv ty s' cursor'.
Proof.
  intros (ls & lps & lcs & HR & Hc & Ht & Hrec) H. cbn [call] in H.
  apply bind_Ok_inv in H as ([] & s2 & H & Hret). inversion Hret; subst; clear Hret.
  assert (Hs : exists r, objects s !! size_add node DataOffset = Some r /\
             s' = with_objects (insert (size_add node DataOffset)
                                  (record_setColor color r)) s).
  { revert H. unfold NodeRef_setColor, Data, get_record, construct. run.
    destruct (IsAligned (size_add node DataOffset) DataAlignment); run; [| discriminate].
    destruct (objects s !! size_add node DataOffset) as [r |]; [| discriminate].
    intros E. inversion E. eauto. }
  destruct Hs as (r & Hr & ->).
  exists ls, lps, lcs. split_and!.
  - eapply Represents_ext; [exact HR | reflexivity ..].
  - by destruct cursor'.
  - exact Ht.
  - intros Hty. specialize (Hrec Hty). intros a Ha.
    destruct (Hrec a Ha) as (Hal & r' & t' & Hr' & Ht'). split; [exact Hal |]. cbn.
    destruct (decide (size_add a DataOffset = size_add node DataOffset)) as [E | Hne].
    + rewrite E, lookup_insert_eq. rewrite E in Hr'. simplify_eq.
      exists (record_setColor color r), t'. split; [done |]. by destruct r.
    + exists r', t'. by rewrite lookup_insert_ne.
Qed.

Lemma get_consumer_Ok {A} (f : Consumer.t -> M A) j s a s' :
  (get_consumer j ≫= f) s = Ok a s' -> exists c, consumers s !! j = Some c.
Proof.
  unfold mbind, M_bind, bind, get_consumer.
  destruct (consumers s !! j); [eauto | discriminate].
Qed.

Lemma call_MergeWith ty s cursor cursor' s' j k :
  j <> k -> FInv ty s cursor ->
  call (CallMergeWith j k) cursor s = Ok cursor' s' -> FInv ty s' cursor'.
Proof.
  intros Hjk (ls & lps & lcs & HR & Hc & Ht & Hrec) H. cbn [call] in H.
  apply bind_Ok_inv in H as ([] & s2 & H & Hret). inversion Hret; subst; clear Hret.
  destruct (keeps_heap_Consumer_MergeWith _ _ _ _ _ H) as [Hd Ho].
  assert (Hcj : exists c, consumers s !! j = Some c).
  { revert H. unfold Consumer_MergeWith, Consumer_AssertCorrect.
    rewrite <- !(assoc (≫=)) || idtac. intros H.
    apply bind_Ok_inv in H as ([] & s1 & H & _). by eapply get_consumer_Ok. }
  destruct Hcj as (cj & Hcj).
  destruct (Represents_consumer_Some _ _ _ _ _ _ HR Hcj) as (lj & Hj & Hqj).
  assert (Hck : exists c, consumers s !! k = Some c).
  { revert H. unfold Consumer_MergeWith. intros H.
    apply bind_Ok_inv in H as ([] & s1 & H1 & H).
    assert (s1 = s) as ->.
    { revert H1. unfold Consumer_AssertCorrect. run. rewrite Hcj. run.
      erewrite assert_correct_ok by (reflexivity || exact Hqj). intros E. by inversion E. }
    by eapply get_consumer_Ok. }
  destruct Hck as (ck & Hck).
  destruct (Represents_consumer_Some _ _ _ _ _ _ HR Hck) as (lk & Hk & Hqk).
  destruct (Consumer_MergeWith_spec _ _ _ _ _ _ _ _ HT HR Hj Hk Hjk)
    as (s2 & H2 & HR2 & Hst & _).
  rewrite H in H2. inversion H2; subst; clear H2.
  apply (FInv_keeps ty s _ _ ls lps lcs ls lps (<[j := lj ++ lk]> (<[k := []]> lcs)));
    [exact HR2 | | exact Ht | exact Hrec | exact Hd | exact Ho |].
  - eapply cursor_ok_storage; [exact Hc | by rewrite Hst].
  - assert (Hj' : <[k := []]> lcs !! j = Some lj) by (by rewrite list_lookup_insert_ne).
    intros a. rewrite !elem_of_app. intros [Ha | [Ha | Ha]]; auto. right; right.
    destruct (decide (a ∈ lk)) as [Hak | Hak].
    + eapply (concat_lookup_elem _ j (lj ++ lk)); [| rewrite elem_of_app; auto].
      apply list_lookup_insert_eq. rewrite length_insert. by eapply lookup_lt_Some.
    + eapply concat_insert_elem; [exact Hj' | | rewrite elem_of_app; auto].
      by eapply concat_insert_elem_ne.
Qed.

(** A consumer constructed from itself, before it exists, is empty. *)
Lemma Consumer_move_self s :
  Consumer_move (length (consumers s)) s
  = Ok (length (consumers s)) (with_consumers (fun cs => cs ++ [Consumer.mk 0 0 0]) s).
Proof.
  destruct s as [h st ps cs objs tr]. cbn.
  unfold Consumer_move, Consumer_new. run.
  repeat (first [rewrite list_lookup_insert_eq
                   by (rewrite ?length_insert, ?length_app; cbn; lia)
                | rewrite (list_lookup_middle cs []) by reflexivity]; run).
  rewrite !list_insert_insert_eq.
  rewrite (insert_app_r_alt cs) by lia. by rewrite Nat.sub_diag.
Qed.

Lemma call_Move ty s cursor cursor' s' k :
  FInv ty s cursor ->
  call (CallMove k) cursor s = Ok cursor' s' -> FInv ty s' cursor'.
Proof.
  intros (ls & lps & lcs & HR & Hc & Ht & Hrec) H. cbn [call] in H.
  apply bind_Ok_inv in H as (j & s2 & H & Hret). inversion Hret; subst; clear Hret.
  destruct (consumers s !! k) as [ck |] eqn:Hck.
  - destruct (Represents_consumer_Some _ _ _ _ _ _ HR Hck) as (lk & Hk & Hqk).
    rewrite (Consumer_move_spec _ _ _ Hck) in H. inversion H; subst; clear H.
    apply (FInv_keeps ty s _ _ ls lps lcs ls lps (<[k := []]> lcs ++ [lk]));
      [by apply Represents_move | by destruct cursor' | exact Ht | exact Hrec
      | reflexivity | reflexivity |].
    intros a. rewrite !elem_of_app, concat_app, elem_of_app. cbn. rewrite app_nil_r.
    intros [Ha | [Ha | Ha]]; auto. right; right.
    destruct (decide (a ∈ lk)); auto. left. by eapply concat_insert_elem_ne.
  - apply lookup_ge_None in Hck.
    destruct (decide (k = length (consumers s))) as [-> | Hne].
    + rewrite Consumer_move_self in H. inversion H; subst; clear H.
      apply (FInv_keeps ty s _ _ ls lps lcs ls lps (lcs ++ [[]]));
        [| by destruct cursor' | exact Ht | exact Hrec | reflexivity | reflexivity |].
      * destruct HR as [Hst Hps Hcs Hnd Hrg]. split; cbn; auto.
        -- apply Forall2_app; [exact Hcs | constructor; [apply is_queue_nil | constructor]].
        -- rewrite concat_app. cbn. by rewrite !app_nil_r.
      * intros a. rewrite concat_app. cbn. by rewrite !app_nil_r.
    + exfalso. revert H. unfold Consumer_move, Consumer_new. run.
      rewrite (lookup_ge_None_2 (consumers s ++ _)); [discriminate |].
      rewrite length_app. cbn. lia.
Qed.

Lemma call_MoveAssign ty s cursor cursor' s' j k :
  FInv ty s cursor ->
  call (CallMoveAssign j k) cursor s = Ok cursor' s' -> FInv ty s' cursor'.
Proof.
  intros (ls & lps & lcs & HR & Hc & Ht & Hrec) H. cbn [call] in H.
  apply bind_Ok_inv in H as ([] & s2 & H & Hret). inversion Hret; subst; clear Hret.
  destruct (get_consumer_Ok _ _ _ _ _ H) as (ck & Hck).
  destruct (decide (j = k)) as [-> | Hjk].
  { rewrite (Consumer_move_assign_self _ _ _ Hck) in H. inversion H; subst.
    exists ls, lps, lcs. auto. }
  assert (Hcj : exists c, consumers s !! j = Some c).
  { destruct (consumers s !! j) as [c |] eqn:E; [eauto |]. exfalso.
    revert H. unfold Consumer_move_assign. run. rewrite Hck. run.
    rewrite list_lookup_insert_ne by done. rewrite E. discriminate. }
  destruct Hcj as (cj & Hcj).
  destruct (Represents_consumer_Some _ _ _ _ _ _ HR Hcj) as (lj & Hj & Hqj).
  destruct (Represents_consumer_Some _ _ _ _ _ _ HR Hck) as (lk & Hk & Hqk).
  rewrite (Consumer_move_assign_spec _ _ _ _ _ _ _ _ _ HR Hj Hcj Hck Hjk) in H.
  inversion H; subst; clear H.
  assert (Hlive : forall a, a ∈ lj -> is_Some (nodes s !! a)).
  { intros a Ha. eapply Represents_elem; [exact HR |].
    rewrite !elem_of_app. right; right. exact (concat_lookup_elem _ _ _ _ Hj Ha). }
  exists ls, lps, (<[j := lk]> (<[k := []]> lcs)). split_and!.
  - by apply Represents_move_assign.
  - by destruct cursor'.
  - eapply tight_keeps; [apply dom_freed | exact Ht |]. intros a Ha Hl.
    pose proof (nodes_freed lj s a) as E. cbn in Hl, E. rewrite E in Hl.
    destruct (decide (a ∈ lj)) as [| Hal]; [by destruct Hl |].
    assert (Hj' : <[k := []]> lcs !! j = Some lj) by (by rewrite list_lookup_insert_ne).
    revert Ha. rewrite !elem_of_app. intros [Ha | [Ha | Ha]]; auto. right; right.
    destruct (decide (a ∈ lk)) as [Hak | Hak].
    + eapply (concat_lookup_elem _ j lk); [| done].
      apply list_lookup_insert_eq. rewrite length_insert. by eapply lookup_lt_Some.
    + eapply concat_insert_elem_ne; [exact Hj' | | done].
      by eapply concat_insert_elem_ne.
  - intros Hty.
    apply (records_freed s ls lps lcs lj (target_ok_bits HT) HR Hlive (Hrec Hty)).
Qed.

Lemma call_ClearProducer ty s cursor cursor' s' i :
  FInv ty s cursor ->
  call (CallClearProducer i) cursor s = Ok cursor' s' -> FInv ty s' cursor'.
Proof.
  intros (ls & lps & lcs & HR & Hc & Ht & Hrec) H. cbn [call] in H.
  apply bind_Ok_inv in H as ([] & s2 & H & Hret). inversion Hret; subst; clear Hret.
  assert (Hp : exists p, producers s !! i = Some p).
  { revert H. unfold Producer_ClearForTests, mbind, M_bind, bind, get_producer.
    destruct (producers s !! i); [eauto | discriminate]. }
  destruct Hp as (p & Hp).
  destruct (Represents_producer_Some _ _ _ _ _ _ HR Hp) as (lp & Hi & Hq).
  rewrite (Producer_ClearForTests_spec _ _ _ _ _ _ HR Hi) in H.
  inversion H; subst; clear H.
  assert (Hlive : forall a, a ∈ reverse lp -> is_Some (nodes s !! a)).
  { intros a Ha. rewrite elem_of_reverse in Ha. eapply Represents_elem; [exact HR |].
    rewrite !elem_of_app. right; left. by eapply concat_lookup_elem. }
  exists ls, (<[i := []]> lps), lcs. split_and!.
  - apply Represents_drop_producer with lp; [done | done |].
    intros a Ha. by rewrite elem_of_reverse in Ha.
  - by destruct cursor'.
  - eapply tight_keeps; [apply dom_freed | exact Ht |]. intros a Ha Hl.
    pose proof (nodes_freed (reverse lp) s a) as E. cbn in Hl, E. rewrite E in Hl.
    destruct (decide (a ∈ reverse lp)) as [| Hal]; [by destruct Hl |].
    rewrite elem_of_reverse in Hal.
    revert Ha. rewrite !elem_of_app. intros [Ha | [Ha | Ha]]; auto. right; left.
    by eapply concat_insert_elem_ne.
  - intros Hty.
    apply (records_freed s ls lps lcs _ (target_ok_bits HT) HR Hlive (Hrec Hty)).
Qed.

Lemma call_ClearStorage ty s cursor' s' :
  FInv ty s None ->
  call CallClearStorage None s = Ok cursor' s' -> FInv ty s' cursor' /\ cursor' = None.
Proof.
  intros (ls & lps & lcs & HR & Hc & Ht & Hrec) H. cbn [call] in H.
  apply bind_Ok_inv in H as ([] & s2 & H & Hret). inversion Hret; subst; clear Hret.
  rewrite (Storage_ClearForTests_spec _ _ _ _ HR) in H. inversion H; subst; clear H.
  split; [| done].
  assert (Hlive : forall a, a ∈ reverse ls -> is_Some (nodes s !! a)).
  { intros a Ha. rewrite elem_of_reverse in Ha. eapply Represents_elem; [exact HR |].
    rewrite !elem_of_app. auto. }
  cbn in Hc.
  exists [], lps, lcs. split_and!.
  - replace (with_storage _ (freed (reverse ls) s))
      with (with_storage (fun _ => Storage.mk 0 0 0 (Storage.mutex_ (storage s)))
              (freed (reverse ls) s)) by reflexivity.
    apply Represents_drop_storage with ls; [done |].
    intros a Ha. by rewrite elem_of_reverse in Ha.
  - exact Hc.
  - eapply tight_keeps; [apply dom_freed | exact Ht |]. intros a Ha Hl.
    pose proof (nodes_freed (reverse ls) s a) as E. cbn in Hl, E. rewrite E in Hl.
    destruct (decide (a ∈ reverse ls)) as [| Hal]; [by destruct Hl |].
    rewrite elem_of_reverse in Hal.
    revert Ha. rewrite !elem_of_app. intros [Ha | [Ha | Ha]]; auto. done.
  - intros Hty.
    apply (records_freed s ls lps lcs _ (target_ok_bits HT) HR Hlive (Hrec Hty)).
Qed.

End CallLemmas.

(** ** Programs *)

Lemma map_lookup_seq {A} (d : A) (l : list A) :
  map (fun i => default d (l !! i)) (seq 0 (length l)) = l.
Proof.
  apply list_eq. intros i. rewrite list_lookup_fmap.
  destruct (l !! i) as [x |] eqn:E.
  - rewrite (lookup_seq_lt _ _ i) by (by eapply lookup_lt_Some). cbn. by rewrite E.
  - rewrite lookup_seq_ge by (by apply lookup_ge_None). done.
Qed.

Section ProgramLemmas.
Context {T : Target} {L : ObjectLayout}.
Hypothesis HT : target_ok = true.

(** The queues of a state are those of its representation. *)
Lemma all_chains_Represents s ls lps lcs :
  Represents s ls lps lcs -> all_chains s = ls ++ concat lps ++ concat lcs.
Proof.
  intros HR. unfold all_chains.
  rewrite (storage_chain_Represents _ _ _ _ HR).
  rewrite (Forall2_length _ _ _ (rep_producers _ _ _ _ HR)).
  rewrite (Forall2_length _ _ _ (rep_consumers _ _ _ _ HR)).
  f_equal. f_equal; f_equal.
  - rewrite <- (map_lookup_seq [] lps) at 2. apply map_ext. intros i.
    apply (producer_chain_Represents _ _ _ _ i HR).
  - rewrite <- (map_lookup_seq [] lcs) at 2. apply map_ext. intros i.
    apply (consumer_chain_Represents _ _ _ _ i HR).
Qed.

(** Whether an [Iterable] is alive after a call. *)
Lemma call_alive c cursor s cursor' s' :
  call c cursor s = Ok cursor' s' ->
  match c with
  | CallOp OpLockForIter => is_Some cursor'
  | CallOp OpUnlock => cursor' = None
  | _ => is_Some cursor' <-> is_Some cursor
  end.
Proof.
  intros H.
  assert (Hret : forall (m : M unit),
            (m ≫= fun _ => mret cursor) s = Ok cursor' s' -> cursor' = cursor).
  { intros m Hm. apply bind_Ok_inv in Hm as (? & ? & _ & E). by inversion E. }
  assert (Hret' : forall {A} (m : M A),
            (m ≫= fun _ => mret cursor) s = Ok cursor' s' -> cursor' = cursor).
  { intros A m Hm. apply bind_Ok_inv in Hm as (? & ? & _ & E). by inversion E. }
  destruct c as [op | | | | | | | |]; cbn [call] in H;
    try (by rewrite (Hret' _ _ H)).
  destruct op; cbn [step] in H.
  - destruct cursor; by rewrite (Hret' _ _ H).
  - destruct cursor; by rewrite (Hret' _ _ H).
  - destruct cursor; by rewrite (Hret' _ _ H).
  - destruct cursor; by rewrite (Hret' _ _ H).
  - assert (Hb : (LockForIter ≫= fun _ => it ← Iterable_begin; mret (Some it)) s
                 = Ok cursor' s') by (destruct cursor; exact H).
    apply bind_Ok_inv in Hb as (? & ? & _ & Hb).
    apply bind_Ok_inv in Hb as (? & ? & _ & Hb). inversion Hb. by eexists.
  - destruct cursor; [| discriminate].
    apply bind_Ok_inv in H as (? & ? & _ & E). inversion E. split; by eexists.
  - destruct cursor; [| discriminate].
    apply bind_Ok_inv in H as (? & ? & _ & E). inversion E. split; by eexists.
  - destruct cursor; [| discriminate].
    apply bind_Ok_inv in H as (? & ? & _ & E). inversion E. split; by eexists.
  - destruct cursor; [| discriminate].
    apply bind_Ok_inv in H as (? & ? & _ & E). by inversion E.
Qed.

(** One call of a program that is used well keeps the invariant. *)
Lemma call_FInv ty c cursor s cursor' s' :
  match c with
  | CallMergeWith j k => j <> k
  | CallClearStorage => cursor = None
  | CallOp (OpInsert _ _ _) => ty = false
  | _ => True
  end ->
  FInv ty s cursor -> call c cursor s = Ok cursor' s' -> FInv ty s' cursor'.
Proof.
  intros Hok HI H. destruct c as [op | | | | | | | |].
  - cbn [call] in H. destruct op.
    + by eapply call_NewProducer.
    + by eapply call_NewConsumer.
    + subst ty. by eapply call_Insert.
    + by eapply call_Publish.
    + by eapply call_LockForIter.
    + by eapply call_Incr.
    + by eapply call_EraseAndAdvance.
    + by eapply call_MoveAndAdvance.
    + by eapply call_Unlock.
  - by eapply call_CreateObject.
  - by eapply call_CreateArray.
  - by eapply call_SetColor.
  - by eapply call_MergeWith.
  - by eapply call_Move.
  - by eapply call_MoveAssign.
  - by eapply call_ClearProducer.
  - subst cursor. by eapply call_ClearStorage.
Qed.

Lemma FInv_initial ty : FInv ty initial None.
Proof.
  exists [], [], []. split_and!.
  - split; cbn; [apply is_queue_nil | constructor | constructor | constructor |].
    apply map_Forall_empty.
  - reflexivity.
  - intros a [v Hv]. cbn in Hv. by rewrite lookup_empty in Hv.
  - intros _ a [v Hv]. cbn in Hv. by rewrite lookup_empty in Hv.
Qed.

Lemma exec_FInv ty calls alive cursor s cursor' s' :
  (alive = true <-> is_Some cursor) ->
  well_used alive calls = true -> (ty = true -> typed calls = true) ->
  FInv ty s cursor -> exec calls cursor s = Ok cursor' s' -> FInv ty s' cursor'.
Proof.
  revert alive cursor s. induction calls as [| c calls IH]; intros alive cursor s Ha Hw Hty HI H.
  - inversion H; subst. exact HI.
  - cbn [exec] in H. apply bind_Ok_inv in H as (c1 & s1 & Hcall & Hexec).
    pose proof (call_alive _ _ _ _ _ Hcall) as Hal.
    assert (Hty' : ty = true -> typed calls = true /\
                   match c with CallOp (OpInsert _ _ _) => False | _ => True end).
    { intros E. specialize (Hty E). cbn in Hty. apply andb_true_iff in Hty as [H1 H2].
      split; [exact H2 |]. by destruct c as [[] | | | | | | | |]. }
    assert (Hok : match c with
                  | CallMergeWith j k => j <> k
                  | CallClearStorage => cursor = None
                  | CallOp (OpInsert _ _ _) => ty = false
                  | _ => True
                  end).
    { destruct c as [[] | | | | | | | |]; try exact I.
      - destruct ty; [| done]. by destruct (Hty' eq_refl).
      - cbn in Hw. apply andb_true_iff in Hw as [Hjk _].
        apply negb_true_iff, Nat.eqb_neq in Hjk. exact Hjk.
      - cbn in Hw. apply andb_true_iff in Hw as [Hna _]. apply negb_true_iff in Hna.
        destruct cursor; [| done]. destruct Ha as [_ Ha]. rewrite Ha in Hna by eauto.
        discriminate. }
    pose proof (call_FInv ty c cursor s c1 s1 Hok HI Hcall) as HI1.
    assert (Hnext : exists alive', (alive' = true <-> is_Some c1) /\
                                   well_used alive' calls = true).
    { destruct c as [[] | | | | | | | |]; cbn in Hw;
        try (exists alive; split; [by rewrite Hal | exact Hw]).
      - exists true. split; [by split | exact Hw].
      - exists false. subst c1. split; [| exact Hw].
        split; [discriminate | by intros []].
      - apply andb_true_iff in Hw as [_ Hw]. exists alive. by rewrite Hal.
      - apply andb_true_iff in Hw as [_ Hw]. exists alive. by rewrite Hal. }
    destruct Hnext as (alive' & Ha' & Hw').
    eapply (IH alive' c1 s1); eauto. intros E. by destruct (Hty' E).
Qed.

(** A state that a well used program reaches. *)
Lemma reachable_FInv ty calls cursor s :
  well_used false calls = true -> (ty = true -> typed calls = true) ->
  exec calls None initial = Ok cursor s -> FInv ty s cursor.
Proof.
  intros Hw Hty H. eapply (exec_FInv ty calls false None initial); eauto.
  - split; [discriminate | by intros []].
  - apply FInv_initial.
Qed.

End ProgramLemmas.

(** ** What programs keep *)

Section ProgramFacts.
Context {T : Target} {L : ObjectLayout}.

Lemma producers_total_size h (ps : list Producer.t) (lps : list (list Z)) :
  Forall2 (producer_rep h) ps lps ->
  foldr (fun p n => Producer.size_ p + n) 0 ps = Z.of_nat (length (concat lps)).
Proof.
  induction 1 as [| p l ps lps Hp _ IH]; [done |]. cbn.
  destruct Hp as (_ & _ & ->). rewrite IH, length_app. lia.
Qed.

Lemma consumers_total_size h (cs : list Consumer.t) (lcs : list (list Z)) :
  Forall2 (consumer_rep h) cs lcs ->
  foldr (fun c n => Consumer.size_ c + n) 0 cs = Z.of_nat (length (concat lcs)).
Proof.
  induction 1 as [| c l cs lcs Hc _ IH]; [done |]. cbn.
  destruct Hc as (_ & _ & ->). rewrite IH, length_app. lia.
Qed.

Lemma total_size_Represents s ls lps lcs :
  Represents s ls lps lcs ->
  total_size s = Z.of_nat (length (ls ++ concat lps ++ concat lcs)).
Proof.
  intros [Hst Hps Hcs _ _]. unfold total_size.
  rewrite (producers_total_size _ _ _ Hps), (consumers_total_size _ _ _ Hcs).
  destruct Hst as (_ & _ & ->). rewrite !length_app. lia.
Qed.

(** The loop of [Finalize] along a chain of nodes with records. *)
Lemma Finalize_loop_spec (l : list Z) (fuel : nat) (s : State) (p : Z) :
  lseg (nodes s) p l 0 -> (forall a, a ∈ l -> has_record s a) ->
  (length l <= fuel)%nat ->
  Finalize_loop fuel p s = Ok (map (header_of s) l) s.
Proof.
  revert fuel p. induction l as [| a l IH]; intros fuel p Hl Hrec Hf.
  - cbn in Hl. subst p. by destruct fuel.
  - cbn in Hl. destruct Hl as (-> & Ha0 & nx & Hnx & Hl).
    destruct fuel as [| fuel]; [cbn in Hf; lia |]. cbn [Finalize_loop].
    apply Z.eqb_neq in Ha0 as ->.
    destruct (Hrec a) as (Hal & r & t & Hr & Ht); [apply elem_of_cons; by left |].
    destruct (NodeRef_accessors a r t s Hal Hr Ht) as (_ & Hia & Hgo & Hga).
    assert (Hh : (if IsArray t then NodeRef_GetArrayHeader a else NodeRef_GetObjHeader a) s
                 = Ok (header_of s a) s).
    { unfold header_of. cbn zeta. rewrite Hr, Ht.
      destruct (IsArray t); [by rewrite Hga | by rewrite Hgo]. }
    rewrite (bind_Ok _ _ _ _ _ Hia), (bind_Ok _ _ _ _ _ Hh).
    unfold mbind at 1, M_bind, bind, get_next. rewrite Hnx.
    cbv beta iota. unfold mbind, M_bind, bind.
    rewrite (IH fuel nx Hl) by (cbn in Hf; try lia; intros b Hb; apply Hrec;
                                apply elem_of_cons; by right).
    reflexivity.
Qed.

End ProgramFacts.

(** The queues of a program.  Whatever the calls of a program, on the
    storage, its producers and consumers, and on the factory, as long as no
    consumer is merged with itself and the storage is not cleared under a
    live [Iterable]: in the state that the program reaches the storage, every
    producer and every consumer is a well-formed queue, and no node is in two
    of them or twice in one. *)
Theorem program_queues_well_formed {T : Target} {L : ObjectLayout} (calls : list Call)
    (cursor : option Iterator) (s : State) :
  target_ok = true -> well_used false calls = true ->
  exec calls None initial = Ok cursor s ->
  WellFormed s /\
  (forall i p, producers s !! i = Some p ->
     queue_wf s (Producer.root_ p) (Producer.last_ p) (Producer.size_ p)) /\
  (forall j c, consumers s !! j = Some c ->
     queue_wf s (Consumer.root_ c) (Consumer.last_ c) (Consumer.size_ c)) /\
  NoDup (all_chains s).
Proof.
  intros HT Hw H.
  destruct (reachable_FInv HT false calls cursor s Hw ltac:(done) H)
    as (ls & lps & lcs & HR & Hc & _).
  split; [apply (Inv_WellFormed s cursor); by exists ls, lps, lcs |].
  split; [| split].
  - intros i p Hp.
    destruct (Represents_producer_Some _ _ _ _ _ _ HR Hp) as (lp & Hlp & Hq).
    eapply is_queue_wf; [exact Hq |].
    eapply NoDup_concat_lookup; [by eapply Represents_nodup_producers | exact Hlp].
  - intros j c Hcj.
    destruct (Represents_consumer_Some _ _ _ _ _ _ HR Hcj) as (lc & Hlc & Hq).
    eapply is_queue_wf; [exact Hq |].
    eapply NoDup_concat_lookup; [by eapply Represents_nodup_consumers | exact Hlc].
  - rewrite (all_chains_Represents _ _ _ _ HR). apply HR.
Qed.

Lemma program_queues_well_formed_witness :
  let s := final (@exec (lp64 8) layout64 factory_program None initial) in
  WellFormed s /\ NoDup (all_chains s).
Proof.
  intros s.
  destruct (@program_queues_well_formed (lp64 8) layout64 factory_program None s)
    as (H1 & _ & _ & H2);
    [vm_compute; reflexivity | vm_compute; reflexivity | vm_compute; reflexivity |].
  split; [exact H1 | exact H2].
Defined.

(** No leak and no dangling node.  In the state that such a program
    reaches, the live nodes are the nodes of the queues: every node that was
    allocated and not freed is in exactly one queue, every node of a queue is
    live, and the number of live nodes is the sum of the [size_] members. *)
Theorem program_no_leak {T : Target} {L : ObjectLayout} (calls : list Call)
    (cursor : option Iterator) (s : State) :
  target_ok = true -> well_used false calls = true ->
  exec calls None initial = Ok cursor s ->
  (forall a, is_Some (nodes s !! a) <-> a ∈ all_chains s) /\
  Z.of_nat (size (nodes s)) = total_size s.
Proof.
  intros HT Hw H.
  destruct (reachable_FInv HT false calls cursor s Hw ltac:(done) H)
    as (ls & lps & lcs & HR & Hc & Ht & _).
  rewrite (all_chains_Represents _ _ _ _ HR), (total_size_Represents _ _ _ _ HR).
  assert (Hiff : forall a, is_Some (nodes s !! a) <-> a ∈ ls ++ concat lps ++ concat lcs).
  { intros a. split; [apply Ht |]. intros Ha. by eapply Represents_elem. }
  split; [exact Hiff |].
  assert (Hset : dom (nodes s) = list_to_set (ls ++ concat lps ++ concat lcs)).
  { apply set_eq. intros a. rewrite elem_of_dom, elem_of_list_to_set. apply Hiff. }
  rewrite <- size_dom, Hset, size_list_to_set; [done | apply HR].
Qed.

Lemma program_no_leak_witness :
  let s := final (@exec (lp64 8) layout64 factory_program None initial) in
  Z.of_nat (size (nodes s)) = total_size s.
Proof.
  intros s.
  apply (@program_no_leak (lp64 8) layout64 factory_program None s);
    [vm_compute; reflexivity | vm_compute; reflexivity | vm_compute; reflexivity].
Defined.

(** [Finalize] in a program of the factory, where nodes are created by
    [CreateObject] and [CreateArray] only: every node of every queue carries
    its record, and [Finalize] on a finalizer queue returns after calling
    [RunFinalizers] once for each node of the queue, in the order of the
    queue, on the object header or on the array header of its record; it
    changes nothing. *)
Theorem Finalize_runs_all {T : Target} {L : ObjectLayout} (calls : list Call)
    (cursor : option Iterator) (s : State) (j : nat) (c : Consumer.t) :
  target_ok = true -> well_used false calls = true -> typed calls = true ->
  exec calls None initial = Ok cursor s ->
  consumers s !! j = Some c ->
  (forall a, a ∈ all_chains s -> has_record s a) /\
  Finalize j s = Ok (map (header_of s) (consumer_chain s j)) s.
Proof.
  intros HT Hw Hty H Hcj.
  destruct (reachable_FInv HT true calls cursor s Hw ltac:(done) H)
    as (ls & lps & lcs & HR & Hc & Ht & Hrec).
  specialize (Hrec eq_refl).
  assert (Hall : forall a, a ∈ all_chains s -> has_record s a).
  { intros a Ha. apply Hrec. rewrite (all_chains_Represents _ _ _ _ HR) in Ha.
    by eapply Represents_elem. }
  split; [exact Hall |].
  destruct (Represents_consumer_Some _ _ _ _ _ _ HR Hcj) as (lc & Hlc & Hq).
  rewrite (consumer_chain_Represents _ _ _ _ j HR), Hlc. cbn [default].
  assert (Hnd : NoDup lc).
  { eapply NoDup_concat_lookup; [by eapply Represents_nodup_consumers | exact Hlc]. }
  destruct Hq as (Hl & _). pose proof (lseg_length _ _ _ _ Hl Hnd) as Hlen.
  unfold Finalize. unfold mbind at 1, M_bind, bind, get_consumer. rewrite Hcj.
  cbv beta iota. unfold mbind at 1, M_bind, bind, get. cbv beta iota.
  apply Finalize_loop_spec; [exact Hl | | exact Hlen].
  intros a Ha. apply Hall. rewrite (all_chains_Represents _ _ _ _ HR), !elem_of_app.
  right; right. by eapply concat_lookup_elem.
Qed.

Lemma Finalize_runs_all_witness :
  let s := final (@exec (lp64 8) layout64 factory_program None initial) in
  @Finalize (lp64 8) layout64 1 s = Ok [8208] s.
Proof.
  intros s.
  destruct (@Finalize_runs_all (lp64 8) layout64 factory_program None s 1%nat
              (Consumer.mk 8192 8192 1)) as [_ H];
    [vm_compute; reflexivity | vm_compute; reflexivity | vm_compute; reflexivity
    | vm_compute; reflexivity | vm_compute; reflexivity |].
  rewrite H. vm_compute. reflexivity.
Defined.

(** ** Consumers: merging and moving *)

Section ConsumerFacts.
Context {T : Target}.

(** An empty queue has null members. *)
Lemma Represents_consumer_nil s ls lps lcs j :
  Represents s ls lps lcs -> lcs !! j = Some [] ->
  consumers s !! j = Some (Consumer.mk 0 0 0).
Proof.
  intros HR Hj. destruct (Forall2_lookup_r _ _ _ _ _ (rep_consumers _ _ _ _ HR) Hj)
    as ([r l n] & Hc & Hq).
  apply is_queue_empty in Hq. cbn in Hq. by destruct Hq as (-> & -> & ->).
Qed.

Lemma Represents_consumer_size s ls lps lcs j c lc :
  Represents s ls lps lcs -> consumers s !! j = Some c -> lcs !! j = Some lc ->
  Consumer.size_ c = Z.of_nat (length lc).
Proof.
  intros HR Hc Hj.
  pose proof (Forall2_lookup_lr _ _ _ _ _ _ (rep_consumers _ _ _ _ HR) Hc Hj) as Hq.
  by destruct Hq as (_ & _ & ->).
Qed.

End ConsumerFacts.

(** [Consumer::MergeWith], and with it [FinalizerQueue::MergeWith], for two
    different consumers: the nodes of [other] are appended, in their order,
    behind those of [this], whose size grows by the size of [other]; [other]
    is left empty, with null members; every other queue is as before.  The
    call allocates nothing, frees nothing and does nothing that the outside
    sees. *)
Theorem MergeWith_appends {T : Target} {L : ObjectLayout} (calls : list Call)
    (cursor : option Iterator) (s : State) (j k : nat) (cj ck : Consumer.t) :
  target_ok = true -> well_used false calls = true ->
  exec calls None initial = Ok cursor s ->
  consumers s !! j = Some cj -> consumers s !! k = Some ck -> j <> k ->
  exists s',
    Consumer_MergeWith j k s = Ok tt s' /\
    FinalizerQueue_MergeWith j k s = Ok tt s' /\
    consumer_chain s' j = consumer_chain s j ++ consumer_chain s k /\
    consumer_chain s' k = [] /\
    Consumer_size j s' = Ok (Consumer.size_ cj + Consumer.size_ ck) s' /\
    consumers s' !! k = Some (Consumer.mk 0 0 0) /\
    (forall i, i <> j -> i <> k -> consumer_chain s' i = consumer_chain s i) /\
    (forall i, producer_chain s' i = producer_chain s i) /\
    storage_chain s' = storage_chain s /\ storage s' = storage s /\
    dom (nodes s') = dom (nodes s) /\ objects s' = objects s /\ trace s' = trace s.
Proof.
  intros HT Hw H Hcj Hck Hjk.
  destruct (reachable_FInv HT false calls cursor s Hw ltac:(done) H)
    as (ls & lps & lcs & HR & _).
  destruct (Represents_consumer_Some _ _ _ _ _ _ HR Hcj) as (lj & Hj & Hqj).
  destruct (Represents_consumer_Some _ _ _ _ _ _ HR Hck) as (lk & Hk & Hqk).
  destruct (Consumer_MergeWith_spec _ _ _ _ _ _ _ _ HT HR Hj Hk Hjk)
    as (s' & Hm & HR' & Hst & Hps & Ho & Htr & Hlen).
  destruct (keeps_heap_Consumer_MergeWith _ _ _ _ _ Hm) as [Hd _].
  assert (Hjl : (j < length lcs)%nat) by (by eapply lookup_lt_Some).
  assert (Hkl : (k < length lcs)%nat) by (by eapply lookup_lt_Some).
  assert (Hj' : <[j := lj ++ lk]> (<[k := []]> lcs) !! j = Some (lj ++ lk))
    by (apply list_lookup_insert_eq; by rewrite length_insert).
  assert (Hk' : <[j := lj ++ lk]> (<[k := []]> lcs) !! k = Some []).
  { rewrite list_lookup_insert_ne by done. by apply list_lookup_insert_eq. }
  exists s'. split_and!; try done.
  - rewrite (consumer_chain_Represents _ _ _ _ j HR'), Hj'.
    by rewrite !(consumer_chain_Represents _ _ _ _ _ HR), Hj, Hk.
  - by rewrite (consumer_chain_Represents _ _ _ _ k HR'), Hk'.
  - destruct (consumers s' !! j) as [cj' |] eqn:Hcj'.
    + unfold Consumer_size, mbind, M_bind, bind, get_consumer. rewrite Hcj'. cbn.
      rewrite (Represents_consumer_size _ _ _ _ _ _ _ HR' Hcj' Hj'), length_app.
      rewrite (Represents_consumer_size _ _ _ _ _ _ _ HR Hcj Hj).
      rewrite (Represents_consumer_size _ _ _ _ _ _ _ HR Hck Hk).
      unfold mret, M_ret, ret. do 2 f_equal. lia.
    + pose proof (Represents_consumer _ _ _ _ j HR') as Hx. rewrite Hcj', Hj' in Hx.
      contradiction.
  - by eapply Represents_consumer_nil.
  - intros i Hij Hik. rewrite (consumer_chain_Represents _ _ _ _ i HR'),
      (consumer_chain_Represents _ _ _ _ i HR). by rewrite !list_lookup_insert_ne.
  - intros i. by rewrite (producer_chain_Represents _ _ _ _ i HR'),
      (producer_chain_Represents _ _ _ _ i HR).
  - by rewrite (storage_chain_Represents _ _ _ _ HR'), (storage_chain_Represents _ _ _ _ HR).
Qed.

Lemma MergeWith_appends_witness :
  let s := final (@exec (lp64 8) layout64 factory_program None initial) in
  exists s', @Consumer_MergeWith (lp64 8) 0 1 s = Ok tt s' /\
             consumer_chain s' 0 = [4096; 8192] /\ consumer_chain s' 1 = [].
Proof.
  intros s.
  destruct (@MergeWith_appends (lp64 8) layout64 factory_program None s 0%nat 1%nat
              (Consumer.mk 4096 4096 1) (Consumer.mk 8192 8192 1))
    as (s' & H1 & _ & H2 & H3 & _);
    [vm_compute; reflexivity | vm_compute; reflexivity | vm_compute; reflexivity
    | vm_compute; reflexivity | vm_compute; reflexivity | lia |].
  exists s'. split; [exact H1 |]. split; [| exact H3].
  rewrite H2. vm_compute. reflexivity.
Defined.

(** The move constructor of [Consumer]: the new consumer takes the nodes
    of [other], in their order, and [other] is left empty, with null
    members; no node is touched, and every other queue is as before. *)
Theorem Consumer_move_takes {T : Target} {L : ObjectLayout} (calls : list Call)
    (cursor : option Iterator) (s : State) (k : nat) (ck : Consumer.t) :
  target_ok = true -> well_used false calls = true ->
  exec calls None initial = Ok cursor s ->
  consumers s !! k = Some ck ->
  let j := length (consumers s) in
  exists s',
    Consumer_move k s = Ok j s' /\
    consumers s' !! j = Some ck /\
    consumer_chain s' j = consumer_chain s k /\
    consumers s' !! k = Some (Consumer.mk 0 0 0) /\
    consumer_chain s' k = [] /\
    (forall i, i <> j -> i <> k -> consumer_chain s' i = consumer_chain s i) /\
    (forall i, producer_chain s' i = producer_chain s i) /\
    storage_chain s' = storage_chain s /\ storage s' = storage s /\
    nodes s' = nodes s /\ objects s' = objects s /\ trace s' = trace s.
Proof.
  intros HT Hw H Hck j.
  destruct (reachable_FInv HT false calls cursor s Hw ltac:(done) H)
    as (ls & lps & lcs & HR & _).
  destruct (Represents_consumer_Some _ _ _ _ _ _ HR Hck) as (lk & Hk & Hqk).
  pose proof (Represents_move _ _ _ _ _ _ _ HR Hk Hck) as HR'.
  pose proof (Forall2_length _ _ _ (rep_consumers _ _ _ _ HR)) as Hlen.
  assert (Hkl : (k < length lcs)%nat) by (by eapply lookup_lt_Some).
  assert (Hj' : (<[k := []]> lcs ++ [lk]) !! j = Some lk).
  { unfold j. rewrite Hlen, <- (length_insert lcs k []).
    by apply list_lookup_middle. }
  assert (Hk' : (<[k := []]> lcs ++ [lk]) !! k = Some []).
  { rewrite lookup_app_l by (by rewrite length_insert). by apply list_lookup_insert_eq. }
  eexists. split; [by apply Consumer_move_spec |]. split_and!; try done.
  - cbn. unfold j. rewrite <- (length_insert (consumers s) k (Consumer.mk 0 0 0)).
    by apply list_lookup_middle.
  - rewrite (consumer_chain_Represents _ _ _ _ j HR'), Hj'.
    by rewrite (consumer_chain_Represents _ _ _ _ k HR), Hk.
  - by eapply Represents_consumer_nil.
  - by rewrite (consumer_chain_Represents _ _ _ _ k HR'), Hk'.
  - intros i Hij Hik. rewrite (consumer_chain_Represents _ _ _ _ i HR'),
      (consumer_chain_Represents _ _ _ _ i HR).
    destruct (decide (i < length lcs)%nat) as [Hlt | Hge].
    + rewrite lookup_app_l by (by rewrite length_insert).
      by rewrite list_lookup_insert_ne.
    + rewrite (lookup_ge_None_2 lcs) by lia.
      rewrite lookup_ge_None_2; [done |]. rewrite length_app, length_insert. cbn.
      unfold j in Hij. lia.
  - intros i. by rewrite (producer_chain_Represents _ _ _ _ i HR'),
      (producer_chain_Represents _ _ _ _ i HR).
  - by rewrite (storage_chain_Represents _ _ _ _ HR'), (storage_chain_Represents _ _ _ _ HR).
Qed.

Lemma Consumer_move_takes_witness :
  let s := final (@exec (lp64 8) layout64 factory_program None initial) in
  exists s', Consumer_move 1 s = Ok 2%nat s' /\
             consumer_chain s' 2 = [8192] /\ consumer_chain s' 1 = [].
Proof.
  intros s.
  destruct (@Consumer_move_takes (lp64 8) layout64 factory_program None s 1%nat
              (Consumer.mk 8192 8192 1))
    as (s' & H1 & _ & H2 & _ & H3 & _);
    [vm_compute; reflexivity | vm_compute; reflexivity | vm_compute; reflexivity
    | vm_compute; reflexivity |].
  assert (E : length (consumers s) = 2%nat) by (vm_compute; reflexivity).
  rewrite E in H1, H2.
  exists s'. split; [exact H1 |]. split; [| exact H3].
  rewrite H2. vm_compute. reflexivity.
Defined.

(** The move assignment of [Consumer].  For two different consumers,
    [this] takes the nodes of [other], in their order, [other] is left
    empty, and the nodes that [this] held are freed one by one from the
    head on, each exactly once; every other queue is as before.  Assigning a
    consumer to itself changes nothing and frees nothing. *)
Theorem Consumer_move_assign_frees {T : Target} {L : ObjectLayout} (calls : list Call)
    (cursor : option Iterator) (s : State) (j k : nat) (cj ck : Consumer.t) :
  target_ok = true -> well_used false calls = true ->
  exec calls None initial = Ok cursor s ->
  consumers s !! j = Some cj -> consumers s !! k = Some ck ->
  Consumer_move_assign j j s = Ok tt s /\
  (j <> k ->
   exists s',
     Consumer_move_assign j k s = Ok tt s' /\
     consumers s' !! j = Some ck /\
     consumer_chain s' j = consumer_chain s k /\
     consumers s' !! k = Some (Consumer.mk 0 0 0) /\
     consumer_chain s' k = [] /\
     trace s' = trace s ++ map EvFree (consumer_chain s j) /\
     (forall a, nodes s' !! a
                = if decide (a ∈ consumer_chain s j) then None else nodes s !! a) /\
     (forall i, i <> j -> i <> k -> consumer_chain s' i = consumer_chain s i) /\
     (forall i, producer_chain s' i = producer_chain s i) /\
     storage_chain s' = storage_chain s /\ storage s' = storage s).
Proof.
  intros HT Hw H Hcj Hck.
  split; [by eapply Consumer_move_assign_self |]. intros Hjk.
  destruct (reachable_FInv HT false calls cursor s Hw ltac:(done) H)
    as (ls & lps & lcs & HR & _).
  destruct (Represents_consumer_Some _ _ _ _ _ _ HR Hcj) as (lj & Hj & Hqj).
  destruct (Represents_consumer_Some _ _ _ _ _ _ HR Hck) as (lk & Hk & Hqk).
  pose proof (Represents_move_assign _ _ _ _ _ _ _ _ _ HR Hj Hk Hck Hjk) as HR'.
  assert (Hjl : (j < length lcs)%nat) by (by eapply lookup_lt_Some).
  assert (Hkl : (k < length lcs)%nat) by (by eapply lookup_lt_Some).
  assert (Hjl' : (j < length (consumers s))%nat) by (by eapply lookup_lt_Some).
  assert (Hkl' : (k < length (consumers s))%nat) by (by eapply lookup_lt_Some).
  assert (Hj' : <[j := lk]> (<[k := []]> lcs) !! j = Some lk)
    by (apply list_lookup_insert_eq; by rewrite length_insert).
  assert (Hk' : <[j := lk]> (<[k := []]> lcs) !! k = Some []).
  { rewrite list_lookup_insert_ne by done. by apply list_lookup_insert_eq. }
  assert (Echain : consumer_chain s j = lj)
    by (by rewrite (consumer_chain_Represents _ _ _ _ j HR), Hj).
  eexists. split; [by eapply Consumer_move_assign_spec |]. split_and!; try done.
  - cbn. apply list_lookup_insert_eq. by rewrite length_insert.
  - rewrite (consumer_chain_Represents _ _ _ _ j HR'), Hj'.
    by rewrite (consumer_chain_Represents _ _ _ _ k HR), Hk.
  - by eapply Represents_consumer_nil.
  - by rewrite (consumer_chain_Represents _ _ _ _ k HR'), Hk'.
  - cbn. by rewrite Echain.
  - intros a. rewrite Echain. apply (nodes_freed lj s a).
  - intros i Hij Hik. rewrite (consumer_chain_Represents _ _ _ _ i HR'),
      (consumer_chain_Represents _ _ _ _ i HR). by rewrite !list_lookup_insert_ne.
  - intros i. by rewrite (producer_chain_Represents _ _ _ _ i HR'),
      (producer_chain_Represents _ _ _ _ i HR).
  - by rewrite (storage_chain_Represents _ _ _ _ HR'), (storage_chain_Represents _ _ _ _ HR).
Qed.

Lemma Consumer_move_assign_frees_witness :
  let s := final (@exec (lp64 8) layout64 factory_program None initial) in
  exists s', @Consumer_move_assign (lp64 8) 0 1 s = Ok tt s' /\
             consumer_chain s' 0 = [8192] /\
             trace s' = trace s ++ [EvFree 4096].
Proof.
  intros s.
  destruct (@Consumer_move_assign_frees (lp64 8) layout64 factory_program None s
              0%nat 1%nat (Consumer.mk 4096 4096 1) (Consumer.mk 8192 8192 1))
    as (_ & Hne);
    [vm_compute; reflexivity | vm_compute; reflexivity | vm_compute; reflexivity
    | vm_compute; reflexivity | vm_compute; reflexivity |].
  destruct Hne as (s' & H1 & _ & H2 & _ & _ & H3 & _); [lia |].
  exists s'. split; [exact H1 |]. split.
  - rewrite H2. vm_compute. reflexivity.
  - rewrite H3. vm_compute. reflexivity.
Defined.

Section SelfMerge.
Context {T : Target}.

Lemma NoDup_drop_consumer (ls : list Z) (lps lcs : list (list Z)) (j : nat) :
  NoDup (ls ++ concat lps ++ concat lcs) ->
  NoDup (ls ++ concat lps ++ concat (<[j := []]> lcs)).
Proof.
  intros H.
  assert (P : forall X, ls ++ concat lps ++ concat X = (ls ++ concat lps) ++ concat X ++ [])
    by (intros X; by rewrite app_nil_r, app_assoc).
  rewrite P in H |- *. by apply NoDup_insert_nil.
Qed.

(** A consumer emptied while its nodes stay allocated. *)
Lemma Represents_abandon_consumer s ls lps lcs j lj last root :
  Represents s ls lps lcs -> lcs !! j = Some lj -> last ∈ lj ->
  Represents (with_consumers (fun cs => <[j := Consumer.mk 0 0 0]> cs)
                (with_nodes (insert last root) s))
    ls lps (<[j := []]> lcs).
Proof.
  intros HR Hj Hlast. pose proof (Represents_nodup_consumers _ _ _ _ HR) as Hndc.
  assert (Hlc : last ∈ concat lcs) by (by eapply concat_lookup_elem).
  assert (Hall : last ∈ ls ++ concat lps ++ concat lcs)
    by (rewrite !elem_of_app; auto).
  destruct (Represents_elem _ _ _ _ _ HR Hall) as (_ & _ & Hrange).
  destruct HR as [Hst Hps Hcs Hnd Hrg].
  pose proof Hnd as Hnd'. apply NoDup_app in Hnd' as (_ & Hd1 & Hnd').
  apply NoDup_app in Hnd' as (_ & Hd2 & _).
  split; cbn.
  - eapply is_queue_agree; [| exact Hst]. intros a Ha.
    rewrite lookup_insert_ne; [done |]. intros <-. apply (Hd1 last Ha).
    rewrite elem_of_app. auto.
  - eapply producers_frame; [| exact Hps]. intros a Ha.
    rewrite lookup_insert_ne; [done |]. intros <-. by apply (Hd2 last Ha).
  - eapply (Forall2_update1 _ (nodes s)); eauto using consumer_rep_frame.
    + intros a Ha Hnl. rewrite lookup_insert_ne; [done |]. by intros <-.
    + apply is_queue_nil.
  - by apply NoDup_drop_consumer.
  - by apply map_Forall_insert_2.
Qed.

End SelfMerge.

(** [MergeWith] of a consumer with itself.  A consumer that holds nodes
    and is merged with itself ends empty, with null members, while all its
    nodes stay allocated: they are in no queue any more, the link of the last
    one leads back to the first, and nothing is freed. *)
Theorem MergeWith_self_leaks {T : Target} {L : ObjectLayout} (calls : list Call)
    (cursor : option Iterator) (s : State) (j : nat) (c : Consumer.t) :
  target_ok = true -> well_used false calls = true ->
  exec calls None initial = Ok cursor s ->
  consumers s !! j = Some c -> Consumer.root_ c <> 0 ->
  exists s',
    Consumer_MergeWith j j s = Ok tt s' /\
    consumers s' !! j = Some (Consumer.mk 0 0 0) /\
    consumer_chain s' j = [] /\
    consumer_chain s j <> [] /\
    (forall a, a ∈ consumer_chain s j ->
               is_Some (nodes s' !! a) /\ a ∉ all_chains s') /\
    nodes s' !! Consumer.last_ c = Some (Consumer.root_ c) /\
    trace s' = trace s.
Proof.
  intros HT Hw H Hcj Hroot.
  destruct (reachable_FInv HT false calls cursor s Hw ltac:(done) H)
    as (ls & lps & lcs & HR & _).
  destruct (Represents_consumer_Some _ _ _ _ _ _ HR Hcj) as (lj & Hj & Hqj).
  assert (Hne : lj <> []).
  { intros ->. apply Hroot. by apply (is_queue_root_null _ _ _ _ _ Hqj). }
  assert (Hlast : Consumer.last_ c ∈ lj).
  { destruct Hqj as (_ & -> & _). destruct lj as [| x lj _] using rev_ind; [done |].
    rewrite last_snoc. cbn. rewrite elem_of_app, elem_of_cons. auto. }
  pose proof (Represents_abandon_consumer _ _ _ _ _ _ _ (Consumer.root_ c) HR Hj Hlast)
    as HR'.
  assert (Hjl : (j < length lcs)%nat) by (by eapply lookup_lt_Some).
  assert (Hjl' : (j < length (consumers s))%nat) by (by eapply lookup_lt_Some).
  assert (Echain : consumer_chain s j = lj)
    by (by rewrite (consumer_chain_Represents _ _ _ _ j HR), Hj).
  eexists. split; [by eapply Consumer_MergeWith_self |]. split_and!.
  - cbn. by apply list_lookup_insert_eq.
  - rewrite (consumer_chain_Represents _ _ _ _ j HR').
    by rewrite list_lookup_insert_eq.
  - by rewrite Echain.
  - intros a Ha. rewrite Echain in Ha. split.
    + cbn. destruct (decide (a = Consumer.last_ c)) as [-> | Hal].
      * rewrite lookup_insert_eq. eauto.
      * rewrite lookup_insert_ne by done. eapply Represents_elem; [exact HR |].
        rewrite !elem_of_app. right; right. by eapply concat_lookup_elem.
    + rewrite (all_chains_Represents _ _ _ _ HR').
      pose proof (rep_nodup _ _ _ _ HR) as Hnd.
      assert (P : ls ++ concat lps ++ concat lcs
                  ≡ₚ lj ++ (ls ++ concat lps ++ concat (<[j := []]> lcs))).
      { pose proof (concat_insert_Permutation lcs j lj [] Hj) as P1.
        rewrite app_nil_r in P1. rewrite <- P1. solve_Permutation. }
      rewrite P in Hnd. apply NoDup_app in Hnd as (_ & Hd & _). by apply Hd.
  - cbn. apply lookup_insert_eq.
  - reflexivity.
Qed.

Lemma MergeWith_self_leaks_witness :
  let s := final (@exec (lp64 8) layout64 factory_program None initial) in
  exists s', @Consumer_MergeWith (lp64 8) 0 0 s = Ok tt s' /\
             consumer_chain s' 0 = [] /\ nodes s' !! 4096 = Some 4096.
Proof.
  intros s.
  destruct (@MergeWith_self_leaks (lp64 8) layout64 factory_program None s 0%nat
              (Consumer.mk 4096 4096 1))
    as (s' & H1 & _ & H2 & _ & _ & H3 & _);
    [vm_compute; reflexivity | vm_compute; reflexivity | vm_compute; reflexivity
    | vm_compute; reflexivity | cbn; lia |].
  exists s'. split; [exact H1 |]. split; [exact H2 | exact H3].
Defined.

(** ** Clearing and destroying *)

(** [ObjectFactoryStorage::ClearForTests] and [~ObjectFactoryStorage] free
    the same nodes, those of the storage, each exactly once: the destructor
    from the head on, one node at a time, [ClearForTests] through the nested
    destructors of the nodes from the last node back.  Neither takes the
    lock; the producers and consumers keep their nodes.  [ClearForTests]
    leaves an empty storage; the destructor leaves [last_] and [size_] as
    they were. *)
Theorem Storage_clear_and_destroy {T : Target} {L : ObjectLayout} (calls : list Call)
    (cursor : option Iterator) (s : State) :
  target_ok = true -> well_used false calls = true ->
  exec calls None initial = Ok cursor s ->
  exists s1 s2,
    Storage_ClearForTests s = Ok tt s1 /\
    Storage_destroy s = Ok tt s2 /\
    storage s1 = Storage.mk 0 0 0 (Storage.mutex_ (storage s)) /\
    storage_chain s1 = [] /\
    storage s2 = Storage.mk 0 (Storage.last_ (storage s)) (Storage.size_ (storage s))
                   (Storage.mutex_ (storage s)) /\
    trace s1 = trace s ++ map EvFree (reverse (storage_chain s)) /\
    trace s2 = trace s ++ map EvFree (storage_chain s) /\
    (forall a, nodes s1 !! a
               = if decide (a ∈ storage_chain s) then None else nodes s !! a) /\
    (forall a, nodes s2 !! a = nodes s1 !! a) /\
    (forall i, producer_chain s1 i = producer_chain s i) /\
    (forall i, consumer_chain s1 i = consumer_chain s i).
Proof.
  intros HT Hw H.
  destruct (reachable_FInv HT false calls cursor s Hw ltac:(done) H)
    as (ls & lps & lcs & HR & _).
  assert (HR1 : Represents
            (with_storage (fun st => Storage.mk 0 0 0 (Storage.mutex_ st))
               (freed (reverse ls) s)) [] lps lcs).
  { replace (with_storage _ (freed (reverse ls) s))
      with (with_storage (fun _ => Storage.mk 0 0 0 (Storage.mutex_ (storage s)))
              (freed (reverse ls) s)) by reflexivity.
    apply Represents_drop_storage with ls; [done |].
    intros a Ha. by rewrite elem_of_reverse in Ha. }
  rewrite (storage_chain_Represents _ _ _ _ HR).
  eexists _, _. split; [by eapply Storage_ClearForTests_spec |].
  split; [by eapply Storage_destroy_spec |]. split_and!; try done.
  - intros a. pose proof (nodes_freed (reverse ls) s a) as E. cbn in E |- *.
    rewrite E. destruct (decide (a ∈ reverse ls)) as [Hin | Hnin];
      rewrite elem_of_reverse in *; [by rewrite decide_True | by rewrite decide_False].
  - intros a. pose proof (nodes_freed (reverse ls) s a) as E1.
    pose proof (nodes_freed ls s a) as E2. cbn in E1, E2 |- *. rewrite E1, E2.
    destruct (decide (a ∈ reverse ls)) as [Hin | Hnin];
      rewrite elem_of_reverse in *; [by rewrite decide_True | by rewrite decide_False].
  - intros i. by rewrite (producer_chain_Represents _ _ _ _ i HR1),
      (producer_chain_Represents _ _ _ _ i HR).
  - intros i. by rewrite (consumer_chain_Represents _ _ _ _ i HR1),
      (consumer_chain_Represents _ _ _ _ i HR).
Qed.

(** Two objects and an array in the storage. *)
Lemma Storage_clear_and_destroy_witness :
  let s := final (@exec (lp64 8) layout64
                    [CallOp OpNewProducer; CallCreateObject 0 4096 (mkTypeInfo 24);
                     CallCreateArray 0 8192 (mkTypeInfo (-4)) 10;
                     CallCreateObject 0 12288 (mkTypeInfo 16); CallOp (OpPublish 0)]
                    None initial) in
  exists s1 s2,
    @Storage_ClearForTests (lp64 8) s = Ok tt s1 /\
    @Storage_destroy (lp64 8) s = Ok tt s2 /\
    trace s1 = trace s ++ [EvFree 12288; EvFree 8192; EvFree 4096] /\
    trace s2 = trace s ++ [EvFree 4096; EvFree 8192; EvFree 12288].
Proof.
  intros s.
  destruct (@Storage_clear_and_destroy (lp64 8) layout64
              [CallOp OpNewProducer; CallCreateObject 0 4096 (mkTypeInfo 24);
               CallCreateArray 0 8192 (mkTypeInfo (-4)) 10;
               CallCreateObject 0 12288 (mkTypeInfo 16); CallOp (OpPublish 0)]
              None s)
    as (s1 & s2 & H1 & H2 & _ & _ & _ & H3 & H4 & _);
    [vm_compute; reflexivity | vm_compute; reflexivity | vm_compute; reflexivity |].
  exists s1, s2. split; [exact H1 |]. split; [exact H2 |]. split.
  - rewrite H3. vm_compute. reflexivity.
  - rewrite H4. vm_compute. reflexivity.
Defined.

(** [Producer::ClearForTests], and with it [ThreadQueue::ClearForTests]:
    the nodes of the producer are freed, each exactly once, from the last
    one back; the producer is left empty, with null members; the storage and
    the other queues keep their nodes. *)
Theorem Producer_ClearForTests_frees {T : Target} {L : ObjectLayout} (calls : list Call)
    (cursor : option Iterator) (s : State) (i : nat) (p : Producer.t) :
  target_ok = true -> well_used false calls = true ->
  exec calls None initial = Ok cursor s ->
  producers s !! i = Some p ->
  exists s',
    Producer_ClearForTests i s = Ok tt s' /\
    producers s' !! i = Some (Producer.mk 0 0 0) /\
    producer_chain s' i = [] /\
    trace s' = trace s ++ map EvFree (reverse (producer_chain s i)) /\
    (forall a, nodes s' !! a
               = if decide (a ∈ producer_chain s i) then None else nodes s !! a) /\
    (forall k, k <> i -> producer_chain s' k = producer_chain s k) /\
    (forall j, consumer_chain s' j = consumer_chain s j) /\
    storage_chain s' = storage_chain s /\ storage s' = storage s.
Proof.
  intros HT Hw H Hp.
  destruct (reachable_FInv HT false calls cursor s Hw ltac:(done) H)
    as (ls & lps & lcs & HR & _).
  destruct (Represents_producer_Some _ _ _ _ _ _ HR Hp) as (lp & Hi & Hq).
  assert (HR1 : Represents
            (with_producers (fun ps => <[i := Producer.mk 0 0 0]> ps)
               (freed (reverse lp) s)) ls (<[i := []]> lps) lcs).
  { apply Represents_drop_producer with lp; [done | done |].
    intros a Ha. by rewrite elem_of_reverse in Ha. }
  assert (Hil : (i < length lps)%nat) by (by eapply lookup_lt_Some).
  assert (Hil' : (i < length (producers s))%nat) by (by eapply lookup_lt_Some).
  assert (Echain : producer_chain s i = lp)
    by (by rewrite (producer_chain_Represents _ _ _ _ i HR), Hi).
  rewrite Echain.
  eexists. split; [by eapply Producer_ClearForTests_spec |]. split_and!; try done.
  - cbn. by apply list_lookup_insert_eq.
  - rewrite (producer_chain_Represents _ _ _ _ i HR1). by rewrite list_lookup_insert_eq.
  - intros a. pose proof (nodes_freed (reverse lp) s a) as E. cbn in E |- *.
    rewrite E. destruct (decide (a ∈ reverse lp)) as [Hin | Hnin];
      rewrite elem_of_reverse in *; [by rewrite decide_True | by rewrite decide_False].
  - intros k Hk. rewrite (producer_chain_Represents _ _ _ _ k HR1),
      (producer_chain_Represents _ _ _ _ k HR). by rewrite list_lookup_insert_ne.
  - intros j. by rewrite (consumer_chain_Represents _ _ _ _ j HR1),
      (consumer_chain_Represents _ _ _ _ j HR).
  - by rewrite (storage_chain_Represents _ _ _ _ HR1), (storage_chain_Represents _ _ _ _ HR).
Qed.

Lemma Producer_ClearForTests_frees_witness :
  let s := final (@exec (lp64 8) layout64
                    [CallOp OpNewProducer; CallCreateObject 0 4096 (mkTypeInfo 24);
                     CallCreateArray 0 8192 (mkTypeInfo (-4)) 10]
                    None initial) in
  exists s', @Producer_ClearForTests (lp64 8) 0 s = Ok tt s' /\
             trace s' = trace s ++ [EvFree 8192; EvFree 4096].
Proof.
  intros s.
  destruct (@Producer_ClearForTests_frees (lp64 8) layout64
              [CallOp OpNewProducer; CallCreateObject 0 4096 (mkTypeInfo 24);
               CallCreateArray 0 8192 (mkTypeInfo (-4)) 10]
              None s 0%nat (Producer.mk 4096 8192 2))
    as (s' & H1 & _ & _ & H2 & _);
    [vm_compute; reflexivity | vm_compute; reflexivity | vm_compute; reflexivity
    | vm_compute; reflexivity |].
  exists s'. split; [exact H1 |]. rewrite H2. vm_compute. reflexivity.
Defined.

(** [~Consumer]: the nodes of the consumer are freed, each exactly once,
    from the head on, and their records go with them; [root_] is left null;
    the other live nodes keep their records, and the other queues keep
    their nodes. *)
Theorem Consumer_destroy_frees {T : Target} {L : ObjectLayout} (calls : list Call)
    (cursor : option Iterator) (s : State) (j : nat) (c : Consumer.t) :
  target_ok = true -> well_used false calls = true ->
  exec calls None initial = Ok cursor s ->
  consumers s !! j = Some c ->
  exists s',
    Consumer_destroy j s = Ok tt s' /\
    trace s' = trace s ++ map EvFree (consumer_chain s j) /\
    (forall a, nodes s' !! a
               = if decide (a ∈ consumer_chain s j) then None else nodes s !! a) /\
    (forall a, a ∈ consumer_chain s j -> objects s' !! size_add a DataOffset = None) /\
    (forall a, a ∉ consumer_chain s j -> is_Some (nodes s !! a) ->
               objects s' !! size_add a DataOffset = objects s !! size_add a DataOffset) /\
    storage s' = storage s /\ producers s' = producers s /\
    consumers s' !! j = Some (Consumer.mk 0 (Consumer.last_ c) (Consumer.size_ c)) /\
    (forall k, k <> j -> consumers s' !! k = consumers s !! k).
Proof.
  intros HT Hw H Hcj.
  destruct (reachable_FInv HT false calls cursor s Hw ltac:(done) H)
    as (ls & lps & lcs & HR & _).
  destruct (Represents_consumer_Some _ _ _ _ _ _ HR Hcj) as (lj & Hj & Hq).
  assert (Echain : consumer_chain s j = lj)
    by (by rewrite (consumer_chain_Represents _ _ _ _ j HR), Hj).
  rewrite Echain.
  eexists. split; [by eapply Consumer_destroy_spec |]. split_and!; try done.
  - intros a. apply (nodes_freed lj s a).
  - intros a Ha. cbn. by apply foldl_delete_data_gone.
  - intros a Ha [v Hv]. cbn.
    apply foldl_delete_data_lookup. intros b Hb E. apply Ha.
    assert (Hbl : b ∈ ls ++ concat lps ++ concat lcs).
    { rewrite !elem_of_app. right; right. by eapply concat_lookup_elem. }
    destruct (Represents_elem _ _ _ _ _ HR Hbl) as (_ & _ & Rb).
    pose proof (rep_range _ _ _ _ HR a v Hv) as Ra. cbn beta in Ra.
    assert (b = a); [| by subst].
    apply Data_inj; [by apply target_ok_bits | lia | lia | done].
  - cbn. apply list_lookup_insert_eq. by eapply lookup_lt_Some.
  - intros k Hk. cbn. by apply list_lookup_insert_ne.
Qed.

Lemma Consumer_destroy_frees_witness :
  let s := final (@exec (lp64 8) layout64 finalizer_program None initial) in
  exists s', @Consumer_destroy (lp64 8) 0 s = Ok tt s' /\
             trace s' = trace s ++ [EvFree 4096; EvFree 8192] /\
             nodes s' !! 4096 = None /\ nodes s' !! 8192 = None /\
             objects s' !! 4104 = None /\ objects s' !! 8200 = None /\
             is_Some (objects s' !! 12296).
Proof.
  intros s.
  destruct (@Consumer_destroy_frees (lp64 8) layout64 finalizer_program None s 0%nat
              (Consumer.mk 4096 8192 2)) as (s' & H1 & H2 & H3 & H4 & H5 & _);
    [vm_compute; reflexivity | vm_compute; reflexivity | vm_compute; reflexivity
    | vm_compute; reflexivity |].
  assert (E : consumer_chain s 0 = [4096; 8192]) by (vm_compute; reflexivity).
  rewrite E in *.
  exists s'. split; [exact H1 |]. split; [exact H2 |].
  split; [rewrite H3; reflexivity |]. split; [rewrite H3; reflexivity |].
  split; [apply (H4 4096); rewrite elem_of_cons; by left |].
  split; [apply (H4 8192); rewrite !elem_of_cons; right; by left |].
  replace (objects s' !! 12296) with (objects s !! 12296).
  - vm_compute. eauto.
  - symmetry. apply (H5 12288).
    + rewrite !elem_of_cons, elem_of_nil. lia.
    + vm_compute. eauto.
Defined.

(** ** Iterating, and the lock *)

Section IterationFacts.
Context {T : Target}.

(** [ExtractUnsafe] with the iterator behind the last node. *)
Lemma ExtractUnsafe_end_outcome s ls lps lcs :
  Represents s ls lps lcs ->
  ExtractUnsafe (default 0 (last ls)) s
  = match ls with
    | [] => AssertionFailed "Must not be empty" s
    | _ :: _ => Undefined
    end.
Proof.
  intros HR. pose proof (Represents_null _ _ _ _ HR) as H0.
  destruct HR as [Hst _ _ _ _].
  destruct s as [h st ps cs objs tr]. cbn [nodes storage] in *.
  destruct st as [sroot slast ssize smutex]. unfold storage_rep in Hst. cbn in Hst.
  unfold ExtractUnsafe, AssertCorrectUnsafe.
  destruct ls as [| y l0 _] using rev_ind.
  - apply is_queue_empty in Hst as (-> & -> & ->). by run.
  - rewrite last_snoc. apply is_queue_snoc in Hst as Hst'.
    destruct Hst' as (Hr & _ & -> & Hy0 & Hyn & _ & ->).
    apply Z.eqb_neq in Hr, Hy0. run. rewrite Hr. run.
    erewrite assert_correct_ok by (reflexivity || exact Hst). run.
    rewrite Hy0. run. repeat (rewrite Hyn; run).
    apply Z.eqb_neq in Hy0. rewrite lookup_insert_ne by congruence. rewrite H0.
    by destruct l0.
Qed.

(** Walking a chain from any of its nodes. *)
Lemma Iterator_advance_lseg (l : list Z) (s : State) (prev p q : Z) :
  lseg (nodes s) p l q ->
  Iterator_advance (length l) (mkIterator prev p) s
  = Ok (mkIterator (default prev (last l)) q) s.
Proof.
  revert prev p. induction l as [| a l IH]; intros prev p Hl.
  - cbn in Hl. by subst.
  - cbn in Hl. destruct Hl as (-> & Ha0 & nx & Hnx & Hl). cbn [length Iterator_advance].
    unfold Iterator_incr. run. rewrite Hnx. run. rewrite (IH a nx Hl).
    do 2 f_equal. destruct l as [| b l _] using rev_ind; [done |].
    by rewrite last_snoc, last_cons, last_snoc.
Qed.

End IterationFacts.

(** Iteration over the locked storage.  From [begin()], as many [++] as
    [size()] tells arrive at [end()], with the last node as the recorded
    predecessor; the nodes passed on the way are those of the storage, in
    order, none of them null; one more [++] reads through a null pointer. *)
Theorem iteration_reaches_end {T : Target} {L : ObjectLayout} (calls : list Call)
    (cursor : option Iterator) (s : State) :
  target_ok = true -> well_used false calls = true ->
  exec calls None initial = Ok cursor s ->
  exists b e,
    Iterable_begin s = Ok b s /\ Iterable_end s = Ok e s /\
    Iterable_size s = Ok (Z.of_nat (length (storage_chain s))) s /\
    Iterator_advance (length (storage_chain s)) b s = Ok e s /\
    iterate (length (storage_chain s)) b s = Ok (storage_chain s) s /\
    (forall n a, storage_chain s !! n = Some a ->
       a <> 0 /\ exists it, Iterator_advance n b s = Ok it s /\ node_ it = a) /\
    Iterator_incr e s = Undefined.
Proof.
  intros HT Hw H.
  destruct (reachable_FInv HT false calls cursor s Hw ltac:(done) H)
    as (ls & lps & lcs & HR & _).
  rewrite (storage_chain_Represents _ _ _ _ HR).
  pose proof (rep_storage _ _ _ _ HR) as (Hl & Hlast & Hsize).
  eexists _, _. split; [reflexivity |]. split; [reflexivity |]. split_and!.
  - unfold Iterable_size, mbind, M_bind, bind, get_storage. cbn. by rewrite Hsize.
  - rewrite (Iterator_advance_lseg ls s 0 _ 0 Hl). by rewrite Hlast.
  - by apply (iterate_lseg (nodes s)).
  - intros n a Hn. apply lookup_split in Hn as (l1 & l2 & -> & <-).
    apply lseg_app in Hl as (m & Hl1 & Hl2).
    split; [by destruct Hl2 as (_ & ? & _) |].
    eexists. split; [by apply Iterator_advance_lseg |]. cbn. by destruct Hl2 as (? & _).
  - unfold Iterator_incr, mbind, M_bind, bind, get_next. cbn.
    by rewrite (Represents_null _ _ _ _ HR).
Qed.

(** While an [Iterable] is alive the lock is held: [Publish] of a producer
    that has nodes spins and changes nothing, [Publish] of an empty producer
    returns at once, and [LockForIter] spins.  With the iterator at [end()],
    [EraseAndAdvance] and [MoveAndAdvance] do not return: on the empty
    storage the assertion of [ExtractUnsafe] fires, otherwise they read
    through a null pointer. *)
Theorem Iterable_holds_the_lock {T : Target} {L : ObjectLayout} (calls : list Call)
    (it : Iterator) (s : State) :
  target_ok = true -> well_used false calls = true ->
  exec calls None initial = Ok (Some it) s ->
  LockForIter s = Blocked s /\
  (forall i p, producers s !! i = Some p ->
     Publish i s = if Producer.root_ p =? 0 then Ok tt s else Blocked s) /\
  (node_ it = 0 ->
   forall j,
     EraseAndAdvance it s
     = match storage_chain s with
       | [] => AssertionFailed "Must not be empty" s
       | _ :: _ => Undefined
       end /\
     MoveAndAdvance j it s
     = match storage_chain s with
       | [] => AssertionFailed "Must not be empty" s
       | _ :: _ => Undefined
       end).
Proof.
  intros HT Hw H.
  destruct (reachable_FInv HT false calls (Some it) s Hw ltac:(done) H)
    as (ls & lps & lcs & HR & Hc & _).
  destruct Hc as (Hm & l1 & l2 & -> & Hprev & Hnode).
  split; [unfold LockForIter, lock; by rewrite Hm |]. split.
  - intros i p Hp.
    destruct (Represents_producer_Some _ _ _ _ _ _ HR Hp) as (lp & Hlp & Hq).
    destruct (Z.eqb_spec (Producer.root_ p) 0) as [E | E].
    + apply (is_queue_root_null _ _ _ _ _ Hq) in E. subst lp.
      by eapply Publish_empty.
    + eapply Publish_blocked; eauto. intros ->. apply E.
      by apply (is_queue_root_null _ _ _ _ _ Hq).
  - intros Hend j. rewrite (storage_chain_Represents _ _ _ _ HR).
    assert (l2 = []) as ->.
    { destruct l2 as [| n l2]; [done |]. exfalso.
      assert (Hn : n ∈ (l1 ++ n :: l2) ++ concat lps ++ concat lcs)
        by (rewrite !elem_of_app, elem_of_cons; auto).
      destruct (Represents_elem _ _ _ _ _ HR Hn) as (Hn0 & _). cbn in Hnode.
      congruence. }
    rewrite app_nil_r in HR |- *.
    pose proof (ExtractUnsafe_end_outcome _ _ _ _ HR) as Hx. rewrite <- Hprev in Hx.
    unfold EraseAndAdvance, MoveAndAdvance, mbind, M_bind, bind. rewrite Hx.
    by destruct l1.
Qed.

Lemma Iterable_holds_the_lock_witness :
  let s := final (@exec (lp64 8) layout64
                    [CallOp OpNewProducer; CallCreateObject 0 4096 (mkTypeInfo 24);
                     CallOp (OpPublish 0); CallCreateObject 0 8192 (mkTypeInfo 24);
                     CallOp OpLockForIter; CallOp OpIncr]
                    None initial) in
  @Publish (lp64 8) 0 s = Blocked s /\
  @EraseAndAdvance (lp64 8) (mkIterator 4096 0) s = Undefined.
Proof.
  intros s.
  destruct (@Iterable_holds_the_lock (lp64 8) layout64
              [CallOp OpNewProducer; CallCreateObject 0 4096 (mkTypeInfo 24);
               CallOp (OpPublish 0); CallCreateObject 0 8192 (mkTypeInfo 24);
               CallOp OpLockForIter; CallOp OpIncr]
              (mkIterator 4096 0) s) as (_ & H1 & H2);
    [vm_compute; reflexivity | vm_compute; reflexivity | vm_compute; reflexivity |].
  split.
  - rewrite (H1 0%nat (Producer.mk 8192 8192 1)) by (vm_compute; reflexivity).
    reflexivity.
  - destruct (H2 eq_refl 0%nat) as [H3 _]. rewrite H3. vm_compute. reflexivity.
Defined.

Lemma iteration_reaches_end_witness :
  let s := final (@exec (lp64 8) layout64
                    [CallOp OpNewProducer; CallCreateObject 0 4096 (mkTypeInfo 24);
                     CallCreateObject 0 8192 (mkTypeInfo 24); CallOp (OpPublish 0);
                     CallOp OpLockForIter]
                    None initial) in
  @Iterator_advance (lp64 8) 2 (mkIterator 0 4096) s = Ok (mkIterator 8192 0) s.
Proof.
  intros s.
  destruct (@iteration_reaches_end (lp64 8) layout64
              [CallOp OpNewProducer; CallCreateObject 0 4096 (mkTypeInfo 24);
               CallCreateObject 0 8192 (mkTypeInfo 24); CallOp (OpPublish 0);
               CallOp OpLockForIter]
              (Some (mkIterator 0 4096)) s) as (b & e & Hb & He & _ & Ha & _);
    [vm_compute; reflexivity | vm_compute; reflexivity | vm_compute; reflexivity |].
  vm_compute in Hb, He. inversion Hb; subst b. inversion He; subst e.
  assert (E : length (storage_chain s) = 2%nat) by (vm_compute; reflexivity).
  rewrite E in Ha. exact Ha.
Defined.

(** ** The data region of a node *)

(** The data region lies inside the block of its node.  For a block that
    the allocator placed at an address aligned as requested and that does not
    reach the end of the address space, [Data()] passes its assertion and returns
    an address that is aligned to [DataAlignment], that lies behind the
    header of the node, and from which [dataSize] bytes end within the
    [totalSize] bytes of the block; the size requested is a multiple of the
    alignment requested. *)
Theorem data_region_inside_block {T : Target} (dataSize answer : Z) (s : State) :
  target_ok = true ->
  0 <= dataSize ->
  dataSize + sizeof_Node + DataAlignment + size_max alignof_Node DataAlignment <= SIZE_MOD ->
  let totalSize := (GetSizeAndAlignmentForDataSize dataSize).1 in
  let totalAlignment := (GetSizeAndAlignmentForDataSize dataSize).2 in
  0 <= answer -> answer + totalSize < SIZE_MOD ->
  IsAligned answer totalAlignment = true ->
  exists data,
    Data answer s = Ok data s /\
    data = answer + DataOffset /\
    (DataAlignment | data) /\
    answer + sizeof_Node <= data /\
    data + dataSize <= answer + totalSize /\
    (totalAlignment | totalSize) /\ (DataAlignment | totalAlignment).
Proof.
  intros HT Hd Hov totalSize totalAlignment Ha0 Hfit Hal.
  destruct (GetSize_fits dataSize HT Hd Hov) as ((H1 & H2) & H3 & H4 & H5 & H6).
  cbn zeta in H1, H2, H5, H6.
  change (GetSizeAndAlignmentForDataSize dataSize).1 with totalSize in H1, H2, H5.
  change (GetSizeAndAlignmentForDataSize dataSize).2 with totalAlignment in H5, H6.
  destruct (target_ok_pow2 HT) as (Hb & Hs & k & j & Hk & Hdk & Hj & Haj).
  assert (Hpk : 0 < 2 ^ k) by (apply Z.pow_pos_nonneg; lia).
  assert (Hmax : 0 < size_max alignof_Node DataAlignment).
  { unfold size_max. destruct (alignof_Node <? DataAlignment); [lia |].
    rewrite Haj. apply Z.pow_pos_nonneg; lia. }
  assert (Hoff : sizeof_Node <= DataOffset).
  { unfold DataOffset. rewrite Hdk.
    assert (E1 : 0 <= sizeof_Node) by lia.
    assert (E2 : sizeof_Node + 2 ^ k - 1 < SIZE_MOD) by lia.
    by destruct (AlignUp_bounds sizeof_Node k Hb Hk E1 E2) as ((? & _) & _). }
  assert (Hsz : is_size_t answer = true) by (apply is_size_t_spec; lia).
  pose proof (IsAligned_total answer HT Hal) as Hal'.
  destruct (Data_FromData answer s HT Hsz Hal') as [HD _].
  assert (Hsum : size_add answer DataOffset = answer + DataOffset)
    by (apply size_add_small; lia).
  rewrite Hsum in HD.
  exists (answer + DataOffset). split; [exact HD |]. split; [done |]. split_and!; try lia;
    try done.
  apply Z.divide_add_r; [| done].
  apply (IsAligned_spec answer DataAlignment) in Hal'; [done | lia].
Qed.

Lemma data_region_inside_block_witness :
  exists data, @Data (lp64 16) 4096 initial = Ok data initial /\ data = 4096 + 16.
Proof.
  destruct (@data_region_inside_block (lp64 16) 24 4096 initial)
    as (data & H1 & H2 & _);
    [vm_compute; reflexivity | lia | vm_compute; discriminate | lia
    | vm_compute; reflexivity | vm_compute; reflexivity |].
  exists data. split; [exact H1 |]. rewrite H2. vm_compute. reflexivity.
Defined.


